(** * wrkr-web: the job feed pipeline

    A shallow embedding of the feed pipeline of the jobs-browse screen
    ([src/app/(site)/jobs/page.tsx]), of the geo utilities it imports
    ([utils/geo]: [haversineMiles], [geocodeZip]) and of the form that posts
    a job ([src/app/(site)/jobs/new/page.tsx]), followed by the properties
    of the pipeline.

    Conventions of the embedding.
    - A JavaScript [number] is [NaN], one of the two infinities, or a finite
      value carried as a real. Comparisons, [Math.min] and the tests on
      numbers are exact. The arithmetic of the engine is not: a sum, a
      product, a quotient and the [Math] functions are the engine's, an
      [Engine] with the laws of IEEE 754 rounding that the proofs use
      (monotone, odd, exact on the integers up to 2^53, overflowing to an
      infinity). Signed zeros are not modelled.
    - [Array.prototype.sort] and [String.prototype.toLowerCase] are the
      engine's too: the first with the two guarantees of ECMAScript, the
      second with none but that it maps the empty string to itself.
    - A JavaScript value of static type [any] is a [value]; fields that the
      code inspects with [typeof], [instanceof] or truthiness keep that
      dynamic type.
    - Strings are sequences of 8-bit characters.
    - The clock, the time zone, the browser storage and the network are
      explicit parameters or explicit state. A time zone is a [Zone]: the
      local time of an instant and the instant of a local time, with no
      constant offset assumed. *)

From Stdlib Require Import ZArith Reals Lra Lia String Ascii List.
From Stdlib Require Import Permutation Sorted.
From stdpp Require Import base decidable option list strings gmap.

Set Warnings "-register-all".

Import ListNotations.
Local Open Scope Z_scope.
Local Open Scope string_scope.
Local Open Scope list_scope.

(** ** JavaScript numbers *)

Module Num.

Inductive number : Type :=
| NaN
| PosInf
| NegInf
| Fin (x : R).

#[global] Instance Rle_decision : RelDecision Rle := Rle_dec.
#[global] Instance Rlt_decision : RelDecision Rlt := Rlt_dec.
#[global] Instance Req_decision : RelDecision (@eq R) := Req_dec_T.

(** [Number.isFinite]. *)
Definition isFinite (n : number) : bool :=
  match n with Fin _ => true | _ => false end.

Definition isNaN (n : number) : bool :=
  match n with NaN => true | _ => false end.

(** Unary minus. *)
Definition neg (n : number) : number :=
  match n with
  | NaN => NaN
  | PosInf => NegInf
  | NegInf => PosInf
  | Fin x => Fin (- x)
  end.

(** An infinity of the sign of the finite, non-zero [x]. *)
Definition inf_of_sign (x : R) : number :=
  if bool_decide (0 < x)%R then PosInf else NegInf.

(** [a <= b]: false as soon as one side is [NaN]. *)
Definition leb (a b : number) : bool :=
  match a, b with
  | NaN, _ | _, NaN => false
  | NegInf, _ | _, PosInf => true
  | PosInf, _ | _, NegInf => false
  | Fin x, Fin y => bool_decide (x <= y)%R
  end.

(** [a < b]. *)
Definition ltb (a b : number) : bool :=
  match a, b with
  | NaN, _ | _, NaN => false
  | PosInf, _ | _, NegInf => false
  | NegInf, _ | _, PosInf => true
  | Fin x, Fin y => bool_decide (x < y)%R
  end.

(** [Math.min(a, b)]: [NaN] as soon as one argument is. *)
Definition min (a b : number) : number :=
  match a, b with
  | NaN, _ | _, NaN => NaN
  | _, _ => if leb a b then a else b
  end.

(** [Math.PI]: the double nearest to pi,
    [3.141592653589793115997963468544185161590576171875]. *)
Definition pi64 : R := (884279719003555 / 281474976710656)%R.

Definition PI : number := Fin pi64.

(** The number of an integer. *)
Definition of_Z (z : Z) : number := Fin (IZR z).

(** *** The result of a comparator, as [Array.prototype.sort] reads it

    [v > 0] and [v < 0]; a [NaN] result counts as [+0]. *)
Definition positive (v : number) : bool :=
  match v with
  | PosInf => true
  | Fin x => bool_decide (0 < x)%R
  | NaN | NegInf => false
  end.

Definition negative (v : number) : bool :=
  match v with
  | NegInf => true
  | Fin x => bool_decide (x < 0)%R
  | NaN | PosInf => false
  end.

Section Comparator.
Context {A : Type} (comparefn : A -> A -> number).

(** [a =CF b], [a <CF b] and [a >CF b] of ECMAScript. *)
Definition equalCF (a b : A) : Prop :=
  positive (comparefn a b) = false /\ negative (comparefn a b) = false.

Definition lessCF (a b : A) : Prop := negative (comparefn a b) = true.

Definition greaterCF (a b : A) : Prop := positive (comparefn a b) = true.

(** A consistent comparator for the elements of [l], as ECMAScript
    defines it. *)
Definition consistent (l : list A) : Prop :=
  forall a b c, In a l -> In b l -> In c l ->
    equalCF a a
    /\ (equalCF a b -> equalCF b a)
    /\ (equalCF a b -> equalCF b c -> equalCF a c)
    /\ (lessCF a b -> lessCF b c -> lessCF a c)
    /\ (greaterCF a b -> greaterCF b c -> greaterCF a c).

(** The sort order of ECMAScript: no element stands before one that the
    comparator puts strictly below it. *)
Definition sortOrder (x y : A) : Prop := negative (comparefn y x) = false.

End Comparator.

(** *** The engine

    The integers up to [2^53] in magnitude are doubles. *)
Definition exactInt : Z := 9007199254740992.

(** What the JavaScript engine computes, with the laws the proofs use and
    no others.
    - [round x] is the double a product or a quotient of exact value [x]
      rounds to, an infinity on overflow: rounding to nearest is monotone,
      odd, and exact on the integers up to [2^53]. [roundSum x] is the
      same for a sum or a difference of two doubles, which moreover has
      the sign of [x] (gradual underflow: the difference of two distinct
      doubles is not zero).
    - [sin_], [cos_], [sqrt_] and [asin_] are [Math.sin], [Math.cos],
      [Math.sqrt] and [Math.asin] on the finite numbers of their domains.
      ECMAScript leaves their precision to the implementation; taken of
      them: the sine is odd, the cosine lies in [-1, 1], the square root
      is not negative and is 0 at 0, the inverse sine maps [0, 1] into
      [0, 2] and 0 to 0.
    - [toLowerCase] is [String.prototype.toLowerCase]; taken of it: the
      empty string stays empty.
    - [array_sort comparefn l] is [l.sort(comparefn)] on a list without
      holes: a rearrangement of [l], in sort order when the comparator is
      consistent, in an order of the implementation's choice otherwise. *)
Class Engine : Type := mkEngine {
  round : R -> number;
  roundSum : R -> number;
  sin_ : R -> R;
  cos_ : R -> R;
  sqrt_ : R -> R;
  asin_ : R -> R;
  toLowerCase : string -> string;
  array_sort : forall A : Type, (A -> A -> number) -> list A -> list A;

  round_mono : forall x y, (x <= y)%R -> leb (round x) (round y) = true;
  round_odd : forall x, round (- x) = neg (round x);
  round_int :
    forall z, (Z.abs z <= exactInt)%Z -> round (IZR z) = Fin (IZR z);

  roundSum_odd : forall x, roundSum (- x) = neg (roundSum x);
  roundSum_int :
    forall z, (Z.abs z <= exactInt)%Z -> roundSum (IZR z) = Fin (IZR z);
  roundSum_sign : forall x, (0 < x)%R -> positive (roundSum x) = true;

  sin_odd : forall x, sin_ (- x) = (- sin_ x)%R;
  cos_bound : forall x, (-1 <= cos_ x <= 1)%R;
  sqrt_nonneg : forall x, (0 <= x)%R -> (0 <= sqrt_ x)%R;
  sqrt_zero : sqrt_ 0 = 0%R;
  asin_range : forall x, (0 <= x <= 1)%R -> (0 <= asin_ x <= 2)%R;
  asin_zero : asin_ 0 = 0%R;

  toLowerCase_empty : toLowerCase "" = "";

  sort_rearranges :
    forall (A : Type) (comparefn : A -> A -> number) (l : list A),
      Permutation (array_sort A comparefn l) l;
  sort_orders :
    forall (A : Type) (comparefn : A -> A -> number) (l : list A),
      consistent comparefn l ->
      StronglySorted (sortOrder comparefn) (array_sort A comparefn l)
}.

Arguments array_sort {Engine A} comparefn l.

Section Arithmetic.
Context {eng : Engine}.

(** A numeric literal: the double nearest to its decimal value. *)
Definition literal (x : R) : number := round x.

(** [a + b]. *)
Definition add (a b : number) : number :=
  match a, b with
  | NaN, _ | _, NaN => NaN
  | PosInf, NegInf | NegInf, PosInf => NaN
  | PosInf, _ | _, PosInf => PosInf
  | NegInf, _ | _, NegInf => NegInf
  | Fin x, Fin y => roundSum (x + y)
  end.

(** [a - b]. *)
Definition sub (a b : number) : number := add a (neg b).

(** [a * b]; an infinity times zero is [NaN]. *)
Definition mul (a b : number) : number :=
  match a, b with
  | NaN, _ | _, NaN => NaN
  | Fin x, Fin y => round (x * y)
  | PosInf, PosInf | NegInf, NegInf => PosInf
  | PosInf, NegInf | NegInf, PosInf => NegInf
  | PosInf, Fin x | Fin x, PosInf =>
      if bool_decide (x = 0)%R then NaN else inf_of_sign x
  | NegInf, Fin x | Fin x, NegInf =>
      if bool_decide (x = 0)%R then NaN else neg (inf_of_sign x)
  end.

(** [a / b]; a zero divisor counts as the positive zero. *)
Definition div (a b : number) : number :=
  match a, b with
  | NaN, _ | _, NaN => NaN
  | Fin x, Fin y =>
      if bool_decide (y = 0)%R
      then (if bool_decide (x = 0)%R then NaN else inf_of_sign x)
      else round (x / y)
  | Fin _, (PosInf | NegInf) => Fin 0
  | (PosInf | NegInf), (PosInf | NegInf) => NaN
  | PosInf, Fin y => if bool_decide (y < 0)%R then NegInf else PosInf
  | NegInf, Fin y => if bool_decide (y < 0)%R then PosInf else NegInf
  end.

(** [Math.sin], [Math.cos]: [NaN] outside the finite numbers. *)
Definition sin (a : number) : number :=
  match a with Fin x => Fin (sin_ x) | _ => NaN end.

Definition cos (a : number) : number :=
  match a with Fin x => Fin (cos_ x) | _ => NaN end.

(** [Math.sqrt]. *)
Definition sqrt (a : number) : number :=
  match a with
  | NaN | NegInf => NaN
  | PosInf => PosInf
  | Fin x => if bool_decide (x < 0)%R then NaN else Fin (sqrt_ x)
  end.

(** [Math.asin]: [NaN] outside [-1, 1]. *)
Definition asin (a : number) : number :=
  match a with
  | Fin x =>
      if bool_decide (-1 <= x)%R && bool_decide (x <= 1)%R
      then Fin (asin_ x) else NaN
  | _ => NaN
  end.

End Arithmetic.

End Num.

(** ** JavaScript strings, dates and dynamically typed values *)

Module JS.
Import Num.

(** White space removed by [String.prototype.trim], within 8-bit
    characters: TAB, LF, VT, FF, CR, SP and NBSP. *)
Definition isWhiteSpace (c : ascii) : bool :=
  let n := nat_of_ascii c in
  (Nat.eqb n 9 || Nat.eqb n 10 || Nat.eqb n 11 || Nat.eqb n 12
   || Nat.eqb n 13 || Nat.eqb n 32 || Nat.eqb n 160)%bool.

Fixpoint trimStart (s : string) : string :=
  match s with
  | EmptyString => EmptyString
  | String c s' => if isWhiteSpace c then trimStart s' else s
  end.

Fixpoint trimEnd (s : string) : string :=
  match s with
  | EmptyString => EmptyString
  | String c s' =>
      match trimEnd s' with
      | EmptyString => if isWhiteSpace c then EmptyString else String c EmptyString
      | t => String c t
      end
  end.

(** [s.trim()]. *)
Definition trim (s : string) : string := trimEnd (trimStart s).

Definition lowerChar (c : ascii) : ascii :=
  let n := nat_of_ascii c in
  if (Nat.leb 65 n && Nat.leb n 90)%bool then ascii_of_nat (n + 32) else c.

(** Lower case of the ASCII letters, the other characters kept: what
    [s.toLowerCase()] is on a string of ASCII characters. *)
Fixpoint lowerAscii (s : string) : string :=
  match s with
  | EmptyString => EmptyString
  | String c s' => String (lowerChar c) (lowerAscii s')
  end.

(** [s.includes(sub)]. *)
Fixpoint includes (s sub : string) : bool :=
  (String.prefix sub s ||
   match s with
   | EmptyString => false
   | String _ s' => includes s' sub
   end)%bool.

(** Truthiness of a string: non-empty. *)
Definition nonEmpty (s : string) : bool :=
  match s with EmptyString => false | _ => true end.

(** A [Date] object: its time value is [NaN] (an invalid date) or an
    integral number of milliseconds since the epoch. *)
Inductive Date : Type :=
| InvalidDate
| DateAt (t : Z).

(** The time values of valid dates: at most [8.64e15] milliseconds from
    the epoch. *)
Definition maxTime : Z := 8640000000000000.

Definition validTime (t : Z) : bool := Z.leb (Z.abs t) maxTime.

(** [TimeClip]: the date of a computed time value. *)
Definition timeClip (t : Z) : Date :=
  if validTime t then DateAt t else InvalidDate.

(** [d.getTime()]. *)
Definition getTime (d : Date) : number :=
  match d with
  | InvalidDate => NaN
  | DateAt t => of_Z t
  end.

(** Values of static type [any]. [VTimestamp r] is an object whose
    [toDate] property is a function, as a Firestore [Timestamp]: the call
    returns the date [d] when [r = Some d] and throws when [r = None].
    [VObject] is a plain object, by its own properties. *)
Inductive value : Type :=
| VUndefined
| VNull
| VBool (b : bool)
| VNumber (n : number)
| VString (s : string)
| VTimestamp (toDate : option Date)
| VDate (d : Date)
| VObject (props : list (string * value)).

Inductive jstype : Type :=
| TyUndefined | TyObject | TyBoolean | TyNumber | TyString.

(** [typeof v]. *)
Definition typeof (v : value) : jstype :=
  match v with
  | VUndefined => TyUndefined
  | VBool _ => TyBoolean
  | VNumber _ => TyNumber
  | VString _ => TyString
  | VNull | VTimestamp _ | VDate _ | VObject _ => TyObject
  end.

(** [typeof v === "number"], with the number when it holds. *)
Definition asNumber (v : value) : option number :=
  match v with VNumber n => Some n | _ => None end.

(** [ToBoolean v]: the falsy values are [undefined], [null], [false],
    zero, [NaN] and the empty string. *)
Definition truthy (v : value) : bool :=
  match v with
  | VUndefined | VNull => false
  | VBool b => b
  | VNumber (Fin x) => negb (bool_decide (x = 0)%R)
  | VNumber NaN => false
  | VNumber _ => true
  | VString s => nonEmpty s
  | VTimestamp _ | VDate _ | VObject _ => true
  end.

Fixpoint lookupProp (k : string) (props : list (string * value)) : value :=
  match props with
  | [] => VUndefined
  | (k', v) :: rest => if String.eqb k k' then v else lookupProp k rest
  end.

(** [v.k] for a data property [k] and a [v] that is neither [undefined]
    nor [null]: primitives, dates and timestamps carry no such property. *)
Definition getProp (v : value) (k : string) : value :=
  match v with
  | VObject props => lookupProp k props
  | _ => VUndefined
  end.

End JS.

(** ** [utils/geo]: distance and geocoding *)

Module Geo.
Import Num JS.

(** [type LatLng = { lat: number; lng: number }]. *)
Record LatLng : Type := mkLatLng { lat : number; lng : number }.

Section Distance.
Context {eng : Engine}.

(** Earth radius in miles: the literal [3958.7613]. *)
Definition R_earth : number := literal (39587613 / 10000)%R.

(** [const toRad = (x) => (x * Math.PI) / 180]. *)
Definition toRad (x : number) : number := div (mul x PI) (Fin 180).

(** [haversineMiles(a, b)], statement by statement. *)
Definition haversineMiles (a b : LatLng) : number :=
  let R := R_earth in
  let dLat := toRad (sub (lat b) (lat a)) in
  let dLng := toRad (sub (lng b) (lng a)) in
  let lat1 := toRad (lat a) in
  let lat2 := toRad (lat b) in
  let s1 := sin (div dLat (Fin 2)) in
  let s2 := sin (div dLng (Fin 2)) in
  let h := add (mul s1 s1) (mul (mul (mul (cos lat1) (cos lat2)) s2) s2) in
  let c := mul (Fin 2) (asin (min (Fin 1) (sqrt h))) in
  mul R c.

End Distance.

(** A settled promise. *)
Inductive outcome (A : Type) : Type :=
| Resolved (a : A)
| Rejected.
Arguments Resolved {A} a.
Arguments Rejected {A}.

(** One candidate of the geocoding service:
    [{ lat: string; lon: string }]. *)
Record Candidate : Type := mkCandidate { cand_lat : string; cand_lon : string }.

(** A [fetch] response: [res.ok], and [await res.json()] cast to
    [Array<{lat; lon}>]: the parse is rejected ([None]), yields [null]
    ([Some None]) or an array. *)
Record Response : Type := mkResponse {
  ok : bool;
  json : option (option (list Candidate))
}.

(** The browser around [geocodeZip]: the persistent storage and the log
    of the requests sent so far. [storageFull] makes [setItem] throw. *)
Record World : Type := mkWorld {
  localStorage : gmap string string;
  storageFull : bool;
  requests : list string
}.

Definition latLngValue (c : LatLng) : value :=
  VObject [("lat", VNumber (lat c)); ("lng", VNumber (lng c))].

(** Platform functions and the network, as the environment provides
    them. [hasWindow] is [typeof window !== "undefined"]; [storageThrows]
    holds when reading [window.localStorage] throws (the site may not use
    storage); [JSON_parse s = None] when [JSON.parse] throws;
    [Number_of_string] is [Number] on strings; [fetch url = None] when the
    request fails. *)
Record Platform : Type := mkPlatform {
  hasWindow : bool;
  storageThrows : bool;
  JSON_parse : string -> option value;
  JSON_stringify : value -> string;
  encodeURIComponent : string -> string;
  Number_of_string : string -> number;
  fetch : string -> option Response
}.

Definition nominatim : string :=
  "https://nominatim.openstreetmap.org/search?format=json&limit=1&countrycodes=us,ca&q=".

Section Geocoder.

Variable env : Platform.

(** [typeof window !== "undefined" ? window.localStorage.getItem(key) :
    null]: [None] when it throws, [Some None] for [null]. *)
Definition getItem (w : World) (key : string) : option (option string) :=
  if hasWindow env
  then (if storageThrows env then None else Some (localStorage w !! key))
  else Some None.

(** [window.localStorage.setItem(key, v)]; [None] when it throws. *)
Definition setItem (w : World) (key v : string) : option World :=
  if hasWindow env && negb (storageThrows env) && negb (storageFull w)
  then Some (mkWorld (<[key := v]> (localStorage w)) (storageFull w) (requests w))
  else None.

Definition logRequest (w : World) (url : string) : World :=
  mkWorld (localStorage w) (storageFull w) (requests w ++ [url]).

(** The cached branch: [if (cached) { try { return JSON.parse(cached) }
    catch {} }]. [Some v] when the function returns [v] there. *)
Definition cacheHit (cached : option string) : option value :=
  match cached with
  | Some c => if nonEmpty c then JSON_parse env c else None
  | None => None
  end.

(** [geocodeZip(zip)]: the settled result and the world after it. An
    exception of the storage read rejects the promise. *)
Definition geocodeZip (zip : string) (w : World) : outcome value * World :=
  let z := trim zip in
  if negb (nonEmpty z) then (Resolved VNull, w) else
  let key := String.append "zipgeo:" z in
  match getItem w key with
  | None => (Rejected, w)
  | Some cached =>
  match cacheHit cached with
  | Some v => (Resolved v, w)
  | None =>
      let url := String.append nominatim (encodeURIComponent env z) in
      let w1 := logRequest w url in
      match fetch env url with
      | None => (Rejected, w1)
      | Some res =>
          if negb (ok res) then (Resolved VNull, w1) else
          match json res with
          | None => (Rejected, w1)
          | Some None | Some (Some []) => (Resolved VNull, w1)
          | Some (Some (d0 :: _)) =>
              let lat := Number_of_string env (cand_lat d0) in
              let lng := Number_of_string env (cand_lon d0) in
              if negb (isFinite lat) || negb (isFinite lng)
              then (Resolved VNull, w1)
              else
                let coords := latLngValue (mkLatLng lat lng) in
                let w2 :=
                  match setItem w1 key (JSON_stringify env coords) with
                  | Some w' => w'
                  | None => w1
                  end in
                (Resolved coords, w2)
          end
      end
  end
  end.

End Geocoder.

End Geo.

(** ** [app/(site)/jobs/page.tsx]: the pure helpers *)

Module Jobs.
Import Num JS.

(** [type JobFeedItem]: an item is [{ id: d.id, ...d.data() }], so every
    field but the id holds whatever the document stores. The fields the
    code tests at run time ([typeof], [instanceof], truthiness) are
    [value]s, [standingOffer] among them. *)
Record JobFeedItem : Type := mkJob {
  id : string;
  userId : value;
  title : value;
  description : value;
  address : value;
  zip : value;
  tip : value;
  pay : value;
  standingOffer : value;
  endDate : value;
  creationDate : value;
  location : value;
  latitude : value;
  longitude : value;
  lat : value;
  lng : value
}.

(** [type SortMode]. *)
Inductive SortMode : Type := newest | tipHigh | tipLow | distance.

Definition PAGE_SIZE : nat := 25.

(** [normalize(s)]: [typeof s === "string" ? s.trim() : ""]. *)
Definition normalize (s : value) : string :=
  match s with
  | VString s => trim s
  | _ => ""
  end.

(** [tipOf(job)]: [t ?? p ?? 0] with [t] and [p] the two fields when they
    are numbers and [undefined] otherwise. *)
Definition tipOf (job : JobFeedItem) : number :=
  let t := asNumber (tip job) in
  let p := asNumber (pay job) in
  match t with
  | Some t => t
  | None => match p with Some p => p | None => Fin 0 end
  end.

(** [tsToDate(ts)]; [None] is [null]. A throwing [toDate] is caught. *)
Definition tsToDate (ts : value) : option Date :=
  if negb (truthy ts) then None
  else match ts with
       | VTimestamp r => r
       | VDate d => Some d
       | _ => None
       end.

Definition msPerDay : Z := 86400000.

(** The time zone of the browser: [localTime t] is [LocalTime(t)], the
    local time of the instant [t]; [utcOf l] is [UTC(l)], the instant of
    the local time [l]. Both follow the rules of the zone, daylight
    saving included. *)
Record Zone : Type := mkZone {
  localTime : Z -> Z;
  utcOf : Z -> Z
}.

(** The local calendar day of [t], counted from the epoch:
    [Day(LocalTime(t))]. *)
Definition calendarDay (zone : Zone) (t : Z) : Z :=
  localTime zone t / msPerDay.

(** The instant of the local midnight that starts the local day of [t]:
    [UTC(MakeDate(Day(LocalTime(t)), 0))]. *)
Definition startOfDay (zone : Zone) (t : Z) : Z :=
  utcOf zone (calendarDay zone t * msPerDay).

(** [d.setHours(0, 0, 0, 0)]: an invalid date stays invalid, and the new
    time value is clipped. *)
Definition setHoursZero (zone : Zone) (d : Date) : Date :=
  match d with
  | InvalidDate => InvalidDate
  | DateAt t => timeClip (startOfDay zone t)
  end.

(** [a >= b] on two dates, through their time values. *)
Definition dateGeb (a b : Date) : bool :=
  match a, b with
  | DateAt x, DateAt y => Z.leb y x
  | _, _ => false
  end.

Section Clock.

(** The time zone and the value of [new Date()], in milliseconds. *)
Variable zone : Zone.
Variable now : Z.

(** [isActive(job)]. *)
Definition isActive (job : JobFeedItem) : bool :=
  if truthy (standingOffer job) then true
  else
    match tsToDate (endDate job) with
    | None => true
    | Some d =>
        let today := setHoursZero zone (DateAt now) in
        let end_ := setHoursZero zone d in
        dateGeb end_ today
    end.

End Clock.

(** Two fields that are both of type [number], as a coordinate pair. *)
Definition bothNumbers (a b : value) : option Geo.LatLng :=
  match asNumber a, asNumber b with
  | Some la, Some lo => Some (Geo.mkLatLng la lo)
  | _, _ => None
  end.

(** [job.location && typeof job.location.a === "number" &&
    typeof job.location.b === "number"], with the pair when it holds. *)
Definition nestedNumbers (loc : value) (a b : string) : option Geo.LatLng :=
  if truthy loc then bothNumbers (getProp loc a) (getProp loc b) else None.

(** [jobCoords(job)]; [None] is [null]. *)
Definition jobCoords (job : JobFeedItem) : option Geo.LatLng :=
  match nestedNumbers (location job) "latitude" "longitude" with
  | Some c => Some c
  | None =>
      match nestedNumbers (location job) "lat" "lng" with
      | Some c => Some c
      | None =>
          match bothNumbers (latitude job) (longitude job) with
          | Some c => Some c
          | None =>
              match bothNumbers (lat job) (lng job) with
              | Some c => Some c
              | None => None
              end
          end
      end
  end.

(** The functional update of [fetchJobsPage("more")]:
    [seen] holds the ids of [prev]; every item of the page whose id is not
    in [seen] is pushed on a copy of [prev]. *)
Definition mergePage (prev items : list JobFeedItem) : list JobFeedItem :=
  let seen : gset string := list_to_set (map id prev) in
  let merged := prev in
  fold_left (fun merged it =>
               if bool_decide (id it ∈ seen) then merged else merged ++ [it])
            items merged.

(** ** The derived views: [computed], [stats], [visibleJobs] *)

Record Entry : Type := mkEntry {
  job : JobFeedItem;
  miles : option number;
  hasCoords : bool
}.

Section Computed.
Context {eng : Engine}.

(** [computed]: each job with its distance to the origin. *)
Definition computed (jobs : list JobFeedItem) (origin : option Geo.LatLng)
  : list Entry :=
  map (fun j =>
         let jc := jobCoords j in
         let miles :=
           match origin, jc with
           | Some o, Some c => Some (Geo.haversineMiles o c)
           | _, _ => None
           end in
         mkEntry j miles (match jc with Some _ => true | None => false end))
      jobs.

End Computed.

Record Stats : Type := mkStats {
  total : nat;
  haveCoords : nat;
  missingCoords : nat
}.

Definition stats (computed : list Entry) : Stats :=
  let total := length computed in
  let haveCoords := length (List.filter (fun x => hasCoords x) computed) in
  mkStats total haveCoords (total - haveCoords).

(** [tsToDate(x)?.getTime() ?? 0]. *)
Definition timeOrZero (ts : value) : number :=
  match tsToDate ts with
  | Some d => getTime d
  | None => Fin 0
  end.

(** [typeof x.miles === "number" ? x.miles : Number.POSITIVE_INFINITY]. *)
Definition milesOrInf (x : Entry) : number :=
  match miles x with
  | Some m => m
  | None => PosInf
  end.

Section Comparators.
Context {eng : Engine}.

(** The comparator of each sort mode. *)
Definition comparator (sort : SortMode) (a b : Entry) : number :=
  match sort with
  | newest =>
      let da := timeOrZero (creationDate (job a)) in
      let dbb := timeOrZero (creationDate (job b)) in
      sub dbb da
  | tipHigh => sub (tipOf (job b)) (tipOf (job a))
  | tipLow => sub (tipOf (job a)) (tipOf (job b))
  | distance =>
      let da := milesOrInf a in
      let dbb := milesOrInf b in
      sub da dbb
  end.

End Comparators.

(** The state the [visibleJobs] memo depends on, besides [computed]. *)
Record Controls : Type := mkControls {
  searchText : string;
  zipFilter : string;
  enableRadius : bool;
  origin : option Geo.LatLng;
  radiusMiles : number;
  sort : SortMode
}.

Section Feed.

Context {eng : Engine}.
Variable zone : Zone.
Variable now : Z.
Variable st : Controls.

Definition zipPass (z : string) (x : Entry) : bool :=
  bool_decide (normalize (zip (job x)) = z).

Definition textPass (s : string) (x : Entry) : bool :=
  let title := toLowerCase (normalize (title (job x))) in
  let desc := toLowerCase (normalize (description (job x))) in
  includes title s || includes desc s.

Definition radiusPass (x : Entry) : bool :=
  match miles x with
  | Some m => leb m (radiusMiles st)
  | None => false
  end.

(** The list before the sort. *)
Definition filtered (computed : list Entry) : list Entry :=
  let s := toLowerCase (normalize (VString (searchText st))) in
  let z := normalize (VString (zipFilter st)) in
  let list := List.filter (fun x => isActive zone now (job x)) computed in
  let list := if nonEmpty z then List.filter (zipPass z) list else list in
  let list := if nonEmpty s then List.filter (textPass s) list else list in
  let list :=
    if enableRadius st then
      match origin st with
      | None => []
      | Some _ => List.filter radiusPass list
      end
    else list in
  list.

(** [visibleJobs]. *)
Definition visibleJobs (computed : list Entry) : list Entry :=
  let copy := filtered computed in
  array_sort (comparator (sort st)) copy.

(** The feed of a job list: [visibleJobs] of [computed]. *)
Definition feed (jobs : list JobFeedItem) : list Entry :=
  visibleJobs (computed jobs (origin st)).

End Feed.

End Jobs.

(** ** [JobsPage]: the page loads as a transition system

    [fetchJobsPage] runs up to [await getDocs(q)], and resumes when the
    query settles. Between the two, other handlers may run. A call in
    flight is a [Task]; the events are the mount of the page, the cleanup
    of its effect, the two buttons, and the settling of a query. *)

Module Page.
Import Jobs.

Inductive Mode : Type := reset | more.

(** A document snapshot [d]: its id [d.id]; the fields [d.data()], whose
    [id] component is not read; and the value of an [id] field stored among
    them, when there is one. *)
Record Doc : Type := mkDoc {
  docId : string;
  dataId : option string;
  data : JobFeedItem
}.

Definition setId (i : string) (j : JobFeedItem) : JobFeedItem :=
  mkJob i (userId j) (title j) (description j) (address j) (zip j) (tip j)
        (pay j) (standingOffer j) (endDate j) (creationDate j) (location j)
        (latitude j) (longitude j) (lat j) (lng j).

(** [{ id: d.id, ...d.data() }]: a stored [id] field overrides [d.id]. *)
Definition itemOf (d : Doc) : JobFeedItem :=
  setId (match dataId d with Some i => i | None => docId d end) (data d).

(** What awaits the call: the mount effect with its captured [cancelled]
    variable, [onRefresh], or the handler of the load-more button. *)
Inductive Caller : Type :=
| FromEffect (cancelled : bool)
| FromRefresh
| FromLoadMore.

Record Task : Type := mkTask {
  mode : Mode;
  cursor : option Doc;
  caller : Caller
}.

(** The result of [getDocs]: the documents, or a rejection with its
    optional message. *)
Inductive Settled : Type :=
| Docs (docs : list Doc)
| Failed (message : option string).

Record State : Type := mkState {
  jobs : list JobFeedItem;
  loading : bool;
  refreshing : bool;
  error : option string;
  snack : option string;
  lastDocRef : option Doc;
  hasMore : bool;
  loadingMore : bool;
  pending : gmap nat Task;
  nextTask : nat
}.

(** The state of the first render. *)
Definition initial : State :=
  mkState [] true false None None None true false ∅ 0.

Definition isReset (m : Mode) : bool :=
  match m with reset => true | more => false end.

(** [fetchJobsPage(mode)] up to the [await]: the state it leaves and the
    cursor of the query it sends. *)
Definition fetchStart (m : Mode) (s : State) : State * option Doc :=
  let error' := None in
  let hasMore' := if isReset m then true else hasMore s in
  let lastDoc' := if isReset m then None else lastDocRef s in
  let cursor := if isReset m then None else lastDoc' in
  (mkState (jobs s) (loading s) (refreshing s) error' (snack s) lastDoc'
           hasMore' (loadingMore s) (pending s) (nextTask s),
   cursor).

(** [fetchJobsPage(mode)] from the [await] on. *)
Definition fetchResume (m : Mode) (r : Settled) (s : State) : State :=
  match r with
  | Docs docs =>
      let items := map itemOf docs in
      let lastDoc' :=
        match last docs with
        | Some d => Some d
        | None => lastDocRef s
        end in
      let hasMore' := Nat.eqb (length docs) PAGE_SIZE in
      let jobs' := if isReset m then items else mergePage (jobs s) items in
      mkState jobs' (loading s) (refreshing s) (error s) (snack s) lastDoc'
              hasMore' (loadingMore s) (pending s) (nextTask s)
  | Failed message =>
      let msg := match message with
                 | Some e => e
                 | None => "Failed to load jobs."
                 end in
      mkState (jobs s) (loading s) (refreshing s) (Some msg) (snack s)
              (lastDocRef s) (hasMore s) (loadingMore s) (pending s)
              (nextTask s)
  end.

(** What the caller does once its [await fetchJobsPage(...)] returns. *)
Definition afterFetch (c : Caller) (s : State) : State :=
  match c with
  | FromEffect cancelled =>
      mkState (jobs s) (if cancelled then loading s else false) (refreshing s)
              (error s) (snack s) (lastDocRef s) (hasMore s) (loadingMore s)
              (pending s) (nextTask s)
  | FromRefresh =>
      mkState (jobs s) (loading s) false (error s) (Some "Updated.")
              (lastDocRef s) (hasMore s) (loadingMore s) (pending s)
              (nextTask s)
  | FromLoadMore =>
      mkState (jobs s) (loading s) (refreshing s) (error s) (snack s)
              (lastDocRef s) (hasMore s) false (pending s) (nextTask s)
  end.

Definition setPending (p : gmap nat Task) (n : nat) (s : State) : State :=
  mkState (jobs s) (loading s) (refreshing s) (error s) (snack s)
          (lastDocRef s) (hasMore s) (loadingMore s) p n.

(** A handler sets its busy flag, calls [fetchJobsPage] and waits. *)
Definition launch (m : Mode) (c : Caller) (s : State) : State :=
  let '(s1, cur) := fetchStart m s in
  setPending (<[nextTask s := mkTask m cur c]> (pending s)) (S (nextTask s)) s1.

Definition setLoading (b : bool) (s : State) : State :=
  mkState (jobs s) b (refreshing s) (error s) (snack s) (lastDocRef s)
          (hasMore s) (loadingMore s) (pending s) (nextTask s).

Definition setRefreshing (b : bool) (s : State) : State :=
  mkState (jobs s) (loading s) b (error s) (snack s) (lastDocRef s)
          (hasMore s) (loadingMore s) (pending s) (nextTask s).

Definition setLoadingMore (b : bool) (s : State) : State :=
  mkState (jobs s) (loading s) (refreshing s) (error s) (snack s)
          (lastDocRef s) (hasMore s) b (pending s) (nextTask s).

Inductive Event : Type :=
| Mount
| Cleanup (tid : nat)
| ClickRefresh
| ClickLoadMore
| Settle (tid : nat) (r : Settled).

(** One event; [None] when the page does not offer it. The refresh button
    is disabled while [refreshing]; the load-more button is rendered when
    the list is shown and [hasMore], and disabled while [loadingMore]. *)
Definition step (e : Event) (s : State) : option State :=
  match e with
  | Mount => Some (launch reset (FromEffect false) (setLoading true s))
  | Cleanup tid =>
      match pending s !! tid with
      | Some (mkTask m cur (FromEffect _)) =>
          Some (setPending (<[tid := mkTask m cur (FromEffect true)]> (pending s))
                           (nextTask s) s)
      | _ => None
      end
  | ClickRefresh =>
      if refreshing s then None
      else Some (launch reset FromRefresh (setRefreshing true s))
  | ClickLoadMore =>
      if negb (loading s) && hasMore s && negb (loadingMore s)
      then Some (launch more FromLoadMore (setLoadingMore true s))
      else None
  | Settle tid r =>
      match pending s !! tid with
      | Some t =>
          let s1 := fetchResume (mode t) r s in
          let s2 := afterFetch (caller t) s1 in
          Some (setPending (delete tid (pending s)) (nextTask s) s2)
      | None => None
      end
  end.

(** A sequence of events, from the left. *)
Fixpoint run (es : list Event) (s : State) : option State :=
  match es with
  | [] => Some s
  | e :: es' =>
      match step e s with
      | Some s' => run es' s'
      | None => None
      end
  end.

End Page.

(** ** [JobsPage]: the two origin handlers

    [useBrowserLocation] and [useZipLocation] of
    [app/(site)/jobs/page.tsx]. Both buttons are disabled while
    [originBusy], so one handler runs from its call to the end of its
    [finally] block without the other starting. *)

Module OriginPanel.
Import JS Jobs.

(** ["geo" | "zip"]. *)
Inductive OriginSource : Type := geo | zip.

(** The origin state of the page. [origin] holds [null] or what a handler
    stored, as a value; [snack] is the message of the open snackbar. *)
Record State : Type := mkState {
  origin : value;
  originSource : option OriginSource;
  originZip : string;
  originBusy : bool;
  snack : option string
}.

(** What [navigator.geolocation.getCurrentPosition] reports: the
    coordinates of a position, or an error with its message. *)
Inductive Located : Type :=
| Position (latitude longitude : Num.number)
| PositionError (message : option string).

Definition setSnack (msg : string) (s : State) : State :=
  mkState (origin s) (originSource s) (originZip s) (originBusy s) (Some msg).

Definition setOriginBusy (b : bool) (s : State) : State :=
  mkState (origin s) (originSource s) (originZip s) b (snack s).

Definition setOrigin (c : value) (src : OriginSource) (s : State) : State :=
  mkState c (Some src) (originZip s) (originBusy s) (snack s).

(** [e?.message ?? fallback]. *)
Definition messageOr (message : option string) (fallback : string) : string :=
  match message with
  | Some m => m
  | None => fallback
  end.

(** [useBrowserLocation()]. [geolocation = None] when
    [navigator.geolocation] is missing. *)
Definition useBrowserLocation (geolocation : option Located) (s : State)
  : State :=
  let s := setOriginBusy true s in
  let pos :=
    match geolocation with
    | None => PositionError (Some "Geolocation not supported.")
    | Some r => r
    end in
  let s :=
    match pos with
    | Position la lo =>
        let coords := Geo.latLngValue (Geo.mkLatLng la lo) in
        setSnack "Using your location." (setOrigin coords geo s)
    | PositionError message =>
        setSnack (messageOr message "Could not get location.") s
    end in
  setOriginBusy false s.

(** [useZipLocation()], with the world [geocodeZip] acts on.
    [rejection] is the message of the error a rejected lookup carries. *)
Definition useZipLocation (env : Geo.Platform) (rejection : option string)
  (s : State) (w : Geo.World) : State * Geo.World :=
  let z := normalize (VString (originZip s)) in
  if negb (nonEmpty z) then (setSnack "Enter a ZIP first." s, w)
  else
    let s := setOriginBusy true s in
    match Geo.geocodeZip env z w with
    | (Geo.Resolved coords, w') =>
        if negb (truthy coords)
        then (setOriginBusy false (setSnack "Could not find that ZIP." s), w')
        else (setOriginBusy false
                (setSnack "Using ZIP location." (setOrigin coords zip s)),
              w')
    | (Geo.Rejected, w') =>
        (setOriginBusy false
           (setSnack (messageOr rejection "ZIP lookup failed.") s),
         w')
    end.

(** The origin state of a freshly mounted page. *)
Definition initial : State := mkState VNull None "" false None.

(** [setOriginZip(e.target.value)]. *)
Definition setOriginZip (text : string) (s : State) : State :=
  mkState (origin s) (originSource s) text (originBusy s) (snack s).

(** What the user does in the distance panel. Both buttons are
    [disabled={originBusy}], so a handler has run to its end before the
    next click is taken; text typed meanwhile does not reach the running
    handler, which read [originZip] when it started. *)
Inductive Event : Type :=
| TypeZip (text : string)
| ClickUseMyLocation (geolocation : option Located)
| ClickUseZip (rejection : option string).

(** One event; a click on a disabled button does nothing. *)
Definition step (env : Geo.Platform) (e : Event) (sw : State * Geo.World)
  : State * Geo.World :=
  let (s, w) := sw in
  match e with
  | TypeZip text => (setOriginZip text s, w)
  | ClickUseMyLocation geolocation =>
      if originBusy s then (s, w) else (useBrowserLocation geolocation s, w)
  | ClickUseZip rejection =>
      if originBusy s then (s, w) else useZipLocation env rejection s w
  end.

Definition run (env : Geo.Platform) (es : list Event)
  (sw : State * Geo.World) : State * Geo.World :=
  fold_left (fun sw e => step env e sw) es sw.

End OriginPanel.

(** ** [NewJobPage]: the form that posts a job

    [validate] and the document [onSubmit] writes, from
    [app/(site)/jobs/new/page.tsx], the caller of [geocodeZip].
    [readItem] is the object [{ id: d.id, ...d.data() }] the feed builds
    from a stored document, at the type [JobFeedItem]. *)

Module NewJob.
Import Num JS Jobs.

(** [isNonEmpty(s)]: a string that is not blank. *)
Definition isNonEmpty (s : value) : bool :=
  match s with
  | VString s => nonEmpty (trim s)
  | _ => false
  end.

(** The state of the form; [canPost] is [profileStatus.state === "ok"]. *)
Record Form : Type := mkForm {
  canPost : bool;
  title : string;
  description : string;
  address : string;
  zip : string;
  contactEmail : string;
  contactPhone : string;
  tipText : string;
  standingOffer : bool;
  endDate : string
}.

(** [a < b] on two dates, through their time values. *)
Definition dateLtb (a b : Date) : bool :=
  match a, b with
  | DateAt x, DateAt y => Z.ltb x y
  | _, _ => false
  end.

Section Posting.

(** The platform, [new Date(text)], the time zone, the value of
    [new Date()], and [addDoc] on the jobs collection: the id of the
    document written, [None] when it rejects. *)
Variable env : Geo.Platform.
Variable parseDate : string -> Date.
Variable zone : Zone.
Variable now : Z.
Variable addDoc : list (string * value) -> option string.

(** [tipValue]: [Number(tipText)]. *)
Definition tipValue (f : Form) : number :=
  Geo.Number_of_string env (tipText f).

(** [new Date(endDate + "T00:00:00")]. *)
Definition chosen (f : Form) : Date :=
  parseDate (String.append (endDate f) "T00:00:00").

(** [validate()]; [None] is [null]. *)
Definition validate (f : Form) : option string :=
  if negb (canPost f)
  then Some "Please complete your Profile before posting a job."
  else if negb (nonEmpty (trim (title f))) then Some "Title is required."
  else if negb (nonEmpty (trim (address f))) then Some "Address is required."
  else if negb (nonEmpty (trim (zip f))) then Some "ZIP is required."
  else
    let email := trim (contactEmail f) in
    let phone := trim (contactPhone f) in
    if negb (nonEmpty email) && negb (nonEmpty phone)
    then Some "Please provide at least one contact method: email or phone."
    else if negb (nonEmpty (trim (tipText f))) then Some "Tip is required."
    else if isNaN (tipValue f) then Some "Tip must be a number."
    else if leb (tipValue f) (Fin 0) then Some "Tip must be greater than 0."
    else if negb (standingOffer f) then
      if negb (nonEmpty (endDate f))
      then Some "Choose an End Date or enable Standing Offer."
      else
        let today := setHoursZero zone (DateAt now) in
        if dateLtb (chosen f) today
        then Some "End Date cannot be in the past."
        else None
    else None.

(** [Timestamp.fromDate(d)], as the document holds it: a timestamp whose
    [toDate()] is the date [d], for a valid date [d]. *)
Definition fromDate (d : Date) : value := VTimestamp (Some d).

(** The document [onSubmit] passes to [addDoc], as its fields in order.
    [coords] is what [geocodeZip(zip.trim())] resolved to, [created] the
    time [serverTimestamp()] stands for. *)
Definition jobDocument (uid : string) (coords : value) (created : Date)
  (f : Form) : list (string * value) :=
  let endDateTs :=
    if standingOffer f then VNull else fromDate (chosen f) in
  [("userId", VString uid);
   ("title", VString (trim (title f)));
   ("description", VString (trim (description f)));
   ("address", VString (trim (address f)));
   ("zip", VString (trim (zip f)))]
  ++ (if nonEmpty (trim (contactEmail f))
      then [("contactEmail", VString (trim (contactEmail f)))] else [])
  ++ (if nonEmpty (trim (contactPhone f))
      then [("contactPhone", VString (trim (contactPhone f)))] else [])
  ++ (if truthy coords
      then [("location",
             VObject [("lat", getProp coords "lat");
                      ("lng", getProp coords "lng")])]
      else [])
  ++ [("tip", VNumber (tipValue f));
      ("standingOffer", VBool (standingOffer f));
      ("endDate", endDateTs);
      ("creationDate", fromDate created)].

(** What [onSubmit] ends in: the form error it shows, the document it
    wrote with the id [addDoc] gave it, or the failure snackbar. *)
Inductive Submitted : Type :=
| FormError (msg : string)
| Posted (docId : string) (fields : list (string * value))
| Failed.

(** [onSubmit(e)], with the world [geocodeZip] acts on. *)
Definition onSubmit (uid : string) (created : Date) (f : Form)
  (w : Geo.World) : Submitted * Geo.World :=
  match validate f with
  | Some err => (FormError err, w)
  | None =>
      match Geo.geocodeZip env (trim (zip f)) w with
      | (Geo.Resolved coords, w') =>
          let fields := jobDocument uid coords created f in
          match addDoc fields with
          | Some docId => (Posted docId fields, w')
          | None => (Failed, w')
          end
      | (Geo.Rejected, w') => (Failed, w')
      end
  end.

End Posting.

(** [{ id: d.id, ...d.data() }] for a document of id [docId] and fields
    [fields], at the type [JobFeedItem]: a stored string [id] overrides the
    document id. [None] for a document that stores an [id] which is no
    string: its item is none of the type. *)
Definition readItem (docId : string) (fields : list (string * value))
  : option JobFeedItem :=
  let item i :=
    mkJob i
          (lookupProp "userId" fields) (lookupProp "title" fields)
          (lookupProp "description" fields) (lookupProp "address" fields)
          (lookupProp "zip" fields) (lookupProp "tip" fields)
          (lookupProp "pay" fields) (lookupProp "standingOffer" fields)
          (lookupProp "endDate" fields) (lookupProp "creationDate" fields)
          (lookupProp "location" fields) (lookupProp "latitude" fields)
          (lookupProp "longitude" fields) (lookupProp "lat" fields)
          (lookupProp "lng" fields) in
  match lookupProp "id" fields with
  | VString i => Some (item i)
  | VUndefined => Some (item docId)
  | _ => None
  end.

End NewJob.

(** ** The vocabulary of the specification *)

Module Spec.
Import Num JS Jobs.

(** *** Sample records *)

(** A record with the given [tip] and [pay] fields, the others unset. *)
Definition jobWithTip (t p : value) : JobFeedItem :=
  mkJob "j" VUndefined VUndefined VUndefined VUndefined VUndefined t p
        VUndefined VUndefined VUndefined VUndefined VUndefined VUndefined
        VUndefined VUndefined.

(** A record with the given nested location and top-level [lat]/[lng]. *)
Definition jobWithCoords (loc la lo : value) : JobFeedItem :=
  mkJob "j" VUndefined VUndefined VUndefined VUndefined VUndefined VUndefined
        VUndefined VUndefined VUndefined VUndefined loc VUndefined VUndefined
        la lo.

(** A nested [{latitude: NaN, longitude: 5}] beside top-level
    [lat = 1], [lng = 2]. *)
Definition nanNestedJob : JobFeedItem :=
  jobWithCoords
    (VObject [("latitude", VNumber NaN); ("longitude", VNumber (Fin 5))])
    (VNumber (Fin 1)) (VNumber (Fin 2)).

(** A record with the given [standingOffer] and [endDate], the other
    fields unset. *)
Definition jobWithEnd (so : value) (e : value) : JobFeedItem :=
  mkJob "j" VUndefined VUndefined VUndefined VUndefined VUndefined VUndefined
        VUndefined so e VUndefined VUndefined VUndefined VUndefined VUndefined
        VUndefined.

(** The record [job] with its [endDate] replaced. *)
Definition withEndDate (e : value) (job : JobFeedItem) : JobFeedItem :=
  mkJob (id job) (userId job) (title job) (description job) (address job)
        (zip job) (tip job) (pay job) (standingOffer job) e
        (creationDate job) (location job) (latitude job) (longitude job)
        (lat job) (lng job).

(** A record with the given id and numeric tip, the other fields unset. *)
Definition jobWithId (i : string) (t : R) : JobFeedItem :=
  mkJob i VUndefined VUndefined VUndefined VUndefined VUndefined
        (VNumber (Fin t)) VUndefined VUndefined VUndefined VUndefined
        VUndefined VUndefined VUndefined VUndefined VUndefined.

(** An entry of the given tip, creation date and distance. *)
Definition entryOf (i : string) (t : number) (created : value)
  (m : option number) : Entry :=
  mkEntry (mkJob i VUndefined VUndefined VUndefined VUndefined VUndefined
                 (VNumber t) VUndefined VUndefined VUndefined created
                 VUndefined VUndefined VUndefined VUndefined VUndefined)
          m (match m with Some _ => true | None => false end).

Definition entryWith (i : string) (t : R) (created : value)
  (m : option number) : Entry :=
  entryOf i (Fin t) created m.

(** A point in New York, and a record located there. *)
Definition nearOrigin : Geo.LatLng := Geo.mkLatLng (Fin 40) (Fin (-74)).

Definition nearJob : JobFeedItem :=
  jobWithCoords
    (VObject [("lat", VNumber (Fin 40)); ("lng", VNumber (Fin (-74)))])
    VUndefined VUndefined.

(** *** Coordinate shapes *)

(** The four coordinate shapes of a record, in their precedence order. *)
Inductive Shape : Type :=
| NestedLatitudeLongitude
| NestedLatLng
| TopLatitudeLongitude
| TopLatLng.

Definition precedence : list Shape :=
  [NestedLatitudeLongitude; NestedLatLng; TopLatitudeLongitude; TopLatLng].

(** A field of the nested location object, [undefined] without one. *)
Definition nestedField (loc : value) (k : string) : value :=
  if truthy loc then getProp loc k else VUndefined.

(** The two fields a shape reads. *)
Definition shapeFields (sh : Shape) (job : JobFeedItem) : value * value :=
  match sh with
  | NestedLatitudeLongitude =>
      (nestedField (location job) "latitude",
       nestedField (location job) "longitude")
  | NestedLatLng =>
      (nestedField (location job) "lat", nestedField (location job) "lng")
  | TopLatitudeLongitude => (latitude job, longitude job)
  | TopLatLng => (lat job, lng job)
  end.

(** A shape type-checks when both fields are of type [number]. *)
Definition typechecks (p : value * value) : Prop :=
  typeof (fst p) = TyNumber /\ typeof (snd p) = TyNumber.

Definition isNumber (v : value) : bool :=
  match v with VNumber _ => true | _ => false end.

Definition isFiniteNumber (v : value) : bool :=
  match v with VNumber n => isFinite n | _ => false end.

(** The pair a shape yields under the field test [ok]. *)
Definition readShape (ok : value -> bool) (sh : Shape) (job : JobFeedItem)
  : option Geo.LatLng :=
  let '(a, b) := shapeFields sh job in
  if ok a && ok b then bothNumbers a b else None.

Fixpoint firstShape (ok : value -> bool) (shapes : list Shape)
  (job : JobFeedItem) : option Geo.LatLng :=
  match shapes with
  | [] => None
  | sh :: rest =>
      match readShape ok sh job with
      | Some c => Some c
      | None => firstShape ok rest job
      end
  end.

(** The extractor in the words of the specification: the first shape, in
    precedence order, whose two fields are finite numbers. *)
Definition extractCoords (job : JobFeedItem) : option Geo.LatLng :=
  firstShape isFiniteNumber precedence job.

(** *** Activity *)

(** "Absent": the field is [undefined] or [null]. *)
Definition absent (v : value) : Prop := v = VUndefined \/ v = VNull.

(** The point in time a field denotes, when it is a timestamp or a date
    with a valid time value. *)
Definition pointInTime (v : value) : option Z :=
  match v with
  | VTimestamp (Some (DateAt t)) | VDate (DateAt t) => Some t
  | _ => None
  end.

(** "Active" in the words of the specification: a standing offer, or no
    end date, or an end date whose calendar day is not before today's. *)
Definition activeAsStated (zone : Zone) (now : Z) (job : JobFeedItem) : Prop :=
  standingOffer job = VBool true
  \/ absent (endDate job)
  \/ exists t, pointInTime (endDate job) = Some t
               /\ (calendarDay zone now <= calendarDay zone t)%Z.

(** *** Time zones *)

(** A zone that keeps one offset from UTC, [tza] milliseconds ahead. *)
Definition fixedZone (tza : Z) : Zone :=
  mkZone (fun t => t + tza) (fun l => l - tza).

(** The zone of New York around the end of daylight saving time in 2023:
    four hours behind UTC up to 5 November 2023, 06:00 UTC, five hours
    behind from then on. A local time that occurs twice is read as the
    earlier instant. *)
Definition eastern2023 : Zone :=
  mkZone (fun t => if Z.ltb t 1699164000000 then t - 14400000 else t - 18000000)
         (fun l => if Z.ltb l 1699149600000 then l + 14400000 else l + 18000000).

(** Later local days start later. *)
Definition midnightsAscend (zone : Zone) : Prop :=
  forall s t, calendarDay zone s < calendarDay zone t ->
              startOfDay zone s < startOfDay zone t.

(** The local day never goes back. *)
Definition daysAscend (zone : Zone) : Prop :=
  forall s t, s <= t -> calendarDay zone s <= calendarDay zone t.

(** The start of a local day lies in that day. *)
Definition midnightInDay (zone : Zone) : Prop :=
  forall t, calendarDay zone (startOfDay zone t) = calendarDay zone t.

(** A zone whose local days follow one another. *)
Definition regular (zone : Zone) : Prop :=
  midnightsAscend zone /\ daysAscend zone /\ midnightInDay zone.

(** The local day of [t] starts at a valid time value. *)
Definition validDay (zone : Zone) (t : Z) : Prop :=
  validTime (startOfDay zone t) = true.

(** *** Feed controls *)

(** The controls of the first render, for a given origin and sort mode:
    no search text, no ZIP filter, radius filter off at 10 miles. *)
Definition plainControls (origin : option Geo.LatLng) (sort : SortMode)
  : Controls :=
  mkControls "" "" false origin (Fin 10) sort.

(** The controls [st] with the radius filter switched on or off. *)
Definition withRadius (on : bool) (st : Controls) : Controls :=
  mkControls (searchText st) (zipFilter st) on (origin st) (radiusMiles st)
             (sort st).

(** *** Merge *)

(** The id of [it] is not among the ids of [prev]. *)
Definition unseen (prev : list JobFeedItem) (it : JobFeedItem) : bool :=
  negb (existsb (String.eqb (id it)) (map id prev)).

(** The document of id [i] holding the record [jobWithId i t]. *)
Definition docWithId (i : string) (t : R) : Page.Doc :=
  Page.mkDoc i None (jobWithId i t).

(** A document whose data carry an [id] field of their own. *)
Definition docWithStoredId (i stored : string) (t : R) : Page.Doc :=
  Page.mkDoc i (Some stored) (jobWithId i t).

(** *** Distance *)

(** The great-circle (haversine) formula over the reals, in the words of
    the specification: the haversine term of two points in degrees, with
    [Math.PI] for pi, and the distance on a sphere of radius [3958.7613],
    the square root being capped at [1] before the inverse sine. *)
Definition earthRadius : R := (39587613 / 10000)%R.

Definition rad (x : R) : R := (x * pi64 / 180)%R.

Definition haversine_term (lat_a lng_a lat_b lng_b : R) : R :=
  (Rsqr (Rtrigo_def.sin (rad (lat_b - lat_a) / 2))
   + Rtrigo_def.cos (rad lat_a) * Rtrigo_def.cos (rad lat_b)
     * Rsqr (Rtrigo_def.sin (rad (lng_b - lng_a) / 2)))%R.

Definition clamped_root (lat_a lng_a lat_b lng_b : R) : R :=
  Rmin 1 (R_sqrt.sqrt (haversine_term lat_a lng_a lat_b lng_b)).

Definition great_circle_miles (lat_a lng_a lat_b lng_b : R) : R :=
  (earthRadius * (2 * Ratan.asin (clamped_root lat_a lng_a lat_b lng_b)))%R.

Section DistanceTerms.
Context {eng : Engine}.

(** The sum [h] of [haversineMiles]. *)
Definition haversineSum (a b : Geo.LatLng) : number :=
  let dLat := Geo.toRad (sub (Geo.lat b) (Geo.lat a)) in
  let dLng := Geo.toRad (sub (Geo.lng b) (Geo.lng a)) in
  let lat1 := Geo.toRad (Geo.lat a) in
  let lat2 := Geo.toRad (Geo.lat b) in
  let s1 := sin (div dLat (Fin 2)) in
  let s2 := sin (div dLng (Fin 2)) in
  add (mul s1 s1) (mul (mul (mul (cos lat1) (cos lat2)) s2) s2).

(** The argument [haversineMiles] passes to [Math.asin]:
    [Math.min(1, Math.sqrt(h))]. *)
Definition asinArgument (a b : Geo.LatLng) : number :=
  min (Fin 1) (sqrt (haversineSum a b)).

End DistanceTerms.

(** A coordinate pair of finite numbers. *)
Definition finiteLatLng (a : Geo.LatLng) : Prop :=
  isFinite (Geo.lat a) = true /\ isFinite (Geo.lng a) = true.

(** A number of up to [10^15] in magnitude. *)
Definition ordinary (x : R) : Prop := (Rabs x <= 1000000000000000)%R.

(** A point whose latitude is [NaN]. *)
Definition nowhere : Geo.LatLng := Geo.mkLatLng NaN (Fin 0).

(** *** Sort order *)

(** The keys in the words of the specification. The creation time of a
    record: the time value of its [creationDate], zero for a missing
    date. *)
Definition creationTime (v : value) : number :=
  match v with
  | VTimestamp (Some d) | VDate d => getTime d
  | _ => Fin 0
  end.

(** The resolved tip: the [tip], else the [pay], else zero. *)
Definition resolvedTip (j : JobFeedItem) : number :=
  match tip j with
  | VNumber t => t
  | _ => match pay j with
         | VNumber p => p
         | _ => Fin 0
         end
  end.

(** The computed distance, positive infinity without one. *)
Definition distanceKey (x : Entry) : number :=
  match miles x with
  | Some m => m
  | None => PosInf
  end.

(** The key each sort mode orders by. *)
Definition sortKey (sort : SortMode) (x : Entry) : number :=
  match sort with
  | newest => creationTime (creationDate (job x))
  | tipHigh | tipLow => resolvedTip (job x)
  | distance => distanceKey x
  end.

(** The order of two entries under a sort mode: [a] may come before [b].
    [newest] and [tipHigh] are descending in the key, [tipLow] and
    [distance] ascending. *)
Definition inOrder (sort : SortMode) (a b : Entry) : Prop :=
  match sort with
  | newest | tipHigh => leb (sortKey sort b) (sortKey sort a) = true
  | tipLow | distance => leb (sortKey sort a) (sortKey sort b) = true
  end.

(** No key of the list is [NaN]. *)
Definition comparableKeys (sort : SortMode) (l : list Entry) : Prop :=
  Forall (fun x => isNaN (sortKey sort x) = false) l.

(** Two entries, the first with a [NaN] tip. *)
Definition nanTipEntries : list Entry :=
  [entryOf "a" NaN VUndefined None; entryOf "b" (Fin 1) VUndefined None].

(** *** Geocoder *)

(** The storage key of a ZIP. *)
Definition cacheKey (zip : string) : string :=
  String.append "zipgeo:" (trim zip).

(** The lookup URL of a ZIP. *)
Definition lookupUrl (env : Geo.Platform) (zip : string) : string :=
  String.append Geo.nominatim (Geo.encodeURIComponent env (trim zip)).

(** The world after the calls of [geocodeZip] on [zips], one after the
    other. *)
Definition runCalls (env : Geo.Platform) (zips : list string)
  (w : Geo.World) : Geo.World :=
  fold_left (fun w z => snd (Geo.geocodeZip env z w)) zips w.

(** The coordinates the service can deliver: a pair of finite numbers
    read off two texts. *)
Definition deliverable (env : Geo.Platform) (c : Geo.LatLng) : Prop :=
  finiteLatLng c
  /\ exists la lo, c = Geo.mkLatLng (Geo.Number_of_string env la)
                                    (Geo.Number_of_string env lo).

(** [JSON.stringify] writes deliverable coordinates as a text that is not
    empty and that [JSON.parse] reads back as the same coordinates. *)
Definition jsonRoundTrip (env : Geo.Platform) : Prop :=
  forall c, deliverable env c ->
    Geo.JSON_stringify env (Geo.latLngValue c) <> ""
    /\ Geo.JSON_parse env (Geo.JSON_stringify env (Geo.latLngValue c))
       = Some (Geo.latLngValue c).

(** Every entry of the storage is what [geocodeZip] writes: under the
    key of a ZIP that is not blank, the text of deliverable coordinates,
    in a browser whose storage can be used. *)
Definition geocoderWritten (env : Geo.Platform) (w : Geo.World) : Prop :=
  forall k v, Geo.localStorage w !! k = Some v ->
    Geo.hasWindow env = true /\ Geo.storageThrows env = false
    /\ exists z c, k = cacheKey z /\ trim z <> ""
                   /\ deliverable env c
                   /\ v = Geo.JSON_stringify env (Geo.latLngValue c).



(** A platform whose service knows one place and whose JSON functions
    agree on it. *)
Definition onePlace : Geo.Platform :=
  Geo.mkPlatform true false
    (fun s => if String.eqb s "place"
              then Some (Geo.latLngValue nearOrigin) else None)
    (fun _ => "place") (fun s => s)
    (fun s => if String.eqb s "40" then Fin 40 else Fin (-74))
    (fun _ => Some (Geo.mkResponse true
                      (Some (Some [Geo.mkCandidate "40" "-74"])))).

(** A platform that reads every text as the number 40; its service and
    its JSON functions know the one point of these coordinates. *)
Definition oneNumber : Geo.Platform :=
  Geo.mkPlatform true false
    (fun s => if String.eqb s "place"
              then Some (Geo.latLngValue (Geo.mkLatLng (Fin 40) (Fin 40)))
              else None)
    (fun _ => "place") (fun s => s)
    (fun _ => Fin 40)
    (fun _ => Some (Geo.mkResponse true
                      (Some (Some [Geo.mkCandidate "40" "40"])))).

(** An empty storage and no request yet. *)
Definition freshWorld : Geo.World := Geo.mkWorld ∅ false [].

(** The world [w] with its storage full or not. *)
Definition withStorageFull (b : bool) (w : Geo.World) : Geo.World :=
  Geo.mkWorld (Geo.localStorage w) b (Geo.requests w).

(** *** Page loads *)

(** "A superseded response never overwrites the feed state produced by a
    later request", on the transition system: once the later of two
    pending loads has settled, the settling of the earlier one leaves the
    job list as it is. Task numbers grow with the time of the call. *)
Definition supersededResponseDropped : Prop :=
  forall s told tnew taskOld taskNew pageNew pageOld s1 s2,
    (told < tnew)%nat ->
    Page.pending s !! told = Some taskOld ->
    Page.pending s !! tnew = Some taskNew ->
    Page.step (Page.Settle tnew (Page.Docs pageNew)) s = Some s1 ->
    Page.step (Page.Settle told (Page.Docs pageOld)) s1 = Some s2 ->
    Page.jobs s2 = Page.jobs s1.

(** The first load of the page is still in flight when the user
    refreshes; the refresh is answered first, then the first load. *)
Definition slowFirstLoad (pageOld pageNew : list Page.Doc)
  : list Page.Event :=
  [Page.Mount; Page.ClickRefresh;
   Page.Settle 1 (Page.Docs pageNew); Page.Settle 0 (Page.Docs pageOld)].

(** The page after its mount and the cleanup of the mount effect: the
    first load is in flight and its flag is set. *)
Definition cancelledFirstLoad : Page.State :=
  Page.mkState [] true false None None None true false
    {[ 0%nat := Page.mkTask Page.reset None (Page.FromEffect true) ]} 1.

(** *** Strings *)

(** The string does not start with white space. *)
Definition noLeadingSpace (s : string) : Prop :=
  match s with
  | EmptyString => True
  | String c _ => isWhiteSpace c = false
  end.

(** *** Feed controls, continued *)

Definition withZipFilter (z : string) (st : Controls) : Controls :=
  mkControls (searchText st) z (enableRadius st) (origin st) (radiusMiles st)
             (sort st).

Definition withSearchText (s : string) (st : Controls) : Controls :=
  mkControls s (zipFilter st) (enableRadius st) (origin st) (radiusMiles st)
             (sort st).

Definition withRadiusMiles (r : number) (st : Controls) : Controls :=
  mkControls (searchText st) (zipFilter st) (enableRadius st) (origin st) r
             (sort st).

(** The ZIP stage lets [x] through: no ZIP filter, or the same ZIP. *)
Definition keepsZip (st : Controls) (x : Entry) : bool :=
  let z := trim (zipFilter st) in
  negb (nonEmpty z) || zipPass z x.

(** The text stage lets [x] through: no search text, or a match. *)
Definition keepsText {eng : Engine} (st : Controls) (x : Entry) : bool :=
  let s := toLowerCase (trim (searchText st)) in
  negb (nonEmpty s) || textPass s x.

(** The radius stage lets [x] through: radius off, or an origin and a
    distance within the radius. *)
Definition keepsRadius (st : Controls) (x : Entry) : bool :=
  negb (enableRadius st)
  || (match origin st with Some _ => true | None => false end
      && radiusPass st x).

(** The job of [x] has coordinates the extractor resolves. *)
Definition resolves (j : JobFeedItem) : bool :=
  match jobCoords j with Some _ => true | None => false end.

(** *** Sample records, continued *)

(** A record with the given [zip], the other fields unset. *)
Definition zipJob (z : string) : JobFeedItem :=
  mkJob "j" VUndefined VUndefined VUndefined VUndefined (VString z)
        VUndefined VUndefined VUndefined VUndefined VUndefined VUndefined
        VUndefined VUndefined VUndefined VUndefined.

(** A record with the given [title], the other fields unset. *)
Definition titledJob (t : string) : JobFeedItem :=
  mkJob "j" VUndefined (VString t) VUndefined VUndefined VUndefined
        VUndefined VUndefined VUndefined VUndefined VUndefined VUndefined
        VUndefined VUndefined VUndefined VUndefined.

(** *** Page loads, continued *)

(** A load started by the caller [c] is in flight. *)
Definition inFlight (c : Page.Caller) (s : Page.State) : Prop :=
  exists tid t, Page.pending s !! tid = Some t /\ Page.caller t = c.

(** At most one load started by the caller [c] is in flight. *)
Definition atMostOne (c : Page.Caller) (s : Page.State) : Prop :=
  forall tid1 tid2 t1 t2,
    Page.pending s !! tid1 = Some t1 -> Page.caller t1 = c ->
    Page.pending s !! tid2 = Some t2 -> Page.caller t2 = c ->
    tid1 = tid2.

(** The busy flags of the two buttons say what is in flight, and task
    numbers not yet given out are free. *)
Definition flagsTrackLoads (s : Page.State) : Prop :=
  (forall tid t, Page.pending s !! tid = Some t -> (tid < Page.nextTask s)%nat)
  /\ (Page.refreshing s = true <-> inFlight Page.FromRefresh s)
  /\ atMostOne Page.FromRefresh s
  /\ (Page.loadingMore s = true <-> inFlight Page.FromLoadMore s)
  /\ atMostOne Page.FromLoadMore s.

(** Every page the events deliver holds documents whose items have
    pairwise distinct ids. *)
Definition distinctPages (es : list Page.Event) : Prop :=
  Forall (fun e => match e with
                   | Page.Settle _ (Page.Docs docs) =>
                       NoDup (map id (map Page.itemOf docs))
                   | _ => True
                   end) es.

(** The page mounts and shows a first page; a refresh then brings a page
    that shares a document with it. *)
Definition loadThenRefresh : list Page.Event :=
  [Page.Mount; Page.Settle 0 (Page.Docs [docWithId "a" 1; docWithId "b" 2]);
   Page.ClickRefresh;
   Page.Settle 1 (Page.Docs [docWithId "b" 2; docWithId "c" 3])].

(** The state of the page once both pages of [loadThenRefresh] have
    settled. *)
Definition afterLoadThenRefresh : Page.State :=
  Page.mkState [jobWithId "b" 2; jobWithId "c" 3] false false None
    (Some "Updated.") (Some (docWithId "c" 3)) false false ∅ 2.

(** *** The distance panel *)

(** An origin is set: the page shows distances. *)
Definition originSet (s : OriginPanel.State) : Prop :=
  truthy (OriginPanel.origin s) = true.

(** The page knows where its origin came from exactly when it has one. *)
Definition sourceKnown (s : OriginPanel.State) : Prop :=
  originSet s <-> OriginPanel.originSource s <> None.

(** The clicks on the ZIP button among the events. *)
Definition zipClicks (es : list OriginPanel.Event) : nat :=
  length (List.filter (fun e => match e with
                                | OriginPanel.ClickUseZip _ => true
                                | _ => false
                                end) es).

(** *** Posting a job *)

(** A form that passes [validate] on a platform reading its tip as 40. *)
Definition mowing : NewJob.Form :=
  NewJob.mkForm true "Mow the lawn" "" "1 Main St" " 10001 " "a@b.c" ""
                "40" false "2023-11-16".

(** The form [mowing] submitted from a fresh browser in New York on the
    platform [onePlace], on 14 November 2023; the date text of the form
    stands for the local midnight of 16 November; the store names the
    document [job1]. *)
Definition submitMowing : NewJob.Submitted * Geo.World :=
  NewJob.onSubmit onePlace (fun _ => DateAt 1700110800000) eastern2023
                  1700000000000 (fun _ => Some "job1") "u1"
                  (DateAt 1700000000000) mowing freshWorld.

End Spec.

(** ** A reference engine

    An engine that computes exactly: no rounding and no overflow, the
    [Math] functions of the reals, lower case of the ASCII letters, and
    the stable insertion sort on the sign of the comparator. It shows that
    the laws of [Engine] hold together, and the samples run on it. *)

Module Reference.
Import Num JS.

Section InsertionSort.
Context {A : Type} (comparefn : A -> A -> number).

Fixpoint insertSorted (x : A) (l : list A) : list A :=
  match l with
  | [] => [x]
  | y :: ys =>
      if positive (comparefn x y) then y :: insertSorted x ys
      else x :: y :: ys
  end.

(** The stable sort, as an insertion that keeps an element in front of
    the later ones it does not compare above. *)
Definition insertionSort (l : list A) : list A :=
  foldr insertSorted [] l.

Lemma insertSorted_Permutation (x : A) (l : list A) :
  Permutation (insertSorted x l) (x :: l).
Proof.
  induction l as [|y ys IH]; simpl.
  - reflexivity.
  - destruct (positive (comparefn x y)).
    + rewrite IH. apply perm_swap.
    + reflexivity.
Qed.

Lemma insertionSort_Permutation (l : list A) :
  Permutation (insertionSort l) l.
Proof.
  induction l as [|x xs IH]; simpl.
  - reflexivity.
  - rewrite insertSorted_Permutation. now constructor.
Qed.

Lemma signs_exclusive (v : number) :
  positive v = true -> negative v = false.
Proof.
  destruct v as [| | |x]; simpl; try discriminate; try reflexivity.
  rewrite bool_decide_eq_true, bool_decide_eq_false. lra.
Qed.

Section Consistent.
Variable l : list A.
Hypothesis Hcons : consistent comparefn l.

Lemma less_greater (a b : A) :
  In a l -> In b l -> lessCF comparefn a b -> greaterCF comparefn b a.
Proof.
  intros Ha Hb Hab. unfold greaterCF.
  destruct (positive (comparefn b a)) eqn:Ep; [reflexivity|].
  destruct (negative (comparefn b a)) eqn:En.
  - destruct (Hcons a b a Ha Hb Ha) as ([_ Haa] & _ & _ & Hlt & _).
    specialize (Hlt Hab En). unfold lessCF in Hlt. congruence.
  - destruct (Hcons b a a Hb Ha Ha) as (_ & Hsym & _).
    destruct (Hsym (conj Ep En)) as [_ H]. unfold lessCF in Hab. congruence.
Qed.

Lemma greater_less (a b : A) :
  In a l -> In b l -> greaterCF comparefn a b -> lessCF comparefn b a.
Proof.
  intros Ha Hb Hab. unfold lessCF.
  destruct (negative (comparefn b a)) eqn:En; [reflexivity|].
  destruct (positive (comparefn b a)) eqn:Ep.
  - destruct (Hcons a b a Ha Hb Ha) as ([Haa _] & _ & _ & _ & Hgt).
    specialize (Hgt Hab Ep). unfold greaterCF in Hgt. congruence.
  - destruct (Hcons b a a Hb Ha Ha) as (_ & Hsym & _).
    destruct (Hsym (conj Ep En)) as [H _]. unfold greaterCF in Hab. congruence.
Qed.

(** In the order of ECMAScript [x] may stand before [y] exactly when the
    comparator does not put [x] above [y]. *)
Lemma sortOrder_not_greater (x y : A) :
  In x l -> In y l ->
  (sortOrder comparefn x y <-> positive (comparefn x y) = false).
Proof.
  intros Hx Hy. unfold sortOrder. split; intros H.
  - destruct (positive (comparefn x y)) eqn:E; [|reflexivity].
    apply (greater_less x y Hx Hy) in E. unfold lessCF in E. congruence.
  - destruct (negative (comparefn y x)) eqn:E; [|reflexivity].
    apply (less_greater y x Hy Hx) in E. unfold greaterCF in E. congruence.
Qed.

Lemma not_greater_total (a b : A) :
  In a l -> In b l ->
  positive (comparefn a b) = false \/ positive (comparefn b a) = false.
Proof.
  intros Ha Hb. destruct (positive (comparefn a b)) eqn:E; [|now left].
  right. apply (greater_less a b Ha Hb) in E.
  destruct (positive (comparefn b a)) eqn:E'; [|reflexivity].
  apply signs_exclusive in E'. unfold lessCF in E. congruence.
Qed.

Lemma not_greater_trans (a b c : A) :
  In a l -> In b l -> In c l ->
  positive (comparefn a b) = false -> positive (comparefn b c) = false ->
  positive (comparefn a c) = false.
Proof.
  intros Ha Hb Hc Hab Hbc.
  destruct (positive (comparefn a c)) eqn:Eac; [|reflexivity].
  exfalso.
  pose proof (greater_less a c Ha Hc Eac) as Hca.
  destruct (negative (comparefn a b)) eqn:Nab;
    destruct (negative (comparefn b c)) eqn:Nbc.
  - destruct (Hcons a b c Ha Hb Hc) as (_ & _ & _ & Hlt & _).
    specialize (Hlt Nab Nbc). apply signs_exclusive in Eac.
    unfold lessCF in Hlt. congruence.
  - (* a < b, b = c: then c < a < b gives c < b *)
    destruct (Hcons c a b Hc Ha Hb) as (_ & _ & _ & Hlt & _).
    specialize (Hlt Hca Nab).
    destruct (Hcons b c c Hb Hc Hc) as (_ & Hsym & _).
    destruct (Hsym (conj Hbc Nbc)) as [_ H]. unfold lessCF in Hlt. congruence.
  - (* a = b, b < c: then b < c < a gives b < a *)
    destruct (Hcons b c a Hb Hc Ha) as (_ & _ & _ & Hlt & _).
    specialize (Hlt Nbc Hca).
    destruct (Hcons a b b Ha Hb Hb) as (_ & Hsym & _).
    destruct (Hsym (conj Hab Nab)) as [_ H]. unfold lessCF in Hlt. congruence.
  - destruct (Hcons a b c Ha Hb Hc) as (_ & _ & Heq & _).
    destruct (Heq (conj Hab Nab) (conj Hbc Nbc)) as [H _]. congruence.
Qed.

End Consistent.

Lemma insertSorted_In (x y : A) (l : list A) :
  In y (insertSorted x l) <-> y = x \/ In y l.
Proof.
  split; intros H.
  - apply (Permutation_in _ (insertSorted_Permutation x l)) in H.
    destruct H as [<- | H]; auto.
  - apply (Permutation_in _ (Permutation_sym (insertSorted_Permutation x l))).
    destruct H as [-> | H]; [now left|now right].
Qed.

Lemma insertionSort_In (l : list A) (x : A) :
  In x (insertionSort l) <-> In x l.
Proof.
  split; apply Permutation_in;
    [|symmetry]; apply insertionSort_Permutation.
Qed.

(** Insertion into a list in order keeps it in order. *)
Lemma insertSorted_sorted (u : list A) (x : A) (l : list A) :
  consistent comparefn u -> In x u -> (forall y, In y l -> In y u) ->
  StronglySorted (fun a b => positive (comparefn a b) = false) l ->
  StronglySorted (fun a b => positive (comparefn a b) = false)
                 (insertSorted x l).
Proof.
  intros Hcons Hx Hl Hs. induction Hs as [|y ys Hys IH Hy]; simpl.
  - repeat constructor.
  - assert (Hyu : In y u) by (apply Hl; now left).
    assert (Hysu : forall z, In z ys -> In z u)
      by (intros z Hz; apply Hl; now right).
    destruct (positive (comparefn x y)) eqn:E.
    + constructor; [now apply IH|].
      apply List.Forall_forall. intros z Hz.
      apply insertSorted_In in Hz as [-> | Hz].
      * destruct (not_greater_total u Hcons x y Hx Hyu) as [H | H];
          [congruence|exact H].
      * rewrite List.Forall_forall in Hy. now apply Hy.
    + constructor; [now constructor|].
      constructor; [exact E|].
      apply List.Forall_forall. intros z Hz.
      rewrite List.Forall_forall in Hy.
      apply (not_greater_trans u Hcons x y z); auto.
Qed.

Lemma insertionSort_sorted (l : list A) :
  consistent comparefn l ->
  StronglySorted (sortOrder comparefn) (insertionSort l).
Proof.
  intros Hcons.
  assert (Hgen : forall l',
             (forall y, In y l' -> In y l) ->
             StronglySorted (fun a b => positive (comparefn a b) = false)
                            (insertionSort l')).
  { induction l' as [|x xs IH]; intros Hsub; simpl; [constructor|].
    apply (insertSorted_sorted l).
    - exact Hcons.
    - apply Hsub. now left.
    - intros y Hy. apply (proj1 (insertionSort_In xs y)) in Hy.
      apply Hsub. now right.
    - apply IH. intros y Hy. apply Hsub. now right. }
  specialize (Hgen l (fun y H => H)).
  assert (Hin : forall y, In y (insertionSort l) -> In y l)
    by (intros y; apply insertionSort_In).
  revert Hgen Hin. generalize (insertionSort l) as s.
  induction 1 as [|x xs Hxs IH Hx]; intros Hin; constructor.
  - apply IH. intros y Hy. apply Hin. now right.
  - rewrite List.Forall_forall in *. intros y Hy.
    apply (sortOrder_not_greater l Hcons); auto.
    + apply Hin. now left.
    + apply Hin. now right.
Qed.

End InsertionSort.

Section IdealLaws.
Local Open Scope R_scope.

Lemma exact_mono (x y : R) : x <= y -> leb (Fin x) (Fin y) = true.
Proof. intros H. now apply bool_decide_eq_true. Qed.

Lemma exact_sign (x : R) : 0 < x -> positive (Fin x) = true.
Proof. intros H. now apply bool_decide_eq_true. Qed.

Lemma real_cos_bound (x : R) : -1 <= Rtrigo_def.cos x <= 1.
Proof. apply COS_bound. Qed.

Lemma real_asin_nonneg (x : R) : 0 <= x <= 1 -> 0 <= Ratan.asin x.
Proof.
  intros [H0 H1].
  destruct (Rle_lt_dec 0 (Ratan.asin x)) as [H | H]; [exact H|].
  pose proof (asin_bound x) as [Hlo _].
  pose proof PI_RGT_0 as Hpi.
  assert (Hs : Rtrigo_def.sin (Ratan.asin x) < 0)
    by (apply sin_lt_0_var; lra).
  rewrite sin_asin in Hs by lra. lra.
Qed.

Lemma real_asin_range (x : R) : 0 <= x <= 1 -> 0 <= Ratan.asin x <= 2.
Proof.
  intros H. split; [now apply real_asin_nonneg|].
  pose proof (asin_bound x) as [_ Hhi]. pose proof PI_4. lra.
Qed.

End IdealLaws.

(** The engine that computes exactly. *)
Definition ideal : Engine :=
  mkEngine Fin Fin Rtrigo_def.sin Rtrigo_def.cos R_sqrt.sqrt Ratan.asin
           lowerAscii (@insertionSort)
           exact_mono (fun _ => eq_refl) (fun _ _ => eq_refl)
           (fun _ => eq_refl) (fun _ _ => eq_refl) exact_sign
           Rtrigo1.sin_neg real_cos_bound
           (fun x _ => sqrt_pos x) sqrt_0 real_asin_range asin_0
           eq_refl
           (@insertionSort_Permutation) (@insertionSort_sorted).

End Reference.

(** * Properties *)

Import Num JS Jobs Spec.

(** ** The string helpers on samples *)

Example trim_sample : trim "  10001 " = "10001" /\ trim "   " = "".
Proof. split; reflexivity. Qed.

Example normalize_sample :
  normalize (VString " Mow the LAWN ") = "Mow the LAWN"
  /\ normalize (VNumber (Fin 5)) = "" /\ normalize VUndefined = "".
Proof. repeat split; reflexivity. Qed.

Example textPass_sample :
  textPass (eng := Reference.ideal)
           (toLowerCase (Engine := Reference.ideal)
                        (normalize (VString " LAWN ")))
           (mkEntry (titledJob "Mow the lawn") None false)
  = true.
Proof. reflexivity. Qed.

(** ** Tip resolution *)

Section TipResolution.

Lemma asNumber_typeof (v : value) :
  typeof v = TyNumber <-> exists n, v = VNumber n.
Proof.
  split.
  - destruct v; simpl; intros H; try discriminate H. eauto.
  - intros [n ->]. reflexivity.
Qed.

Lemma asNumber_None (v : value) :
  typeof v <> TyNumber -> asNumber v = None.
Proof. destruct v; simpl; intros H; try reflexivity. now destruct H. Qed.

(** C4. The resolved tip is the [tip] field when it is a number, zero
    included; otherwise the [pay] field when that is a number; otherwise
    zero. A record with no [tip] and [pay = 15] resolves to [15]; one
    with [tip = 0] and [pay = 15] resolves to [0]. *)
Theorem tipOf_prefers_tip_then_pay (job : JobFeedItem) :
  (forall t, tip job = VNumber t -> tipOf job = t)
  /\ (typeof (tip job) <> TyNumber ->
      forall p, pay job = VNumber p -> tipOf job = p)
  /\ (typeof (tip job) <> TyNumber -> typeof (pay job) <> TyNumber ->
      tipOf job = Fin 0)
  /\ (tip job = VUndefined -> pay job = VNumber (Fin 15) ->
      tipOf job = Fin 15)
  /\ (tip job = VNumber (Fin 0) -> pay job = VNumber (Fin 15) ->
      tipOf job = Fin 0).
Proof.
  unfold tipOf. repeat split.
  - intros t ->. reflexivity.
  - intros Ht p ->. now rewrite (asNumber_None _ Ht).
  - intros Ht Hp. now rewrite (asNumber_None _ Ht), (asNumber_None _ Hp).
  - intros -> ->. reflexivity.
  - intros -> ->. reflexivity.
Qed.

Lemma tipOf_prefers_tip_then_pay_witness :
  tipOf (jobWithTip VUndefined (VNumber (Fin 15))) = Fin 15
  /\ tipOf (jobWithTip (VNumber (Fin 0)) (VNumber (Fin 15))) = Fin 0
  /\ tipOf (jobWithTip (VString "5") VNull) = Fin 0.
Proof.
  split; [|split].
  - apply (tipOf_prefers_tip_then_pay
             (jobWithTip VUndefined (VNumber (Fin 15)))); reflexivity.
  - apply (tipOf_prefers_tip_then_pay
             (jobWithTip (VNumber (Fin 0)) (VNumber (Fin 15)))); reflexivity.
  - destruct (tipOf_prefers_tip_then_pay (jobWithTip (VString "5") VNull))
      as (_ & _ & H & _).
    apply H; simpl; discriminate.
Defined.

End TipResolution.

(** ** Coordinate extraction *)

Section CoordinateExtraction.

Lemma bothNumbers_Some (a b : value) (c : Geo.LatLng) :
  bothNumbers a b = Some c <->
  a = VNumber (Geo.lat c) /\ b = VNumber (Geo.lng c).
Proof.
  unfold bothNumbers. destruct c as [x y]. simpl.
  destruct a, b; simpl; split; intros H;
    try discriminate H; try (destruct H; discriminate).
  - injection H as -> ->. auto.
  - destruct H as [H1 H2]. injection H1 as ->. injection H2 as ->.
    reflexivity.
Qed.

Lemma bothNumbers_None (a b : value) :
  bothNumbers a b = None <-> ~ typechecks (a, b).
Proof.
  unfold bothNumbers, typechecks. simpl.
  destruct a, b; simpl; split; intros H; try reflexivity;
    try (intros [H1 H2]; discriminate); try discriminate H.
  exfalso. apply H. split; reflexivity.
Qed.

Lemma bothNumbers_pair_None (p : value * value) :
  bothNumbers (fst p) (snd p) = None <-> ~ typechecks p.
Proof. destruct p as [a b]. apply bothNumbers_None. Qed.

Lemma readShape_isNumber (sh : Shape) (job : JobFeedItem) :
  readShape isNumber sh job
  = bothNumbers (fst (shapeFields sh job)) (snd (shapeFields sh job)).
Proof.
  unfold readShape. destruct (shapeFields sh job) as [a b]. simpl.
  destruct a, b; reflexivity.
Qed.

(** The code is the precedence search with the [typeof] test. *)
Lemma jobCoords_firstShape (job : JobFeedItem) :
  jobCoords job = firstShape isNumber precedence job.
Proof.
  unfold jobCoords, precedence, firstShape.
  rewrite !readShape_isNumber. unfold shapeFields, nestedNumbers, nestedField.
  simpl fst; simpl snd.
  destruct (truthy (location job)); simpl; reflexivity.
Qed.

Lemma firstShape_first (ok : value -> bool) (job : JobFeedItem)
      (pre post : list Shape) (sh : Shape) :
  Forall (fun s => readShape ok s job = None) pre ->
  firstShape ok (pre ++ sh :: post) job
  = match readShape ok sh job with
    | Some c => Some c
    | None => firstShape ok post job
    end.
Proof.
  induction 1 as [|s pre Hs _ IH]; simpl.
  - reflexivity.
  - now rewrite Hs.
Qed.

(** C1, as the code has it. [jobCoords] tries the four shapes in the
    order nested [latitude]/[longitude], nested [lat]/[lng], top-level
    [latitude]/[longitude], top-level [lat]/[lng], and returns the first
    one whose two fields are both of type [number] (such a field may be
    [NaN] or infinite); it returns [null] when no shape has two such
    fields. A nested [{latitude, longitude}] pair of numbers is returned
    whatever the top-level [lat]/[lng] fields hold. *)
Theorem jobCoords_first_number_shape (job : JobFeedItem) :
  (forall pre sh post,
      precedence = pre ++ sh :: post ->
      Forall (fun s => ~ typechecks (shapeFields s job)) pre ->
      typechecks (shapeFields sh job) ->
      exists c,
        jobCoords job = Some c
        /\ shapeFields sh job = (VNumber (Geo.lat c), VNumber (Geo.lng c)))
  /\ (Forall (fun s => ~ typechecks (shapeFields s job)) precedence ->
      jobCoords job = None)
  /\ (forall a b,
        nestedField (location job) "latitude" = VNumber a ->
        nestedField (location job) "longitude" = VNumber b ->
        jobCoords job = Some (Geo.mkLatLng a b)).
Proof.
  split; [|split].
  - intros pre sh post Hpre Hnone Hsh.
    rewrite jobCoords_firstShape, Hpre.
    rewrite firstShape_first.
    + rewrite readShape_isNumber.
      destruct (bothNumbers _ _) as [c|] eqn:Hc.
      * exists c. split; [reflexivity|].
        apply bothNumbers_Some in Hc. destruct Hc as [H1 H2].
        destruct (shapeFields sh job) as [x y]. simpl in *. now subst.
      * apply bothNumbers_pair_None in Hc. now destruct Hc.
    + eapply Forall_impl; [exact Hnone|].
      intros s Hs. rewrite readShape_isNumber. now apply bothNumbers_pair_None.
  - intros Hnone. rewrite jobCoords_firstShape.
    assert (Hall : Forall (fun s => readShape isNumber s job = None) precedence).
    { eapply Forall_impl; [exact Hnone|].
      intros s Hs. rewrite readShape_isNumber. now apply bothNumbers_pair_None. }
    unfold precedence in *.
    repeat match goal with
           | H : Forall _ (_ :: _) |- _ => inversion H; clear H; subst
           end.
    simpl.
    repeat match goal with H : readShape _ _ _ = None |- _ => rewrite H; clear H end.
    reflexivity.
  - intros a b Ha Hb. unfold jobCoords, nestedNumbers.
    unfold nestedField in Ha, Hb.
    destruct (truthy (location job)); [|discriminate Ha].
    rewrite Ha, Hb. reflexivity.
Qed.

Lemma jobCoords_first_number_shape_witness :
  jobCoords nanNestedJob = Some (Geo.mkLatLng NaN (Fin 5))
  /\ jobCoords (jobWithCoords VNull (VNumber (Fin 1)) (VNumber (Fin 2)))
     = Some (Geo.mkLatLng (Fin 1) (Fin 2))
  /\ jobCoords (jobWithCoords VNull VNull (VString "2")) = None.
Proof.
  split; [|split].
  - destruct (jobCoords_first_number_shape nanNestedJob) as (_ & _ & H).
    apply H; reflexivity.
  - destruct (jobCoords_first_number_shape
                (jobWithCoords VNull (VNumber (Fin 1)) (VNumber (Fin 2))))
      as (H & _ & _).
    destruct (H [NestedLatitudeLongitude; NestedLatLng; TopLatitudeLongitude]
                TopLatLng [] eq_refl) as (c & Hc & Hf).
    + repeat constructor; intros [H1 H2]; discriminate.
    + split; reflexivity.
    + rewrite Hc. simpl in Hf. destruct c as [x y]. simpl in Hf.
      injection Hf as <- <-. reflexivity.
  - destruct (jobCoords_first_number_shape
                (jobWithCoords VNull VNull (VString "2"))) as (_ & H & _).
    apply H. repeat constructor; intros [H1 H2]; discriminate.
Defined.

(** C1, as stated, fails: on [nanNestedJob] the first shape is not a
    pair of finite numbers, so the extractor of the specification moves
    on to the top-level [lat]/[lng]; the code returns the nested pair
    with its [NaN]. *)
Lemma jobCoords_returns_non_finite_shape :
  jobCoords nanNestedJob = Some (Geo.mkLatLng NaN (Fin 5))
  /\ isFinite (Geo.lat (Geo.mkLatLng NaN (Fin 5))) = false
  /\ extractCoords nanNestedJob = Some (Geo.mkLatLng (Fin 1) (Fin 2))
  /\ jobCoords nanNestedJob <> extractCoords nanNestedJob.
Proof.
  repeat split; try reflexivity. discriminate.
Qed.

End CoordinateExtraction.

(** ** The arithmetic of an engine *)

Section EngineFacts.
Context {eng : Engine}.
Local Open Scope R_scope.

Lemma decide_R_true (P : Prop) `{Decision P} :
  P -> bool_decide P = true.
Proof. apply bool_decide_eq_true_2. Qed.

Lemma decide_R_false (P : Prop) `{Decision P} :
  ~ P -> bool_decide P = false.
Proof. apply bool_decide_eq_false_2. Qed.

Lemma isFinite_Fin (n : number) : isFinite n = true <-> exists x, n = Fin x.
Proof.
  split; [|intros [x ->]; reflexivity].
  destruct n; intros H; try discriminate H. eauto.
Qed.

Lemma leb_Fin_l (y : R) (n : number) :
  leb (Fin y) n = true -> n = PosInf \/ exists z, n = Fin z /\ y <= z.
Proof.
  destruct n as [| | |z]; simpl; intros H; try discriminate H; auto.
  right. exists z. split; [reflexivity|]. now apply bool_decide_eq_true in H.
Qed.

Lemma leb_Fin_r (n : number) (y : R) :
  leb n (Fin y) = true -> n = NegInf \/ exists z, n = Fin z /\ z <= y.
Proof.
  destruct n as [| | |z]; simpl; intros H; try discriminate H; auto.
  right. exists z. split; [reflexivity|]. now apply bool_decide_eq_true in H.
Qed.

(** A product or quotient between two integers that are doubles rounds
    to a finite number between them. *)
Lemma round_between (lo hi : Z) (x : R) :
  (Z.abs lo <= exactInt)%Z -> (Z.abs hi <= exactInt)%Z ->
  IZR lo <= x <= IZR hi ->
  exists y, round x = Fin y /\ IZR lo <= y <= IZR hi.
Proof.
  intros Hlo Hhi [H1 H2].
  pose proof (round_mono _ _ H1) as M1. rewrite (round_int lo Hlo) in M1.
  pose proof (round_mono _ _ H2) as M2. rewrite (round_int hi Hhi) in M2.
  apply leb_Fin_l in M1 as [E | (y & E & Hy)]; rewrite E in M2 |- *.
  - discriminate M2.
  - apply leb_Fin_r in M2 as [E' | (y' & E' & Hy')]; [discriminate E'|].
    injection E' as <-. eauto.
Qed.

Lemma round_zero : round 0 = Fin 0.
Proof. apply (round_int 0%Z). unfold exactInt. simpl. lia. Qed.

Lemma roundSum_zero : roundSum 0 = Fin 0.
Proof. apply (roundSum_int 0%Z). unfold exactInt. simpl. lia. Qed.

(** A sum or difference rounds to a number of its own sign. *)
Lemma roundSum_positive (z : R) :
  positive (roundSum z) = bool_decide (0 < z).
Proof.
  destruct (Rlt_dec 0 z) as [H | H].
  - rewrite (decide_R_true (0 < z)) by exact H. now apply roundSum_sign.
  - rewrite (decide_R_false (0 < z)) by exact H.
    destruct (Req_dec z 0) as [-> | Hz].
    + rewrite roundSum_zero. simpl. apply decide_R_false. lra.
    + assert (Hn : 0 < - z) by lra.
      pose proof (roundSum_sign _ Hn) as Hp.
      replace z with (- - z) by lra. rewrite roundSum_odd.
      destruct (roundSum (- z)) as [| | |y]; simpl in *; try discriminate Hp;
        try reflexivity.
      apply bool_decide_eq_true in Hp. apply decide_R_false. lra.
Qed.

Lemma negative_neg (v : number) : negative (neg v) = positive v.
Proof.
  destruct v as [| | |x]; simpl; try reflexivity.
  apply bool_decide_ext. lra.
Qed.

Lemma roundSum_negative (z : R) :
  negative (roundSum z) = bool_decide (z < 0).
Proof.
  replace z with (- - z) at 1 by lra.
  rewrite roundSum_odd, negative_neg, roundSum_positive.
  apply bool_decide_ext. lra.
Qed.

Lemma sin_zero : sin_ 0 = 0.
Proof.
  pose proof (sin_odd 0) as H. replace (- 0) with 0 in H by lra. lra.
Qed.

Lemma array_sort_Permutation {A : Type} (comparefn : A -> A -> number)
      (l : list A) :
  Permutation (array_sort comparefn l) l.
Proof. apply sort_rearranges. Qed.

Lemma array_sort_In {A : Type} (comparefn : A -> A -> number) (l : list A)
      (x : A) :
  In x (array_sort comparefn l) <-> In x l.
Proof.
  split; apply Permutation_in;
    [|symmetry]; apply array_sort_Permutation.
Qed.

Lemma array_sort_nil {A : Type} (comparefn : A -> A -> number) :
  array_sort comparefn [] = [].
Proof. apply Permutation_nil. symmetry. apply array_sort_Permutation. Qed.

End EngineFacts.

(** ** The filters, as list operations *)

Section FilterFacts.
Context {eng : Engine}.
Variables (zone : Zone) (now : Z) (st : Controls).

Lemma In_optional_filter (c : bool) (f : Entry -> bool) (l : list Entry)
      (x : Entry) :
  In x (if c then List.filter f l else l) -> In x l.
Proof. destruct c; [|trivial]. intros H. now apply filter_In in H. Qed.

(** Each stage only removes entries. *)
Lemma filtered_In (l : list Entry) (x : Entry) :
  In x (filtered zone now st l) ->
  In x l /\ isActive zone now (job x) = true.
Proof.
  unfold Jobs.filtered. intros H.
  assert (Hact : In x (List.filter (fun x => isActive zone now (job x)) l)).
  { destruct (enableRadius st).
    - destruct (origin st); [|destruct H].
      apply filter_In in H as [H _].
      now do 2 apply In_optional_filter in H.
    - now do 2 apply In_optional_filter in H. }
  now apply filter_In in Hact.
Qed.

Lemma visibleJobs_In (l : list Entry) (x : Entry) :
  In x (visibleJobs zone now st l) <-> In x (filtered zone now st l).
Proof. apply array_sort_In. Qed.

End FilterFacts.

(** ** Time zones *)

Section ZoneFacts.

(** Under ascending midnights, the starts of two local days compare as
    the days do. *)
Lemma startOfDay_le (zone : Zone) (s t : Z) :
  midnightsAscend zone ->
  ((startOfDay zone s <= startOfDay zone t)%Z
   <-> (calendarDay zone s <= calendarDay zone t)%Z).
Proof.
  intros Hasc. split; intros H.
  - destruct (Z_lt_le_dec (calendarDay zone t) (calendarDay zone s))
      as [Hlt | Hle]; [|exact Hle].
    apply Hasc in Hlt. lia.
  - destruct (Z.eq_dec (calendarDay zone s) (calendarDay zone t)) as [E | E].
    + unfold startOfDay. rewrite E. lia.
    + assert (Hlt : (calendarDay zone s < calendarDay zone t)%Z) by lia.
      apply Hasc in Hlt. lia.
Qed.

(** A zone of constant offset is regular. *)
Lemma fixedZone_regular (tza : Z) : regular (fixedZone tza).
Proof.
  split; [|split].
  - intros s t. unfold startOfDay, calendarDay, msPerDay. simpl. lia.
  - intros s t H. unfold calendarDay, msPerDay. simpl.
    apply Z.div_le_mono; lia.
  - intros t. unfold startOfDay, calendarDay, msPerDay. simpl.
    rewrite Z.sub_add. apply Z.div_mul. discriminate.
Qed.

(** So is the zone of New York across the end of daylight saving time. *)
Lemma eastern2023_regular : regular eastern2023.
Proof.
  split; [|split].
  - intros s t. unfold startOfDay.
    generalize (calendarDay eastern2023 s) (calendarDay eastern2023 t).
    intros a b Hab. unfold msPerDay. simpl.
    destruct (Z.ltb_spec (a * 86400000) 1699149600000),
             (Z.ltb_spec (b * 86400000) 1699149600000); lia.
  - intros s t Hst. unfold calendarDay, msPerDay. simpl.
    destruct (Z.ltb_spec s 1699164000000), (Z.ltb_spec t 1699164000000).
    + apply Z.div_le_mono; lia.
    + apply Z.le_trans with 19666%Z.
      * apply Z.lt_succ_r. apply Z.div_lt_upper_bound; lia.
      * apply Z.div_le_lower_bound; lia.
    + lia.
    + apply Z.div_le_mono; lia.
  - intros t. unfold startOfDay.
    generalize (calendarDay eastern2023 t). intros a.
    unfold calendarDay, msPerDay. simpl.
    destruct (Z.ltb_spec (a * 86400000) 1699149600000) as [H | H].
    + destruct (Z.ltb_spec (a * 86400000 + 14400000) 1699164000000); [|lia].
      replace (a * 86400000 + 14400000 - 14400000)%Z
        with (a * 86400000)%Z by lia.
      apply Z.div_mul. discriminate.
    + destruct (Z.ltb_spec (a * 86400000 + 18000000) 1699164000000); [lia|].
      replace (a * 86400000 + 18000000 - 18000000)%Z
        with (a * 86400000)%Z by lia.
      apply Z.div_mul. discriminate.
Qed.

End ZoneFacts.

(** ** Activity *)

Section Activity.
Context {eng : Engine}.
Variables (zone : Zone) (now : Z).

Lemma tsToDate_Some (v : value) (d : Date) :
  tsToDate v = Some d <-> v = VTimestamp (Some d) \/ v = VDate d.
Proof.
  unfold tsToDate. split.
  - destruct v as [| | | | |[r|]| |]; simpl;
      repeat match goal with
             | |- context [if ?c then _ else _] => destruct c
             end;
      intros H; try discriminate H; injection H as ->; auto.
  - intros [-> | ->]; reflexivity.
Qed.

Lemma tsToDate_None (v : value) :
  tsToDate v = None <->
  (forall d, v <> VTimestamp (Some d)) /\ (forall d, v <> VDate d).
Proof.
  split.
  - intros H. split; intros d ->; discriminate H.
  - intros [H1 H2]. destruct (tsToDate v) as [d|] eqn:E; [|reflexivity].
    apply tsToDate_Some in E as [-> | ->]; [destruct (H1 d)|destruct (H2 d)];
      reflexivity.
Qed.

Lemma tsToDate_pointInTime (v : value) (t : Z) :
  tsToDate v = Some (DateAt t) <-> pointInTime v = Some t.
Proof.
  rewrite tsToDate_Some. split.
  - intros [-> | ->]; reflexivity.
  - destruct v as [| | | | |[[|t']|]|[|t']|]; simpl; intros H;
      try discriminate H; injection H as ->; auto.
Qed.

(** The job is active exactly when its standing offer is truthy, or its
    end date does not convert, or the local day of its end date starts
    no earlier than today, both starts being valid time values. *)
Lemma isActive_true (job : JobFeedItem) :
  isActive zone now job = true <->
  truthy (standingOffer job) = true
  \/ tsToDate (endDate job) = None
  \/ exists t, pointInTime (endDate job) = Some t
               /\ validDay zone t /\ validDay zone now
               /\ (startOfDay zone now <= startOfDay zone t)%Z.
Proof.
  unfold isActive, validDay.
  destruct (truthy (standingOffer job)) eqn:Hso; [split; auto|].
  destruct (tsToDate (endDate job)) as [[|t]|] eqn:Hd; simpl.
  - split; [discriminate|].
    intros [H | [H | (t & Ht & _)]]; try discriminate H.
    apply tsToDate_pointInTime in Ht. congruence.
  - apply tsToDate_pointInTime in Hd. unfold timeClip.
    destruct (validTime (startOfDay zone t)) eqn:Vt;
      destruct (validTime (startOfDay zone now)) eqn:Vn; simpl;
      try rewrite Z.leb_le;
      (split;
       [ try discriminate; intros H; right; right; exists t; auto
       | intros [H | [H | (t' & Ht' & V1 & V2 & Hle)]]; try discriminate H;
         assert (t' = t) as -> by congruence; congruence || exact Hle ]).
  - split; auto.
Qed.

(** C3, as the code has it. [isActive(job)] is true if and only if
    [standingOffer] is truthy, or [endDate] does not convert to a date
    (it is absent, or any value [tsToDate] maps to [null]), or the local
    day of [endDate] starts no earlier than today; where later local days
    start later, that is: the calendar date of [endDate] is on or after
    the current calendar date. A standing offer is active whatever its end
    date, an end date of yesterday without standing offer is inactive, an
    end date of today is active. Every entry of the feed is active. *)
Theorem isActive_iff_standing_or_no_date_or_not_past (job : JobFeedItem) :
  (isActive zone now job = true <->
   truthy (standingOffer job) = true
   \/ tsToDate (endDate job) = None
   \/ exists t, pointInTime (endDate job) = Some t
                /\ validDay zone t /\ validDay zone now
                /\ (startOfDay zone now <= startOfDay zone t)%Z)
  /\ (midnightsAscend zone -> validDay zone now ->
      (isActive zone now job = true <->
       truthy (standingOffer job) = true
       \/ tsToDate (endDate job) = None
       \/ exists t, pointInTime (endDate job) = Some t
                    /\ validDay zone t
                    /\ (calendarDay zone now <= calendarDay zone t)%Z))
  /\ (standingOffer job = VBool true -> isActive zone now job = true)
  /\ (forall t, midnightsAscend zone ->
                truthy (standingOffer job) = false ->
                pointInTime (endDate job) = Some t ->
                calendarDay zone t = (calendarDay zone now - 1)%Z ->
                isActive zone now job = false)
  /\ (forall t, validDay zone now ->
                pointInTime (endDate job) = Some t ->
                calendarDay zone t = calendarDay zone now ->
                isActive zone now job = true)
  /\ (forall (st : Controls) (jobs : list JobFeedItem) (x : Entry),
         In x (feed zone now st jobs) ->
         isActive zone now (Jobs.job x) = true).
Proof.
  split; [apply isActive_true|]. split; [|split; [|split; [|split]]].
  - intros Hasc Vn. rewrite isActive_true. split.
    + intros [H | [H | (t & Ht & Vt & _ & Hle)]]; auto.
      right; right. exists t. split; [exact Ht|]. split; [exact Vt|].
      now apply (startOfDay_le zone now t Hasc).
    + intros [H | [H | (t & Ht & Vt & Hle)]]; auto.
      right; right. exists t. repeat split; auto.
      now apply (startOfDay_le zone now t Hasc).
  - intros H. apply isActive_true. left. now rewrite H.
  - intros t Hasc Hso Ht Hday.
    destruct (isActive zone now job) eqn:E; [|reflexivity].
    apply isActive_true in E as [H | [H | (t' & Ht' & _ & _ & Hle)]].
    + congruence.
    + apply tsToDate_pointInTime in Ht. congruence.
    + assert (t' = t) as -> by congruence.
      apply (startOfDay_le zone now t Hasc) in Hle. lia.
  - intros t Vn Ht Hday. apply isActive_true. right; right.
    exists t. unfold validDay, startOfDay in *. rewrite Hday.
    repeat split; auto. lia.
  - intros st jobs x H.
    unfold feed in H. apply visibleJobs_In in H.
    now apply filtered_In in H.
Qed.

End Activity.

(** C3, as stated, fails. A record that is no standing offer and whose
    [endDate] is a string is active, although the field is not absent and
    denotes no calendar date; and a record whose [standingOffer] holds a
    text is active, although the field is not [true] and the end date is
    long past. *)
Lemma isActive_string_endDate_not_as_stated :
  isActive (fixedZone 0) 1700000000000
           (jobWithEnd (VBool false) (VString "2020-01-01")) = true
  /\ ~ activeAsStated (fixedZone 0) 1700000000000
         (jobWithEnd (VBool false) (VString "2020-01-01"))
  /\ isActive (fixedZone 0) 1700000000000
              (jobWithEnd (VString "yes") (VTimestamp (Some (DateAt 0))))
     = true
  /\ ~ activeAsStated (fixedZone 0) 1700000000000
         (jobWithEnd (VString "yes") (VTimestamp (Some (DateAt 0)))).
Proof.
  split; [reflexivity|]. split; [|split; [reflexivity|]].
  - intros [H | [[H | H] | (t & H & _)]]; discriminate H.
  - intros [H | [[H | H] | (t & H & Hle)]]; try discriminate H.
    injection H as <-. vm_compute in Hle. now apply Hle.
Qed.

Lemma isActive_iff_standing_or_no_date_or_not_past_witness :
  isActive eastern2023 1699245000000
           (jobWithEnd (VBool true) (VTimestamp (Some (DateAt 0)))) = true
  /\ isActive eastern2023 1699245000000
              (jobWithEnd (VBool false)
                          (VTimestamp (Some (DateAt 1699100000000)))) = false
  /\ isActive eastern2023 1699245000000
              (jobWithEnd (VBool false)
                          (VTimestamp (Some (DateAt 1699158600000)))) = true.
Proof.
  destruct eastern2023_regular as (Hasc & _ & _).
  split; [|split].
  - destruct (isActive_iff_standing_or_no_date_or_not_past
                (eng := Reference.ideal) eastern2023 1699245000000
                (jobWithEnd (VBool true) (VTimestamp (Some (DateAt 0)))))
      as (_ & _ & H & _).
    apply H. reflexivity.
  - destruct (isActive_iff_standing_or_no_date_or_not_past
                (eng := Reference.ideal) eastern2023 1699245000000
                (jobWithEnd (VBool false)
                            (VTimestamp (Some (DateAt 1699100000000)))))
      as (_ & _ & _ & H & _).
    apply (H 1699100000000 Hasc); reflexivity.
  - destruct (isActive_iff_standing_or_no_date_or_not_past
                (eng := Reference.ideal) eastern2023 1699245000000
                (jobWithEnd (VBool false)
                            (VTimestamp (Some (DateAt 1699158600000)))))
      as (_ & _ & _ & _ & H & _).
    apply (H 1699158600000); reflexivity.
Defined.

Section UnconvertibleEndDate.
Context {eng : Engine}.
Variables (zone : Zone) (now : Z).

Lemma computed_In (jobs : list JobFeedItem) (origin : option Geo.LatLng)
      (j : JobFeedItem) :
  In j jobs -> exists x, In x (computed jobs origin) /\ job x = j.
Proof.
  intros H. unfold computed.
  eexists. split; [apply in_map; exact H|]. reflexivity.
Qed.

Lemma plain_feed_In (origin : option Geo.LatLng) (sort : SortMode)
      (jobs : list JobFeedItem) (x : Entry) :
  In x (feed zone now (plainControls origin sort) jobs) <->
  In x (computed jobs origin) /\ isActive zone now (job x) = true.
Proof.
  unfold feed. rewrite visibleJobs_In.
  unfold filtered. simpl. change (trim "") with "".
  rewrite toLowerCase_empty. simpl. now rewrite filter_In.
Qed.

(** C10. [tsToDate] returns [null] for a value that is neither
    timestamp-like nor a date, and for a timestamp whose conversion
    throws. A record whose [endDate] is present and converts to [null] is
    active, as the same record without end date is, whatever its
    [standingOffer]; it stays in the feed. *)
Theorem isActive_unconvertible_endDate (job : JobFeedItem) :
  ((forall d, endDate job <> VTimestamp (Some d)) ->
   (forall d, endDate job <> VDate d) ->
   tsToDate (endDate job) = None)
  /\ (~ absent (endDate job) -> tsToDate (endDate job) = None ->
      isActive zone now job = true
      /\ isActive zone now job = isActive zone now (withEndDate VUndefined job)
      /\ forall origin sort jobs,
           In job jobs ->
           exists x, In x (feed zone now (plainControls origin sort) jobs)
                     /\ Jobs.job x = job).
Proof.
  split.
  - intros H1 H2. now apply tsToDate_None.
  - intros _ Hnull.
    assert (Hact : isActive zone now job = true).
    { apply isActive_true. auto. }
    split; [exact Hact|]. split.
    + rewrite Hact. symmetry. apply isActive_true. right; left. reflexivity.
    + intros origin sort jobs Hin.
      destruct (computed_In jobs origin job Hin) as (x & Hx & Hj).
      exists x. split; [|exact Hj].
      apply plain_feed_In. split; [exact Hx|]. now rewrite Hj.
Qed.

End UnconvertibleEndDate.

Lemma isActive_unconvertible_endDate_witness :
  isActive (fixedZone 0) 1700000000000
           (jobWithEnd (VBool false) (VString "2020-01-01")) = true
  /\ isActive (fixedZone 0) 1700000000000
              (jobWithEnd VUndefined (VTimestamp None)) = true.
Proof.
  split.
  - destruct (isActive_unconvertible_endDate
                (eng := Reference.ideal) (fixedZone 0) 1700000000000
                (jobWithEnd (VBool false) (VString "2020-01-01"))) as [_ H].
    apply H; [|reflexivity].
    intros [E | E]; discriminate E.
  - destruct (isActive_unconvertible_endDate
                (eng := Reference.ideal) (fixedZone 0) 1700000000000
                (jobWithEnd VUndefined (VTimestamp None))) as [Hnull H].
    apply H.
    + intros [E | E]; discriminate E.
    + apply Hnull; intros d E; discriminate E.
Defined.

(** ** The load-more merge *)

Section Merge.

Lemma seen_unseen (prev : list JobFeedItem) (it : JobFeedItem) :
  bool_decide (id it ∈ (list_to_set (map id prev) : gset string))
  = negb (unseen prev it).
Proof.
  unfold unseen. rewrite negb_involutive.
  destruct (existsb _ _) eqn:E.
  - apply bool_decide_eq_true. apply elem_of_list_to_set, list_elem_of_In.
    apply existsb_exists in E as (i & Hi & Heq).
    apply String.eqb_eq in Heq. now subst.
  - apply bool_decide_eq_false. intros H.
    apply elem_of_list_to_set, list_elem_of_In in H.
    assert (existsb (String.eqb (id it)) (map id prev) = true); [|congruence].
    apply existsb_exists. exists (id it). split; [exact H|].
    apply String.eqb_refl.
Qed.

Lemma fold_push_unseen (prev items acc : list JobFeedItem) :
  fold_left (fun merged it =>
               if bool_decide (id it ∈ (list_to_set (map id prev) : gset string))
               then merged else merged ++ [it])
            items acc
  = acc ++ List.filter (unseen prev) items.
Proof.
  revert acc. induction items as [|it items IH]; intros acc; simpl.
  - now rewrite app_nil_r.
  - rewrite IH, seen_unseen. destruct (unseen prev it); simpl; [|reflexivity].
    now rewrite <- app_assoc.
Qed.

Lemma mergePage_app (prev items : list JobFeedItem) :
  mergePage prev items = prev ++ List.filter (unseen prev) items.
Proof. unfold mergePage. apply fold_push_unseen. Qed.

Lemma unseen_not_In (prev : list JobFeedItem) (it : JobFeedItem) :
  unseen prev it = true <-> ~ In (id it) (map id prev).
Proof.
  unfold unseen. rewrite negb_true_iff. split.
  - intros E H.
    assert (existsb (String.eqb (id it)) (map id prev) = true); [|congruence].
    apply existsb_exists. exists (id it). split; [exact H|].
    apply String.eqb_refl.
  - intros H. destruct (existsb _ _) eqn:E; [|reflexivity].
    apply existsb_exists in E as (i & Hi & Heq).
    apply String.eqb_eq in Heq. subst. contradiction.
Qed.

Lemma NoDup_ids_filter (keep : JobFeedItem -> bool) (l : list JobFeedItem) :
  NoDup (map id l) -> NoDup (map id (List.filter keep l)).
Proof.
  induction l as [|x l IH]; simpl; intros H.
  - constructor.
  - apply NoDup_cons in H as [Hx Hl].
    destruct (keep x); simpl; [|now apply IH].
    apply NoDup_cons. split; [|now apply IH].
    intros Hin. apply Hx.
    apply list_elem_of_In in Hin. apply list_elem_of_In.
    apply in_map_iff in Hin as (y & Hy & Hin).
    apply filter_In in Hin as [Hin _].
    apply in_map_iff. eauto.
Qed.

(** C5, as the code has it. The merge keeps the previous list as a
    prefix, in its order, and appends after it, in page order, exactly the
    items of the new page whose id is not among the previous ids. When
    neither the previous list nor the fetched page repeats an id, the
    merged list repeats none, whatever records the page shares with the
    previous list. *)
Theorem mergePage_prefix_and_unique (prev items : list JobFeedItem) :
  mergePage prev items = prev ++ List.filter (unseen prev) items
  /\ (forall it, In it (List.filter (unseen prev) items) <->
                 In it items /\ ~ In (id it) (map id prev))
  /\ (NoDup (map id prev) -> NoDup (map id items) ->
      NoDup (map id (mergePage prev items))).
Proof.
  split; [apply mergePage_app|]. split.
  - intros it. rewrite filter_In, unseen_not_In. reflexivity.
  - intros Hprev Hitems. rewrite mergePage_app, map_app.
    apply NoDup_app. split; [exact Hprev|]. split.
    + intros i Hi Hin. apply list_elem_of_In in Hi, Hin.
      apply in_map_iff in Hin as (it & <- & Hit).
      apply filter_In in Hit as [_ Hu].
      now apply unseen_not_In in Hu.
    + now apply NoDup_ids_filter.
Qed.

Lemma mergePage_prefix_and_unique_witness :
  NoDup (map id (mergePage [jobWithId "a" 1; jobWithId "b" 2]
                           [jobWithId "b" 3; jobWithId "c" 4]))
  /\ mergePage [jobWithId "a" 1; jobWithId "b" 2]
               [jobWithId "b" 3; jobWithId "c" 4]
     = [jobWithId "a" 1; jobWithId "b" 2; jobWithId "c" 4].
Proof.
  destruct (mergePage_prefix_and_unique
              [jobWithId "a" 1; jobWithId "b" 2]
              [jobWithId "b" 3; jobWithId "c" 4]) as (Heq & _ & Hnd).
  split.
  - apply Hnd; simpl; repeat constructor;
      rewrite ?list_elem_of_In; simpl; intuition discriminate.
  - rewrite Heq. reflexivity.
Defined.

(** C5, as stated, fails: two documents of one page whose data carry the
    same [id] field give two items of the same id; with nothing loaded
    before, the merge keeps both. *)
Lemma mergePage_keeps_repeated_id_of_page :
  NoDup (map id ([] : list JobFeedItem))
  /\ map id (map Page.itemOf [docWithStoredId "d1" "x" 1;
                              docWithStoredId "d2" "x" 2])
     = ["x"; "x"]
  /\ map id (mergePage [] (map Page.itemOf [docWithStoredId "d1" "x" 1;
                                            docWithStoredId "d2" "x" 2]))
     = ["x"; "x"]
  /\ ~ NoDup (map id (mergePage [] (map Page.itemOf
                                      [docWithStoredId "d1" "x" 1;
                                       docWithStoredId "d2" "x" 2]))).
Proof.
  split; [constructor|]. split; [reflexivity|]. split; [reflexivity|].
  intros H. apply NoDup_cons in H as [H _]. apply H. constructor.
Qed.

End Merge.

(** ** Distance *)

Section DistanceLaws.
Context {eng : Engine}.
Local Open Scope R_scope.

Lemma neg_involutive (n : number) : neg (neg n) = n.
Proof. destruct n; simpl; try reflexivity. f_equal. lra. Qed.

Lemma inf_of_sign_opp (x : R) :
  x <> 0 -> inf_of_sign (- x) = neg (inf_of_sign x).
Proof.
  intros Hx. unfold inf_of_sign.
  destruct (Rlt_dec 0 x) as [Hp | Hn].
  - rewrite (decide_R_true (0 < x)) by exact Hp.
    rewrite (decide_R_false (0 < - x)) by lra. reflexivity.
  - rewrite (decide_R_false (0 < x)) by exact Hn.
    rewrite (decide_R_true (0 < - x)) by lra. reflexivity.
Qed.

Lemma sub_swap (a b : number) : sub b a = neg (sub a b).
Proof.
  destruct a as [| | |x], b as [| | |y]; simpl; try reflexivity.
  rewrite <- roundSum_odd. f_equal. lra.
Qed.

Lemma mul_comm (a b : number) : mul a b = mul b a.
Proof.
  destruct a as [| | |x], b as [| | |y]; simpl; try reflexivity.
  f_equal. lra.
Qed.

Lemma mul_neg_l (a b : number) : mul (neg a) b = neg (mul a b).
Proof.
  destruct a as [| | |x], b as [| | |y]; simpl; try reflexivity.
  - destruct (Req_dec y 0) as [H | H].
    + now rewrite (decide_R_true (y = 0)) by exact H.
    + now rewrite (decide_R_false (y = 0)) by exact H.
  - destruct (Req_dec y 0) as [H | H].
    + now rewrite (decide_R_true (y = 0)) by exact H.
    + rewrite (decide_R_false (y = 0)) by exact H.
      now rewrite neg_involutive.
  - destruct (Req_dec x 0) as [H | H].
    + rewrite (decide_R_true (x = 0)) by exact H.
      now rewrite (decide_R_true (- x = 0)) by lra.
    + rewrite (decide_R_false (x = 0)) by exact H.
      rewrite (decide_R_false (- x = 0)) by lra.
      now apply inf_of_sign_opp.
  - destruct (Req_dec x 0) as [H | H].
    + rewrite (decide_R_true (x = 0)) by exact H.
      now rewrite (decide_R_true (- x = 0)) by lra.
    + rewrite (decide_R_false (x = 0)) by exact H.
      rewrite (decide_R_false (- x = 0)) by lra.
      now rewrite inf_of_sign_opp.
  - rewrite <- round_odd. f_equal. lra.
Qed.

Lemma mul_neg_r (a b : number) : mul a (neg b) = neg (mul a b).
Proof. now rewrite mul_comm, mul_neg_l, mul_comm. Qed.

(** Dividing by a positive number commutes with the unary minus. *)
Lemma div_neg_l (a : number) (d : R) :
  0 < d -> div (neg a) (Fin d) = neg (div a (Fin d)).
Proof.
  intros Hd. destruct a as [| | |x]; simpl; try reflexivity.
  - now rewrite (decide_R_false (d < 0)) by lra.
  - now rewrite (decide_R_false (d < 0)) by lra.
  - rewrite (decide_R_false (d = 0)) by lra.
    rewrite <- round_odd. f_equal. lra.
Qed.

Lemma pi64_bounds : 3 < pi64 < 4.
Proof. unfold pi64. lra. Qed.

Lemma toRad_neg (n : number) : Geo.toRad (neg n) = neg (Geo.toRad n).
Proof.
  unfold Geo.toRad. rewrite mul_neg_l. apply div_neg_l. lra.
Qed.

Lemma half_neg (n : number) : div (neg n) (Fin 2) = neg (div n (Fin 2)).
Proof. apply div_neg_l. lra. Qed.

Lemma sin_neg (n : number) : sin (neg n) = neg (sin n).
Proof. destruct n; simpl; try reflexivity. f_equal. apply sin_odd. Qed.

(** Swapping the two points negates both half-angle sines and swaps the
    two cosines. *)
Lemma haversineSum_sym (a b : Geo.LatLng) :
  haversineSum a b = haversineSum b a.
Proof.
  unfold haversineSum.
  rewrite (sub_swap (Geo.lat b) (Geo.lat a)), (sub_swap (Geo.lng b) (Geo.lng a)).
  rewrite !toRad_neg, !half_neg, !sin_neg.
  rewrite !mul_neg_r, !mul_neg_l, !neg_involutive.
  now rewrite (mul_comm (cos (Geo.toRad (Geo.lat a)))).
Qed.

Lemma asinArgument_sym (a b : Geo.LatLng) :
  asinArgument a b = asinArgument b a.
Proof. unfold asinArgument. now rewrite haversineSum_sym. Qed.

Lemma haversineMiles_asinArgument (a b : Geo.LatLng) :
  Geo.haversineMiles a b
  = mul Geo.R_earth (mul (Fin 2) (asin (asinArgument a b))).
Proof. reflexivity. Qed.

Lemma haversineMiles_sym (a b : Geo.LatLng) :
  Geo.haversineMiles a b = Geo.haversineMiles b a.
Proof. now rewrite !haversineMiles_asinArgument, asinArgument_sym. Qed.

(** The argument of the inverse sine is [NaN] or at most [1]. *)
Lemma asinArgument_le_one (a b : Geo.LatLng) :
  asinArgument a b = NaN \/ leb (asinArgument a b) (Fin 1) = true.
Proof.
  unfold asinArgument. generalize (sqrt (haversineSum a b)).
  intros [| | |x]; simpl.
  - now left.
  - right. apply decide_R_true. lra.
  - now right.
  - right. destruct (Rle_dec 1 x) as [H | H].
    + rewrite (decide_R_true (1 <= x)) by exact H.
      simpl. apply decide_R_true. lra.
    + rewrite (decide_R_false (1 <= x)) by exact H.
      simpl. apply decide_R_true. lra.
Qed.

Lemma sqrt_cases (n : number) :
  sqrt n = NaN \/ sqrt n = PosInf \/ exists s, sqrt n = Fin s /\ 0 <= s.
Proof.
  destruct n as [| | |x]; simpl; auto.
  destruct (Rlt_dec x 0) as [H | H].
  - rewrite (decide_R_true (x < 0)) by exact H. auto.
  - rewrite (decide_R_false (x < 0)) by exact H.
    right. right. eexists. split; [reflexivity|]. apply sqrt_nonneg. lra.
Qed.

(** The argument of the inverse sine is [NaN] or lies between 0 and 1. *)
Lemma asinArgument_range (a b : Geo.LatLng) :
  asinArgument a b = NaN
  \/ exists m, asinArgument a b = Fin m /\ 0 <= m <= 1.
Proof.
  unfold asinArgument.
  destruct (sqrt_cases (haversineSum a b)) as [-> | [-> | (s & -> & Hs)]];
    simpl.
  - now left.
  - right. exists 1. split; [reflexivity | lra].
  - right. destruct (Rle_dec 1 s) as [H | H].
    + rewrite (decide_R_true (1 <= s)) by exact H. exists 1. split; [easy | lra].
    + rewrite (decide_R_false (1 <= s)) by exact H. exists s. split; [easy | lra].
Qed.

(** The radius is a finite number between 3958 and 3959. *)
Lemma R_earth_Fin : exists r, Geo.R_earth = Fin r /\ 3958 <= r <= 3959.
Proof.
  unfold Geo.R_earth, literal.
  apply (round_between 3958 3959); unfold exactInt; simpl; try lia. lra.
Qed.

(** The distance is [NaN], with the argument of the inverse sine, or a
    finite number of miles between 0 and 15836. *)
Lemma haversineMiles_from_argument (a b : Geo.LatLng) :
  (asinArgument a b = NaN /\ Geo.haversineMiles a b = NaN)
  \/ exists m d, asinArgument a b = Fin m /\ 0 <= m <= 1
                 /\ Geo.haversineMiles a b = Fin d /\ 0 <= d <= 15836.
Proof.
  rewrite haversineMiles_asinArgument.
  destruct (asinArgument_range a b) as [-> | (m & -> & Hm)].
  - left. split; [reflexivity|]. simpl. now destruct Geo.R_earth.
  - right. exists m.
    destruct R_earth_Fin as (r & -> & Hr).
    pose proof (asin_range m Hm) as Ha.
    unfold asin.
    rewrite (decide_R_true (-1 <= m)) by lra.
    rewrite (decide_R_true (m <= 1)) by lra.
    cbn [andb mul].
    destruct (round_between 0 4 (2 * asin_ m)) as (c & -> & Hc);
      [unfold exactInt; simpl; lia .. | lra |].
    cbn [mul].
    destruct (round_between 0 15836 (r * c)) as (d & -> & Hd);
      [unfold exactInt; simpl; lia .. | nra |].
    exists d. auto.
Qed.

Lemma haversineMiles_NaN_or_Fin (a b : Geo.LatLng) :
  Geo.haversineMiles a b = NaN
  \/ exists d, Geo.haversineMiles a b = Fin d /\ 0 <= d <= 15836.
Proof.
  destruct (haversineMiles_from_argument a b)
    as [[_ E] | (m & d & _ & _ & E & Hd)]; eauto.
Qed.

(** *** What is finite *)

Lemma sub_finite (a b : number) :
  isFinite (sub a b) = true -> isFinite a = true /\ isFinite b = true.
Proof. destruct a, b; simpl; intros H; try discriminate H; auto. Qed.

Lemma toRad_finite (n : number) :
  isFinite (Geo.toRad n) = true -> isFinite n = true.
Proof.
  pose proof pi64_bounds as Hpi.
  destruct n as [| | |x]; try reflexivity; unfold Geo.toRad, PI; simpl.
  - discriminate.
  - rewrite (decide_R_false (pi64 = 0)) by lra.
    unfold inf_of_sign. rewrite (decide_R_true (0 < pi64)) by lra.
    simpl. rewrite (decide_R_false (180 < 0)) by lra. discriminate.
  - rewrite (decide_R_false (pi64 = 0)) by lra.
    unfold inf_of_sign. rewrite (decide_R_true (0 < pi64)) by lra.
    simpl. rewrite (decide_R_false (180 < 0)) by lra. discriminate.
Qed.

Lemma half_finite (n : number) :
  isFinite (div n (Fin 2)) = true -> isFinite n = true.
Proof.
  destruct n; simpl; try reflexivity; try discriminate.
  - rewrite (decide_R_false (2 < 0)) by lra. discriminate.
  - rewrite (decide_R_false (2 < 0)) by lra. discriminate.
Qed.

Lemma mul_not_NaN (a b : number) :
  isNaN (mul a b) = false -> isNaN a = false /\ isNaN b = false.
Proof. destruct a, b; simpl; intros H; try discriminate H; auto. Qed.

Lemma sqrt_not_NaN (n : number) : isNaN (sqrt n) = false -> isNaN n = false.
Proof. destruct n; simpl; auto. Qed.

Lemma add_not_NaN (a b : number) :
  isNaN (add a b) = false -> isNaN a = false /\ isNaN b = false.
Proof. destruct a, b; simpl; intros H; try discriminate H; auto. Qed.

Lemma sin_cos_not_NaN (n : number) :
  (isNaN (sin n) = false -> isFinite n = true)
  /\ (isNaN (cos n) = false -> isFinite n = true).
Proof. destruct n; simpl; auto. Qed.

(** A sum [h] that is not [NaN] was computed from four finite
    coordinates, the latitudes finite in radians. *)
Lemma haversineSum_not_NaN (a b : Geo.LatLng) :
  isNaN (haversineSum a b) = false ->
  (isFinite (Geo.lat a) = true /\ isFinite (Geo.lng a) = true)
  /\ (isFinite (Geo.lat b) = true /\ isFinite (Geo.lng b) = true)
  /\ isFinite (Geo.toRad (Geo.lat a)) = true
  /\ isFinite (Geo.toRad (Geo.lat b)) = true.
Proof.
  unfold haversineSum. intros H.
  apply add_not_NaN in H as [H1 H2].
  apply mul_not_NaN in H1 as [H1 _].
  apply mul_not_NaN in H2 as [H2 H3].
  apply mul_not_NaN in H2 as [H2 _].
  apply mul_not_NaN in H2 as [H4 H5].
  apply sin_cos_not_NaN, half_finite, toRad_finite, sub_finite in H1.
  apply sin_cos_not_NaN, half_finite, toRad_finite, sub_finite in H3.
  apply sin_cos_not_NaN in H4, H5. tauto.
Qed.

Lemma asinArgument_not_NaN (a b : Geo.LatLng) :
  isNaN (asinArgument a b) = false -> isNaN (haversineSum a b) = false.
Proof.
  unfold asinArgument. intros H. apply sqrt_not_NaN.
  destruct (sqrt (haversineSum a b)); try reflexivity. discriminate H.
Qed.

Lemma haversineMiles_finite (a b : Geo.LatLng) :
  isFinite (Geo.haversineMiles a b) = true ->
  finiteLatLng a /\ finiteLatLng b
  /\ isFinite (Geo.toRad (Geo.lat a)) = true
  /\ isFinite (Geo.toRad (Geo.lat b)) = true.
Proof.
  intros H.
  destruct (haversineMiles_from_argument a b)
    as [[_ E] | (m & d & E & _)]; [now rewrite E in H|].
  apply (haversineSum_not_NaN a b), asinArgument_not_NaN. now rewrite E.
Qed.

(** *** A point and itself *)

Lemma mul_zero_r (x : R) : mul (Fin x) (Fin 0) = Fin 0.
Proof. simpl. rewrite Rmult_0_r. apply round_zero. Qed.

Lemma mul_zero_l (x : R) : mul (Fin 0) (Fin x) = Fin 0.
Proof. simpl. rewrite Rmult_0_l. apply round_zero. Qed.

Lemma div_zero (d : R) : d <> 0 -> div (Fin 0) (Fin d) = Fin 0.
Proof.
  intros Hd. simpl. rewrite (decide_R_false (d = 0)) by exact Hd.
  replace (0 / d) with 0 by (unfold Rdiv; lra). apply round_zero.
Qed.

Lemma sub_self (x : R) : sub (Fin x) (Fin x) = Fin 0.
Proof. simpl. rewrite Rplus_opp_r. apply roundSum_zero. Qed.

Lemma toRad_zero : Geo.toRad (Fin 0) = Fin 0.
Proof. unfold Geo.toRad, PI. rewrite mul_zero_l. apply div_zero. lra. Qed.

Lemma half_angle_zero : sin (div (Geo.toRad (Fin 0)) (Fin 2)) = Fin 0.
Proof.
  rewrite toRad_zero, div_zero by lra. simpl. now rewrite sin_zero.
Qed.

(** The product of two cosines is finite. *)
Lemma mul_cos_Fin (x y : R) : exists p, mul (cos (Fin x)) (cos (Fin y)) = Fin p.
Proof.
  simpl. pose proof (cos_bound x) as Hx. pose proof (cos_bound y) as Hy.
  destruct (round_between (-1) 1 (cos_ x * cos_ y)) as (p & -> & _);
    [unfold exactInt; simpl; lia .. | nra |]. eauto.
Qed.

Lemma haversineSum_same (a : Geo.LatLng) :
  haversineSum a a
  = if isFinite (Geo.toRad (Geo.lat a)) && isFinite (Geo.lng a)
    then Fin 0 else NaN.
Proof.
  destruct (isFinite (Geo.toRad (Geo.lat a)) && isFinite (Geo.lng a))
    eqn:E.
  - apply andb_true_iff in E as [E1 E2].
    pose proof (toRad_finite _ E1) as E0.
    apply isFinite_Fin in E0 as [x Hx], E1 as [t Ht], E2 as [y Hy].
    unfold haversineSum. rewrite Ht, Hx, Hy, !sub_self, half_angle_zero.
    destruct (mul_cos_Fin t t) as [p ->].
    rewrite !mul_zero_r. simpl. rewrite Rplus_0_r. apply roundSum_zero.
  - destruct (isNaN (haversineSum a a)) eqn:N.
    + now destruct (haversineSum a a).
    + apply haversineSum_not_NaN in N as ([_ N1] & _ & N2 & _).
      rewrite N1, N2 in E. discriminate E.
Qed.

Lemma haversineMiles_same (a : Geo.LatLng) :
  Geo.haversineMiles a a
  = if isFinite (Geo.toRad (Geo.lat a)) && isFinite (Geo.lng a)
    then Fin 0 else NaN.
Proof.
  rewrite haversineMiles_asinArgument. unfold asinArgument.
  rewrite haversineSum_same.
  destruct (isFinite (Geo.toRad (Geo.lat a)) && isFinite (Geo.lng a)).
  - cbn [sqrt]. rewrite (decide_R_false (0 < 0)) by lra.
    rewrite sqrt_zero. cbn [min leb].
    rewrite (decide_R_false (1 <= 0)) by lra.
    cbn [asin].
    rewrite (decide_R_true (-1 <= 0)) by lra.
    rewrite (decide_R_true (0 <= 1)) by lra.
    cbn [andb]. rewrite asin_zero.
    destruct R_earth_Fin as (r & -> & _).
    now rewrite !mul_zero_r.
  - simpl. now destruct Geo.R_earth.
Qed.

(** A latitude of up to [10^15] degrees in magnitude is finite in
    radians. *)
Lemma toRad_ordinary (x : R) :
  ordinary x -> isFinite (Geo.toRad (Fin x)) = true.
Proof.
  unfold ordinary. intros Hx. pose proof pi64_bounds as Hpi.
  assert (Hb : -1000000000000000 <= x <= 1000000000000000)
    by (unfold Rabs in Hx; destruct (Rcase_abs x); lra).
  unfold Geo.toRad, PI. cbn [mul].
  destruct (round_between (-4000000000000000) 4000000000000000 (x * pi64))
    as (y & -> & Hy); [unfold exactInt; simpl; lia .. | nra |].
  cbn [div]. rewrite (decide_R_false (180 = 0)) by lra.
  destruct (round_between (-4000000000000000) 4000000000000000 (y / 180))
    as (z & -> & Hz); [unfold exactInt; simpl; lia .. | lra |].
  reflexivity.
Qed.

End DistanceLaws.

(** *** Exact arithmetic *)

Section ExactDistance.
Local Open Scope R_scope.

Lemma toRad_Fin (x : R) :
  Geo.toRad (eng := Reference.ideal) (Fin x) = Fin (rad x).
Proof.
  unfold Geo.toRad, rad, PI. simpl.
  rewrite (decide_R_false (180 = 0)) by lra. reflexivity.
Qed.

(** The haversine term lies between 0 and 1 for all real angles. *)
Lemma haversine_term_bounds (la lo lb lob : R) :
  0 <= haversine_term la lo lb lob <= 1.
Proof.
  unfold haversine_term, Rsqr.
  set (p1 := rad la). set (p2 := rad lb).
  assert (Hd : rad (lb - la) = p2 - p1) by (unfold p1, p2, rad; lra).
  rewrite Hd.
  set (s := Rtrigo_def.sin ((p2 - p1) / 2)).
  set (t := Rtrigo_def.sin (rad (lob - lo) / 2)).
  assert (Hs : Rtrigo_def.cos (p2 - p1) = 1 - 2 * s * s).
  { replace (p2 - p1) with (2 * ((p2 - p1) / 2)) at 1 by lra.
    apply cos_2a_sin. }
  pose proof (cos_minus p2 p1) as Hm.
  pose proof (cos_plus p2 p1) as Hp.
  pose proof (COS_bound (p2 + p1)) as [Hlo Hhi].
  pose proof (SIN_bound (rad (lob - lo) / 2)) as [Ht1 Ht2].
  fold t in Ht1, Ht2.
  pose proof (SIN_bound ((p2 - p1) / 2)) as [Hs1 Hs2].
  fold s in Hs1, Hs2.
  set (c1 := Rtrigo_def.cos p1) in *. set (c2 := Rtrigo_def.cos p2) in *.
  assert (Hc : - (s * s) <= c1 * c2 <= 1 - s * s) by lra.
  assert (Ht : 0 <= t * t <= 1) by nra.
  assert (Hss : 0 <= s * s <= 1) by nra.
  split; nra.
Qed.

Lemma min_one_Fin (x : R) : min (Fin 1) (Fin x) = Fin (Rmin 1 x).
Proof.
  unfold min, leb, Rmin.
  destruct (Rle_dec 1 x) as [H | H].
  - now rewrite (decide_R_true (1 <= x)) by exact H.
  - now rewrite (decide_R_false (1 <= x)) by exact H.
Qed.

Lemma asinArgument_Fin (la lo lb lob : R) :
  asinArgument (eng := Reference.ideal)
    (Geo.mkLatLng (Fin la) (Fin lo)) (Geo.mkLatLng (Fin lb) (Fin lob))
  = Fin (clamped_root la lo lb lob).
Proof.
  unfold asinArgument, haversineSum, clamped_root.
  cbn [Geo.lat Geo.lng sub neg add roundSum Reference.ideal].
  rewrite !toRad_Fin. cbn [div].
  rewrite (decide_R_false (2 = 0)) by lra.
  cbn [sin cos mul add round roundSum sin_ cos_ Reference.ideal].
  match goal with
  | |- min _ (sqrt (Fin ?h)) = _ =>
      replace h with (haversine_term la lo lb lob)
        by (unfold haversine_term, Rsqr, Rminus; ring)
  end.
  pose proof (haversine_term_bounds la lo lb lob) as [H0 _].
  unfold sqrt. rewrite (decide_R_false (_ < 0)) by lra.
  apply min_one_Fin.
Qed.

Lemma clamped_root_bounds (la lo lb lob : R) :
  0 <= clamped_root la lo lb lob <= 1.
Proof.
  unfold clamped_root. split.
  - apply Rmin_glb; [lra | apply sqrt_pos].
  - apply Rmin_l.
Qed.

Lemma haversineMiles_Fin (la lo lb lob : R) :
  Geo.haversineMiles (eng := Reference.ideal)
    (Geo.mkLatLng (Fin la) (Fin lo)) (Geo.mkLatLng (Fin lb) (Fin lob))
  = Fin (great_circle_miles la lo lb lob).
Proof.
  rewrite haversineMiles_asinArgument, asinArgument_Fin.
  pose proof (clamped_root_bounds la lo lb lob) as [H0 H1].
  unfold asin.
  rewrite (decide_R_true (-1 <= _)) by lra.
  rewrite (decide_R_true (_ <= 1)) by lra.
  reflexivity.
Qed.

End ExactDistance.

Section DistanceClaim.
Local Open Scope R_scope.

(** C7, as the code has it. On every engine the distance is symmetric in
    its two points. From a point to itself it is [0] when both coordinates
    are finite and the latitude is finite in radians, as for every
    latitude of up to [10^15] degrees, and [NaN] otherwise. The radius is
    the literal [3958.7613]; the value passed to the inverse sine is the
    square root capped at 1: it is [NaN] or at most 1, and the distance is
    [NaN] or a finite number between 0 and 15836 miles. In exact
    arithmetic the distance of two points of finite coordinates is the
    great-circle haversine distance on a sphere of radius 3958.7613
    miles. *)
Theorem haversineMiles_symmetric_zero_clamped :
  (forall (eng : Engine) a b,
      Geo.haversineMiles a b = Geo.haversineMiles b a)
  /\ (forall (eng : Engine) a,
        Geo.haversineMiles a a
        = if isFinite (Geo.toRad (Geo.lat a)) && isFinite (Geo.lng a)
          then Fin 0 else NaN)
  /\ (forall (eng : Engine) x y,
        ordinary x ->
        Geo.haversineMiles (Geo.mkLatLng (Fin x) (Fin y))
                           (Geo.mkLatLng (Fin x) (Fin y)) = Fin 0)
  /\ (forall (eng : Engine) a b,
        Geo.haversineMiles a b
        = mul (literal (39587613 / 10000))
              (mul (Fin 2) (asin (asinArgument a b)))
        /\ (asinArgument a b = NaN \/ leb (asinArgument a b) (Fin 1) = true)
        /\ (Geo.haversineMiles a b = NaN
            \/ exists d, Geo.haversineMiles a b = Fin d /\ 0 <= d <= 15836))
  /\ (forall la lo lb lob,
        Geo.haversineMiles (eng := Reference.ideal)
          (Geo.mkLatLng (Fin la) (Fin lo)) (Geo.mkLatLng (Fin lb) (Fin lob))
        = Fin (great_circle_miles la lo lb lob)
        /\ 0 <= clamped_root la lo lb lob <= 1).
Proof.
  split; [intros; apply haversineMiles_sym|].
  split; [intros; apply haversineMiles_same|].
  split; [|split].
  - intros eng x y Hx. rewrite haversineMiles_same. cbn [Geo.lat Geo.lng].
    now rewrite toRad_ordinary.
  - intros eng a b. split; [|split].
    + apply haversineMiles_asinArgument.
    + apply asinArgument_le_one.
    + apply haversineMiles_NaN_or_Fin.
  - intros la lo lb lob. split.
    + apply haversineMiles_Fin.
    + apply clamped_root_bounds.
Qed.

Lemma haversineMiles_symmetric_zero_clamped_witness :
  Geo.haversineMiles (eng := Reference.ideal)
    (Geo.mkLatLng (Fin 40) (Fin (-74))) (Geo.mkLatLng (Fin 40) (Fin (-74)))
  = Fin 0.
Proof.
  destruct haversineMiles_symmetric_zero_clamped as (_ & _ & H & _).
  apply H. unfold ordinary. rewrite Rabs_pos_eq; lra.
Defined.

(** C7, as stated, fails: from a point of [NaN] latitude to itself the
    distance is [NaN] on every engine, not [0]. *)
Lemma haversineMiles_NaN_point_not_zero :
  (forall eng : Engine, Geo.haversineMiles nowhere nowhere = NaN)
  /\ (forall eng : Engine, Geo.haversineMiles nowhere nowhere <> Fin 0).
Proof.
  assert (H : forall eng : Engine, Geo.haversineMiles nowhere nowhere = NaN).
  { intros eng. now rewrite haversineMiles_same. }
  split; [exact H|]. intros eng. now rewrite H.
Qed.

End DistanceClaim.

(** ** The radius filter *)

Section Radius.
Context {eng : Engine}.
Variables (zone : Zone) (now : Z).

Lemma computed_miles (jobs : list JobFeedItem) (origin : option Geo.LatLng)
      (x : Entry) :
  In x (computed jobs origin) ->
  miles x = match origin, jobCoords (job x) with
            | Some o, Some c => Some (Geo.haversineMiles o c)
            | _, _ => None
            end.
Proof.
  unfold computed. intros H. apply in_map_iff in H as (j & <- & _).
  reflexivity.
Qed.

Lemma filtered_radius (st : Controls) (l : list Entry) :
  enableRadius st = true -> origin st <> None ->
  filtered zone now st l
  = List.filter (radiusPass st) (filtered zone now (withRadius false st) l).
Proof.
  intros Hon Ho. unfold filtered. rewrite Hon.
  destruct (origin st); [reflexivity|]. now destruct Ho.
Qed.

(** C2. With the radius filter on and no origin the feed is empty, for
    every job list. With an origin, the feed holds exactly the entries of
    the feed without radius filter whose distance to the origin is a
    finite number at most the radius; each of them has resolvable
    coordinates. *)
Theorem radius_filter_closed_without_origin_exact_with (st : Controls) :
  (enableRadius st = true -> origin st = None ->
   forall jobs, feed zone now st jobs = [])
  /\ (forall o, enableRadius st = true -> origin st = Some o ->
      forall jobs x,
        (In x (feed zone now st jobs) <->
         In x (feed zone now (withRadius false st) jobs)
         /\ exists m, miles x = Some (Fin m)
                      /\ leb (Fin m) (radiusMiles st) = true)
        /\ (In x (feed zone now st jobs) ->
            exists c, jobCoords (job x) = Some c
                      /\ miles x = Some (Geo.haversineMiles o c))).
Proof.
  split.
  - intros Hon Ho jobs. unfold feed, visibleJobs, filtered.
    rewrite Hon, Ho. apply array_sort_nil.
  - intros o Hon Ho jobs x.
    assert (Hsome : origin st <> None) by (rewrite Ho; discriminate).
    assert (Hin : In x (feed zone now st jobs) ->
                  In x (computed jobs (Some o)) /\ radiusPass st x = true).
    { unfold feed. rewrite visibleJobs_In, filtered_radius by assumption.
      rewrite filter_In, Ho. intros [Hin Hm].
      apply filtered_In in Hin as [Hin _]. auto. }
    split; [split|].
    + intros Hx. split.
      * revert Hx. unfold feed.
        rewrite !visibleJobs_In, filtered_radius by assumption.
        rewrite filter_In. now intros [Hx _].
      * apply Hin in Hx as [Hx Hm].
        apply computed_miles in Hx. unfold radiusPass in Hm.
        destruct (jobCoords (job x)) as [c|]; rewrite Hx in Hm |- *;
          [|discriminate Hm].
        destruct (haversineMiles_NaN_or_Fin o c) as [E | (r & E & _)];
          rewrite E in Hm |- *; [discriminate Hm|].
        exists r. auto.
    + intros [Hx (m & Hm & Hle)]. unfold feed in *.
      rewrite visibleJobs_In in *. rewrite filtered_radius by assumption.
      apply filter_In. split; [exact Hx|].
      unfold radiusPass. now rewrite Hm.
    + intros Hx. apply Hin in Hx as [Hx Hm].
      apply computed_miles in Hx. unfold radiusPass in Hm.
      destruct (jobCoords (job x)) as [c|]; rewrite Hx in Hm |- *;
        [|discriminate Hm].
      eauto.
Qed.

End Radius.

Lemma radius_filter_closed_without_origin_exact_with_witness :
  feed (eng := Reference.ideal) (fixedZone 0) 1700000000000
       (withRadius true (plainControls None newest)) [nearJob] = []
  /\ In (mkEntry nearJob
                 (Some (Geo.haversineMiles (eng := Reference.ideal)
                          nearOrigin nearOrigin)) true)
        (feed (eng := Reference.ideal) (fixedZone 0) 1700000000000
              (withRadius true (plainControls (Some nearOrigin) newest))
              [nearJob]).
Proof.
  split.
  - destruct (radius_filter_closed_without_origin_exact_with
                (eng := Reference.ideal) (fixedZone 0) 1700000000000
                (withRadius true (plainControls None newest)))
      as (Hnone & _).
    apply Hnone; reflexivity.
  - destruct (radius_filter_closed_without_origin_exact_with
                (eng := Reference.ideal) (fixedZone 0) 1700000000000
                (withRadius true (plainControls (Some nearOrigin) newest)))
      as (_ & Hexact).
    apply (Hexact nearOrigin eq_refl eq_refl). split.
    + left. reflexivity.
    + exists 0%R. split.
      * cbn [miles]. f_equal. rewrite haversineMiles_same.
        cbn [Geo.lat Geo.lng nearOrigin]. now rewrite toRad_Fin.
      * apply decide_R_true. lra.
Defined.

(** ** The sort *)

Section NumberOrder.
Local Open Scope R_scope.

Lemma ltb_irrefl (a : number) : ltb a a = false.
Proof.
  destruct a as [| | |x]; simpl; try reflexivity.
  apply decide_R_false. lra.
Qed.

Lemma ltb_trans (a b c : number) :
  ltb a b = true -> ltb b c = true -> ltb a c = true.
Proof.
  destruct a as [| | |x], b as [| | |y], c as [| | |z]; simpl;
    try discriminate; auto.
  rewrite !bool_decide_eq_true. lra.
Qed.

(** [>=] is transitive on the numbers other than [NaN]. *)
Lemma not_ltb_trans (a b c : number) :
  isNaN a = false -> isNaN b = false -> isNaN c = false ->
  ltb a b = false -> ltb b c = false -> ltb a c = false.
Proof.
  destruct a as [| | |x], b as [| | |y], c as [| | |z]; simpl;
    try discriminate; auto.
  rewrite !bool_decide_eq_false. lra.
Qed.

Lemma not_ltb_leb (a b : number) :
  isNaN a = false -> isNaN b = false ->
  (ltb a b = false <-> leb b a = true).
Proof.
  destruct a as [| | |x], b as [| | |y]; simpl; intros Ha Hb;
    try discriminate; try tauto; try (split; congruence).
  rewrite bool_decide_eq_false, bool_decide_eq_true. lra.
Qed.

Lemma leb_trans (a b c : number) :
  leb a b = true -> leb b c = true -> leb a c = true.
Proof.
  destruct a as [| | |x], b as [| | |y], c as [| | |z]; simpl;
    try discriminate; auto.
  rewrite !bool_decide_eq_true. lra.
Qed.

Lemma leb_PosInf (n : number) : leb PosInf n = true -> n = PosInf.
Proof. destruct n; simpl; intros H; try discriminate H; reflexivity. Qed.

End NumberOrder.

Section DifferenceSigns.
Context {eng : Engine}.
Local Open Scope R_scope.

(** The sign of a difference of two numbers other than [NaN]. *)
Lemma positive_sub (a b : number) :
  isNaN a = false -> isNaN b = false -> positive (sub a b) = ltb b a.
Proof.
  destruct a as [| | |x], b as [| | |y]; simpl; intros Ha Hb;
    try discriminate; try reflexivity.
  rewrite roundSum_positive. apply bool_decide_ext. lra.
Qed.

Lemma negative_sub (a b : number) :
  isNaN a = false -> isNaN b = false -> negative (sub a b) = ltb a b.
Proof.
  destruct a as [| | |x], b as [| | |y]; simpl; intros Ha Hb;
    try discriminate; try reflexivity.
  rewrite roundSum_negative. apply bool_decide_ext. lra.
Qed.

End DifferenceSigns.

(** A comparator whose sign tells how two keys compare. *)
Section KeyedComparator.
Context {eng : Engine} {A : Type}.
Variables (comparefn : A -> A -> number) (key : A -> number) (l : list A).
Hypothesis comparefn_signs :
  forall a b, In a l -> In b l ->
    positive (comparefn a b) = ltb (key b) (key a)
    /\ negative (comparefn a b) = ltb (key a) (key b).
Hypothesis keys : Forall (fun x => isNaN (key x) = false) l.

Lemma key_not_NaN (x : A) : In x l -> isNaN (key x) = false.
Proof. rewrite List.Forall_forall in keys. apply keys. Qed.

(** On keys other than [NaN] the comparator is consistent. *)
Lemma keyed_consistent : consistent comparefn l.
Proof.
  intros a b c Ha Hb Hc.
  pose proof (key_not_NaN a Ha) as Ka.
  pose proof (key_not_NaN b Hb) as Kb.
  pose proof (key_not_NaN c Hc) as Kc.
  unfold equalCF, lessCF, greaterCF.
  destruct (comparefn_signs a a Ha Ha) as [-> ->].
  destruct (comparefn_signs a b Ha Hb) as [-> ->].
  destruct (comparefn_signs b a Hb Ha) as [-> ->].
  destruct (comparefn_signs b c Hb Hc) as [-> ->].
  destruct (comparefn_signs a c Ha Hc) as [-> ->].
  rewrite ltb_irrefl.
  split; [auto|]. split; [tauto|]. split; [|split].
  - intros [H1 H2] [H3 H4]. split.
    + now apply (not_ltb_trans (key c) (key b) (key a)).
    + now apply (not_ltb_trans (key a) (key b) (key c)).
  - apply ltb_trans.
  - intros H1 H2. now apply (ltb_trans (key c) (key b) (key a)).
Qed.

Lemma StronglySorted_In_impl (R R' : A -> A -> Prop) (s : list A) :
  (forall x y, In x s -> In y s -> R x y -> R' x y) ->
  StronglySorted R s -> StronglySorted R' s.
Proof.
  intros Himp Hs. induction Hs as [|x xs Hxs IH Hx].
  - constructor.
  - constructor.
    + apply IH. intros y z Hy Hz. apply Himp; now right.
    + rewrite List.Forall_forall in Hx |- *. intros y Hy.
      apply Himp; [now left | now right | now apply Hx].
Qed.

(** The sorted list ascends in the key. *)
Lemma keyed_sorted :
  StronglySorted (fun a b => leb (key a) (key b) = true)
                 (array_sort comparefn l).
Proof.
  apply (StronglySorted_In_impl (sortOrder comparefn)).
  - intros x y Hx Hy. apply array_sort_In in Hx, Hy.
    unfold sortOrder. destruct (comparefn_signs y x Hy Hx) as [_ ->].
    apply key_not_NaN in Hx, Hy. now apply not_ltb_leb.
  - apply sort_orders, keyed_consistent.
Qed.

End KeyedComparator.

Section SortModes.
Context {eng : Engine}.
Local Open Scope R_scope.

Lemma timeOrZero_creationTime (v : value) : timeOrZero v = creationTime v.
Proof.
  unfold timeOrZero, tsToDate, creationTime.
  destruct v as [| |b|n|s|r|d|p]; try reflexivity;
    try (now destruct r); now destruct (negb (truthy _)).
Qed.

Lemma tipOf_resolvedTip (j : JobFeedItem) : tipOf j = resolvedTip j.
Proof.
  unfold tipOf, resolvedTip.
  destruct (tip j); simpl; try reflexivity; now destruct (pay j).
Qed.

Lemma isNaN_neg (n : number) : isNaN (neg n) = isNaN n.
Proof. now destruct n. Qed.

Lemma ltb_neg (a b : number) : ltb (neg a) (neg b) = ltb b a.
Proof.
  destruct a as [| | |x], b as [| | |y]; simpl; try reflexivity.
  apply bool_decide_ext. lra.
Qed.

Lemma leb_neg (a b : number) : leb (neg a) (neg b) = leb b a.
Proof.
  destruct a as [| | |x], b as [| | |y]; simpl; try reflexivity.
  apply bool_decide_ext. lra.
Qed.

(** The comparator of each mode is the difference of two keys of the
    mode: the second less the first in the descending modes, the first
    less the second in the ascending ones. *)
Lemma comparator_keys (sort : SortMode) (a b : Entry) :
  comparator sort a b
  = match sort with
    | newest | tipHigh => sub (sortKey sort b) (sortKey sort a)
    | tipLow | distance => sub (sortKey sort a) (sortKey sort b)
    end.
Proof.
  destruct sort; simpl;
    now rewrite ?timeOrZero_creationTime, ?tipOf_resolvedTip.
Qed.

(** On keys other than [NaN] the sort puts the list in the order of the
    mode. *)
Lemma comparator_sorted (sort : SortMode) (l : list Entry) :
  comparableKeys sort l ->
  StronglySorted (inOrder sort) (array_sort (comparator sort) l).
Proof.
  intros Hl.
  assert (Hk : forall x, In x l -> isNaN (sortKey sort x) = false).
  { unfold comparableKeys in Hl. rewrite List.Forall_forall in Hl.
    exact Hl. }
  assert (Hdesc :
    (sort = newest \/ sort = tipHigh) ->
    StronglySorted (inOrder sort) (array_sort (comparator sort) l)).
  { intros Hmode.
    apply (StronglySorted_In_impl
             (fun a b => leb (neg (sortKey sort a)) (neg (sortKey sort b))
                         = true)).
    - intros x y _ _. rewrite leb_neg.
      now destruct Hmode as [-> | ->].
    - apply keyed_sorted.
      + intros a b Ha Hb. apply Hk in Ha, Hb. rewrite !ltb_neg.
        rewrite comparator_keys.
        destruct Hmode as [-> | ->];
          now rewrite positive_sub, negative_sub.
      + apply List.Forall_forall. intros x Hx. rewrite isNaN_neg.
        now apply Hk. }
  assert (Hasc :
    (sort = tipLow \/ sort = distance) ->
    StronglySorted (inOrder sort) (array_sort (comparator sort) l)).
  { intros Hmode.
    apply (StronglySorted_In_impl
             (fun a b => leb (sortKey sort a) (sortKey sort b) = true)).
    - intros x y _ _. now destruct Hmode as [-> | ->].
    - apply keyed_sorted.
      + intros a b Ha Hb. apply Hk in Ha, Hb.
        rewrite comparator_keys.
        destruct Hmode as [-> | ->];
          now rewrite positive_sub, negative_sub.
      + exact Hl. }
  destruct sort; auto.
Qed.

End SortModes.

Section SortStep.
Context {eng : Engine}.
Variables (zone : Zone) (now : Z) (st : Controls).

(** C6, as the code has it. The sort step rearranges the filtered list.
    When no key of the list is [NaN] it orders the list by the key of the
    selected mode: [newest] descending by the time of the creation date,
    a date that is missing or does not convert counting as time zero;
    [tipHigh] descending and [tipLow] ascending by the resolved tip, the
    [tip] when it is a number, else the [pay] when it is a number, else
    zero; [distance] ascending by the computed distance, an entry without
    distance counting as positive infinity, so that only such entries
    follow it. *)
Theorem sort_orders_by_selected_mode (l : list Entry) :
  Permutation (visibleJobs zone now st l) (filtered zone now st l)
  /\ (comparableKeys (sort st) (filtered zone now st l) ->
      StronglySorted (inOrder (sort st)) (visibleJobs zone now st l))
  /\ (forall x,
        (forall t, pointInTime (creationDate (job x)) = Some t ->
                   sortKey newest x = of_Z t)
        /\ (tsToDate (creationDate (job x)) = None ->
            sortKey newest x = Fin 0)
        /\ sortKey tipHigh x = tipOf (job x)
        /\ sortKey tipLow x = tipOf (job x)
        /\ (forall m, miles x = Some m -> sortKey distance x = m)
        /\ (miles x = None -> sortKey distance x = PosInf))
  /\ (forall a b,
        (inOrder newest a b <->
         leb (sortKey newest b) (sortKey newest a) = true)
        /\ (inOrder tipHigh a b <->
            leb (sortKey tipHigh b) (sortKey tipHigh a) = true)
        /\ (inOrder tipLow a b <->
            leb (sortKey tipLow a) (sortKey tipLow b) = true)
        /\ (inOrder distance a b <->
            leb (sortKey distance a) (sortKey distance b) = true))
  /\ (sort st = distance ->
      comparableKeys distance (filtered zone now st l) ->
      forall l1 x l2,
        visibleJobs zone now st l = l1 ++ x :: l2 -> miles x = None ->
        Forall (fun y => miles y = None \/ miles y = Some PosInf) l2).
Proof.
  split; [apply array_sort_Permutation|].
  split; [apply comparator_sorted|].
  split; [|split].
  - intros x. repeat split.
    + intros t Ht. unfold sortKey, creationTime.
      destruct (creationDate (job x)) as [| | | | |[[|u]|]|[|u]|];
        try discriminate Ht; now injection Ht as ->.
    + intros Hx. unfold sortKey. rewrite <- timeOrZero_creationTime.
      unfold timeOrZero. now rewrite Hx.
    + symmetry. apply tipOf_resolvedTip.
    + symmetry. apply tipOf_resolvedTip.
    + intros m Hm. unfold sortKey, distanceKey. now rewrite Hm.
    + intros Hx. unfold sortKey, distanceKey. now rewrite Hx.
  - intros a b. repeat split; trivial.
  - intros Hsort Hkeys l1 x l2 Hout Hx.
    pose proof (comparator_sorted distance _ Hkeys) as Hs.
    unfold Jobs.visibleJobs in Hout. rewrite Hsort in Hout.
    rewrite Hout in Hs.
    clear Hout. induction l1 as [|y l1 IH]; simpl in Hs.
    + apply StronglySorted_inv in Hs as [_ Hall].
      eapply List.Forall_impl; [|exact Hall].
      intros y Hy. simpl in Hy.
      unfold distanceKey in Hy at 1. rewrite Hx in Hy.
      apply leb_PosInf in Hy. unfold distanceKey in Hy.
      destruct (miles y) as [m|]; [right; now rewrite Hy | now left].
    + apply StronglySorted_inv in Hs as [Hs _]. now apply IH.
Qed.

End SortStep.

Lemma sort_orders_by_selected_mode_witness :
  StronglySorted (inOrder tipHigh)
    (visibleJobs (eng := Reference.ideal) (fixedZone 0) 1700000000000
       (plainControls None tipHigh)
       [entryWith "a" 5 VUndefined None; entryWith "b" 20 VUndefined None;
        entryWith "c" 10 VUndefined None]).
Proof.
  destruct (sort_orders_by_selected_mode
              (eng := Reference.ideal) (fixedZone 0) 1700000000000
              (plainControls None tipHigh)
              [entryWith "a" 5 VUndefined None; entryWith "b" 20 VUndefined None;
               entryWith "c" 10 VUndefined None]) as (_ & H & _).
  apply H. repeat constructor.
Defined.

Section SortNaN.
Context {eng : Engine}.
Variables (zone : Zone) (now : Z).

(** With the controls of the first render only the activity filter
    applies. *)
Lemma plain_filtered (origin : option Geo.LatLng) (sort : SortMode)
      (l : list Entry) :
  filtered zone now (plainControls origin sort) l
  = List.filter (fun x => isActive zone now (job x)) l.
Proof.
  unfold filtered. simpl. change (trim "") with "".
  now rewrite toLowerCase_empty.
Qed.

(** No arrangement of two entries is in the order of the tips when one
    tip is [NaN]. *)
Lemma nanTipEntries_unordered (out : list Entry) :
  Permutation out nanTipEntries ->
  ~ StronglySorted (inOrder tipHigh) out
  /\ ~ StronglySorted (inOrder tipLow) out.
Proof.
  intros Hperm. symmetry in Hperm.
  apply Permutation_length_2_inv in Hperm as [-> | ->]; split; intros Hs;
    apply StronglySorted_inv in Hs as [_ Hall];
    apply Forall_inv in Hall; simpl in Hall; discriminate Hall.
Qed.

End SortNaN.

(** C6, as stated, fails: a tip of [NaN] beside a tip of 1. Both entries
    pass the filters, and on every engine, in every zone, the list sorted
    by tip is in the order of the tips neither for [tipHigh] nor for
    [tipLow]. *)
Lemma sort_NaN_tip_not_in_order :
  ~ comparableKeys tipHigh nanTipEntries
  /\ forall (eng : Engine) (zone : Zone) (now : Z),
       filtered zone now (plainControls None tipHigh) nanTipEntries
       = nanTipEntries
       /\ ~ StronglySorted (inOrder tipHigh)
            (visibleJobs zone now (plainControls None tipHigh) nanTipEntries)
       /\ ~ StronglySorted (inOrder tipLow)
            (visibleJobs zone now (plainControls None tipLow) nanTipEntries).
Proof.
  split.
  - unfold comparableKeys, nanTipEntries. intros H.
    apply Forall_inv in H. discriminate H.
  - intros eng zone now.
    assert (Hf : forall mode,
               filtered zone now (plainControls None mode) nanTipEntries
               = nanTipEntries).
    { intros mode. now rewrite plain_filtered. }
    split; [apply Hf|]. split.
    + apply nanTipEntries_unordered. unfold visibleJobs. rewrite Hf.
      apply array_sort_Permutation.
    + apply nanTipEntries_unordered. unfold visibleJobs. rewrite Hf.
      apply array_sort_Permutation.
Qed.

(** The four modes on three entries, in exact arithmetic. *)
Example sort_three_entries :
  let a := entryWith "a" 5 (VTimestamp (Some (DateAt 300))) (Some (Fin 2)) in
  let b := entryWith "b" 20 VUndefined None in
  let c := entryWith "c" 10 (VTimestamp (Some (DateAt 100))) (Some (Fin 1)) in
  array_sort (Engine := Reference.ideal)
    (comparator (eng := Reference.ideal) tipHigh) [a; b; c] = [b; c; a]
  /\ array_sort (Engine := Reference.ideal)
       (comparator (eng := Reference.ideal) tipLow) [a; b; c] = [a; c; b]
  /\ array_sort (Engine := Reference.ideal)
       (comparator (eng := Reference.ideal) newest) [a; b; c] = [a; c; b]
  /\ array_sort (Engine := Reference.ideal)
       (comparator (eng := Reference.ideal) distance) [a; b; c] = [c; a; b].
Proof.
  cbv zeta. unfold array_sort, Reference.ideal, of_Z. repeat split; cbn;
    repeat (first [ rewrite decide_R_true by lra
                  | rewrite decide_R_false by lra ]; cbn);
    reflexivity.
Qed.

(** ** The geocoder *)

Section GeocoderFacts.
Variable env : Geo.Platform.

Lemma nonEmpty_false (s : string) : nonEmpty s = false <-> s = "".
Proof. destruct s; simpl; split; congruence. Qed.

Lemma nonEmpty_true (s : string) : nonEmpty s = true <-> s <> "".
Proof. destruct s; simpl; split; congruence. Qed.

(** The shape of every call: nothing; a storage read that throws; a
    result read off the cache; or one logged request followed by at most
    one write under the key of the ZIP. *)
Lemma geocodeZip_cases (zip : string) (w : Geo.World) :
  (Geo.geocodeZip env zip w = (Geo.Resolved VNull, w) /\ trim zip = "")
  \/ (Geo.geocodeZip env zip w = (Geo.Rejected, w)
      /\ trim zip <> ""
      /\ Geo.getItem env w (cacheKey zip) = None)
  \/ (exists cached v,
         Geo.geocodeZip env zip w = (Geo.Resolved v, w)
         /\ trim zip <> ""
         /\ Geo.getItem env w (cacheKey zip) = Some cached
         /\ Geo.cacheHit env cached = Some v)
  \/ (trim zip <> ""
      /\ (exists cached, Geo.getItem env w (cacheKey zip) = Some cached
                         /\ Geo.cacheHit env cached = None)
      /\ ((exists r, (r = Geo.Resolved VNull \/ r = Geo.Rejected)
                     /\ Geo.geocodeZip env zip w
                        = (r, Geo.logRequest w (lookupUrl env zip)))
          \/ exists c, finiteLatLng c
               /\ (exists d ds,
                      Geo.fetch env (lookupUrl env zip)
                      = Some (Geo.mkResponse true (Some (Some (d :: ds))))
                      /\ c = Geo.mkLatLng
                               (Geo.Number_of_string env (Geo.cand_lat d))
                               (Geo.Number_of_string env (Geo.cand_lon d)))
               /\ Geo.geocodeZip env zip w
                  = (Geo.Resolved (Geo.latLngValue c),
                     match Geo.setItem env (Geo.logRequest w (lookupUrl env zip))
                             (cacheKey zip)
                             (Geo.JSON_stringify env (Geo.latLngValue c)) with
                     | Some w' => w'
                     | None => Geo.logRequest w (lookupUrl env zip)
                     end))).
Proof.
  unfold Geo.geocodeZip, lookupUrl, cacheKey.
  destruct (nonEmpty (trim zip)) eqn:Hz; simpl negb; cbv iota.
  2:{ left. split; [reflexivity|]. now apply nonEmpty_false. }
  apply nonEmpty_true in Hz. right.
  destruct (Geo.getItem env w _) as [cached|] eqn:Hget.
  2:{ left. auto. }
  right.
  destruct (Geo.cacheHit env cached) as [v|] eqn:Hhit.
  { left. exists cached, v. auto. }
  right. split; [exact Hz|]. split; [eauto|].
  destruct (Geo.fetch env _) as [[ok js]|] eqn:Hf; simpl.
  2:{ left. eexists. split; [right; reflexivity|reflexivity]. }
  destruct ok; simpl.
  2:{ left. eexists. split; [left; reflexivity|reflexivity]. }
  destruct js as [[[|d ds]|]|]; simpl;
    try (left; eexists; split; [left; reflexivity|reflexivity]);
    try (left; eexists; split; [right; reflexivity|reflexivity]).
  destruct (isFinite (Geo.Number_of_string env (Geo.cand_lat d))) eqn:E1;
    simpl; [|left; eexists; split; [left; reflexivity|reflexivity]].
  destruct (isFinite (Geo.Number_of_string env (Geo.cand_lon d))) eqn:E2;
    simpl; [|left; eexists; split; [left; reflexivity|reflexivity]].
  right.
  exists (Geo.mkLatLng (Geo.Number_of_string env (Geo.cand_lat d))
                       (Geo.Number_of_string env (Geo.cand_lon d))).
  split; [split; [exact E1|exact E2]|].
  split; [eauto|reflexivity].
Qed.


Lemma setItem_frame (w w' : Geo.World) (key v : string) :
  Geo.setItem env w key v = Some w' ->
  (Geo.hasWindow env = true /\ Geo.storageThrows env = false)
  /\ Geo.storageFull w' = Geo.storageFull w
  /\ Geo.requests w' = Geo.requests w
  /\ Geo.localStorage w' = <[key := v]> (Geo.localStorage w).
Proof.
  unfold Geo.setItem.
  destruct (Geo.hasWindow env), (Geo.storageThrows env),
    (Geo.storageFull w); simpl; try discriminate.
  intros H. injection H as <-. auto.
Qed.

Lemma append_inj (p a b : string) :
  String.append p a = String.append p b -> a = b.
Proof.
  induction p as [|c p IH]; simpl; [trivial|].
  intros H. injection H as H. now apply IH.
Qed.

(** A non-empty entry that [JSON.parse] accepts is returned at once. *)
Lemma geocodeZip_parsed_entry (zip : string) (w : Geo.World) (c : string)
      (v : value) :
  trim zip <> "" ->
  Geo.getItem env w (cacheKey zip) = Some (Some c) ->
  c <> "" -> Geo.JSON_parse env c = Some v ->
  Geo.geocodeZip env zip w = (Geo.Resolved v, w).
Proof.
  intros Hz Hc Hne Hv. unfold Geo.geocodeZip.
  apply nonEmpty_true in Hz. rewrite Hz. simpl negb. cbv iota.
  unfold cacheKey in Hc. rewrite Hc. unfold Geo.cacheHit.
  apply nonEmpty_true in Hne. now rewrite Hne, Hv.
Qed.

(** *** What the storage holds *)

Lemma geocoderWritten_step (zip : string) (w : Geo.World) :
  geocoderWritten env w ->
  geocoderWritten env (snd (Geo.geocodeZip env zip w)).
Proof.
  intros Hw.
  destruct (geocodeZip_cases zip w)
    as [[E _] | [(E & _) | [(cached & v & E & _) |
         (Hz & _ & [(r & _ & E) | (c & Hc & (d & ds & _ & Hd) & E)])]]];
    rewrite E; simpl; try exact Hw.
  destruct (Geo.setItem env _ _ _) as [w'|] eqn:Hset; [|exact Hw].
  apply setItem_frame in Hset as ([Hwin Hthrows] & _ & _ & Hl).
  intros k v. rewrite Hl. simpl.
  destruct (decide (k = cacheKey zip)) as [-> | Hk].
  - rewrite lookup_insert_eq. intros H. injection H as <-.
    split; [exact Hwin|]. split; [exact Hthrows|].
    exists zip, c. repeat split; try assumption; try apply Hc.
    rewrite Hd. eauto.
  - rewrite lookup_insert_ne by congruence. apply Hw.
Qed.

Lemma geocoderWritten_runCalls (zips : list string) (w : Geo.World) :
  geocoderWritten env w -> geocoderWritten env (runCalls env zips w).
Proof.
  revert w. induction zips as [|z zips IH]; intros w Hw; [exact Hw|].
  apply IH. now apply geocoderWritten_step.
Qed.

Lemma geocoderWritten_empty (w : Geo.World) :
  Geo.localStorage w = ∅ -> geocoderWritten env w.
Proof. intros E k v. rewrite E, lookup_empty. discriminate. Qed.

(** In a storage that only the geocoder wrote, the entry of a ZIP stops
    the lookup. *)
Lemma geocodeZip_written_entry (zip : string) (w : Geo.World) (c : string) :
  jsonRoundTrip env -> geocoderWritten env w ->
  Geo.localStorage w !! cacheKey zip = Some c ->
  exists coords,
    deliverable env coords
    /\ c = Geo.JSON_stringify env (Geo.latLngValue coords)
    /\ Geo.geocodeZip env zip w = (Geo.Resolved (Geo.latLngValue coords), w).
Proof.
  intros Hjson Hw Hc.
  destruct (Hw _ _ Hc) as (Hwin & Hthrows & z & coords & Hk & Hz & Hd & ->).
  exists coords. split; [exact Hd|]. split; [reflexivity|].
  destruct (Hjson coords Hd) as [Hne Hparse].
  assert (Hzip : trim zip = trim z) by (apply (append_inj "zipgeo:"), Hk).
  apply geocodeZip_parsed_entry with (c := Geo.JSON_stringify env (Geo.latLngValue coords));
    [congruence | | exact Hne | exact Hparse].
  unfold Geo.getItem. now rewrite Hwin, Hthrows, Hc.
Qed.

(** C8. In a browser whose storage was empty before the geocoder ran, and
    whose [JSON.parse] reads back the coordinates [JSON.stringify] writes,
    after any sequence of calls: a ZIP whose trimmed form is empty
    resolves to [null] and leaves storage and request log untouched; a ZIP
    whose trimmed form has a cache entry resolves at once to the
    coordinates the entry was written from, and leaves storage and request
    log untouched. In any world, a non-empty entry that [JSON.parse]
    accepts is returned without a request. *)
Theorem geocodeZip_empty_or_cached_no_request (calls : list string)
        (w0 : Geo.World) (zip : string) :
  jsonRoundTrip env ->
  Geo.localStorage w0 = ∅ ->
  let w := runCalls env calls w0 in
  (trim zip = "" -> Geo.geocodeZip env zip w = (Geo.Resolved VNull, w))
  /\ (forall c,
        Geo.localStorage w !! cacheKey zip = Some c ->
        exists coords,
          deliverable env coords
          /\ c = Geo.JSON_stringify env (Geo.latLngValue coords)
          /\ Geo.geocodeZip env zip w
             = (Geo.Resolved (Geo.latLngValue coords), w))
  /\ (forall w1 c v,
        trim zip <> "" ->
        Geo.getItem env w1 (cacheKey zip) = Some (Some c) ->
        c <> "" -> Geo.JSON_parse env c = Some v ->
        Geo.geocodeZip env zip w1 = (Geo.Resolved v, w1)).
Proof.
  intros Hjson Hempty w. split; [|split].
  - intros Hz. unfold Geo.geocodeZip. now rewrite Hz.
  - intros c. apply geocodeZip_written_entry; [exact Hjson|].
    now apply geocoderWritten_runCalls, geocoderWritten_empty.
  - intros w1 c v. apply geocodeZip_parsed_entry.
Qed.

End GeocoderFacts.

Lemma oneNumber_jsonRoundTrip : jsonRoundTrip oneNumber.
Proof.
  intros c (_ & la & lo & ->). split; [discriminate | reflexivity].
Qed.

Lemma geocodeZip_empty_or_cached_no_request_witness :
  Geo.geocodeZip oneNumber "   " (runCalls oneNumber ["10001"] freshWorld)
  = (Geo.Resolved VNull, runCalls oneNumber ["10001"] freshWorld)
  /\ Geo.geocodeZip oneNumber " 10001 "
       (runCalls oneNumber ["10001"] freshWorld)
     = (Geo.Resolved (Geo.latLngValue (Geo.mkLatLng (Fin 40) (Fin 40))),
        runCalls oneNumber ["10001"] freshWorld).
Proof.
  split.
  - destruct (geocodeZip_empty_or_cached_no_request
                oneNumber ["10001"] freshWorld "   "
                oneNumber_jsonRoundTrip eq_refl) as (H & _).
    apply H. reflexivity.
  - destruct (geocodeZip_empty_or_cached_no_request
                oneNumber ["10001"] freshWorld " 10001 "
                oneNumber_jsonRoundTrip eq_refl) as (_ & H & _).
    destruct (H "place" eq_refl) as (coords & (_ & la & lo & ->) & _ & E).
    exact E.
Defined.

(** ** Page loads in flight *)

Section InFlight.
Import Page.

Lemma afterFetch_feed (c : Caller) (s : State) :
  jobs (afterFetch c s) = jobs s
  /\ hasMore (afterFetch c s) = hasMore s
  /\ lastDocRef (afterFetch c s) = lastDocRef s
  /\ error (afterFetch c s) = error s.
Proof. destruct c as [[|]| |]; repeat split. Qed.

Lemma fetchResume_jobs (m : Mode) (docs : list Doc) (s : State) :
  jobs (fetchResume m (Docs docs) s)
  = if isReset m then map itemOf docs
    else mergePage (jobs s) (map itemOf docs).
Proof. reflexivity. Qed.

(** C9, as the code has it. The mount effect holds a cancellation flag
    and consults it once, before it clears the loading indicator after its
    awaited call. Nothing else consults a flag: when a query settles, its
    page becomes the feed state (job list, [hasMore], cursor, error) as
    [fetchJobsPage] computes it from the current state, whoever called,
    whatever the flag, and whichever request was issued last. *)
Theorem settled_page_applied_whatever_the_flag
        (s s' : State) (tid : nat) (t : Task) (r : Settled) :
  pending s !! tid = Some t ->
  step (Settle tid r) s = Some s' ->
  (jobs s' = jobs (fetchResume (mode t) r s)
   /\ hasMore s' = hasMore (fetchResume (mode t) r s)
   /\ lastDocRef s' = lastDocRef (fetchResume (mode t) r s)
   /\ error s' = error (fetchResume (mode t) r s))
  /\ (forall docs, r = Docs docs ->
        jobs s' = if isReset (mode t) then map itemOf docs
                  else mergePage (jobs s) (map itemOf docs))
  /\ (caller t = FromEffect true -> loading s' = loading s)
  /\ (caller t = FromEffect false -> loading s' = false).
Proof.
  intros Ht Hstep. unfold step in Hstep. rewrite Ht in Hstep.
  injection Hstep as <-.
  destruct (afterFetch_feed (caller t) (fetchResume (mode t) r s))
    as (Hj & Hh & Hl & He).
  split; [|split; [|split]].
  - unfold setPending. cbn [jobs hasMore lastDocRef error]. auto.
  - intros docs ->. unfold setPending. cbn [jobs].
    rewrite Hj. apply fetchResume_jobs.
  - intros Hc. rewrite Hc. destruct r; reflexivity.
  - intros Hc. rewrite Hc. destruct r; reflexivity.
Qed.

End InFlight.

(** C9, as stated, fails: the answer to the first load arrives after the
    answer to the refresh and replaces its page. *)
Lemma stale_first_load_overwrites_refresh :
  (exists s1 s2,
      Page.run [Page.Mount; Page.ClickRefresh;
                Page.Settle 1 (Page.Docs [docWithId "new" 2])] Page.initial
      = Some s1
      /\ Page.jobs s1 = [jobWithId "new" 2]
      /\ Page.run (slowFirstLoad [docWithId "old" 1] [docWithId "new" 2])
                  Page.initial
         = Some s2
      /\ Page.jobs s2 = [jobWithId "old" 1]
      /\ Page.lastDocRef s2 = Some (docWithId "old" 1))
  /\ ~ supersededResponseDropped.
Proof.
  split.
  - do 2 eexists. repeat split; reflexivity.
  - intros H.
    specialize (H (Page.launch Page.reset Page.FromRefresh
                     (Page.setRefreshing true
                        (Page.launch Page.reset (Page.FromEffect false)
                           (Page.setLoading true Page.initial))))
                  0%nat 1%nat
                  (Page.mkTask Page.reset None (Page.FromEffect false))
                  (Page.mkTask Page.reset None Page.FromRefresh)
                  [docWithId "new" 2] [docWithId "old" 1]).
    specialize (H _ _ ltac:(lia) eq_refl eq_refl eq_refl eq_refl).
    discriminate H.
Qed.

Lemma settled_page_applied_whatever_the_flag_witness :
  Page.run [Page.Mount; Page.Cleanup 0] Page.initial = Some cancelledFirstLoad
  /\ exists s',
       Page.step (Page.Settle 0 (Page.Docs [docWithId "old" 1]))
                 cancelledFirstLoad = Some s'
       /\ Page.jobs s' = [jobWithId "old" 1]
       /\ Page.loading s' = true.
Proof.
  split; [reflexivity|].
  eexists. split; [reflexivity|].
  assert (Hp : Page.pending cancelledFirstLoad !! 0%nat
               = Some (Page.mkTask Page.reset None (Page.FromEffect true)))
    by reflexivity.
  destruct (settled_page_applied_whatever_the_flag
              cancelledFirstLoad _ 0%nat _ (Page.Docs [docWithId "old" 1])
              Hp eq_refl) as (_ & Hjobs & Hflag & _).
  split.
  - apply (Hjobs _ eq_refl).
  - rewrite (Hflag eq_refl). reflexivity.
Defined.

(** * Further properties of the code *)

(** ** Strings *)

Section StringFacts.

Lemma trimStart_noLeadingSpace (s : string) : noLeadingSpace (trimStart s).
Proof.
  induction s as [|c s IH]; simpl; [exact I|].
  destruct (isWhiteSpace c) eqn:E; [exact IH|]. exact E.
Qed.

Lemma trimStart_fixed (s : string) : noLeadingSpace s -> trimStart s = s.
Proof. destruct s as [|c s]; simpl; [reflexivity|]. now intros ->. Qed.

Lemma trimEnd_noLeadingSpace (s : string) :
  noLeadingSpace s -> noLeadingSpace (trimEnd s).
Proof.
  destruct s as [|c s]; simpl; [trivial|]. intros E.
  destruct (trimEnd s); simpl; [rewrite E; simpl|]; exact E.
Qed.

Lemma trimEnd_idempotent (s : string) : trimEnd (trimEnd s) = trimEnd s.
Proof.
  induction s as [|c s IH]; simpl; [reflexivity|].
  destruct (trimEnd s) as [|d t] eqn:E.
  - destruct (isWhiteSpace c) eqn:Ec; simpl; [reflexivity|]. now rewrite Ec.
  - simpl. simpl in IH. rewrite IH. reflexivity.
Qed.

(** Trimming twice is trimming once. *)
Lemma trim_idempotent (s : string) : trim (trim s) = trim s.
Proof.
  unfold trim.
  rewrite (trimStart_fixed (trimEnd (trimStart s))).
  - apply trimEnd_idempotent.
  - apply trimEnd_noLeadingSpace, trimStart_noLeadingSpace.
Qed.

End StringFacts.

(** ** Distance: range and finiteness *)

Section DistanceRange.
Context {eng : Engine}.
Local Open Scope R_scope.

(** X1. On every engine the distance is [NaN] or a finite number of miles
    between 0 and 15836, never an infinity and never negative. It is a
    finite number only when all four coordinates are, and both latitudes
    are finite in radians: any [NaN] or infinite coordinate makes it
    [NaN]. *)
Theorem haversineMiles_range_and_finiteness (a b : Geo.LatLng) :
  (Geo.haversineMiles a b = NaN
   \/ exists d, Geo.haversineMiles a b = Fin d /\ 0 <= d <= 15836)
  /\ (isFinite (Geo.haversineMiles a b) = true ->
      finiteLatLng a /\ finiteLatLng b
      /\ isFinite (Geo.toRad (Geo.lat a)) = true
      /\ isFinite (Geo.toRad (Geo.lat b)) = true)
  /\ (~ (finiteLatLng a /\ finiteLatLng b) -> Geo.haversineMiles a b = NaN).
Proof.
  split; [apply haversineMiles_NaN_or_Fin|].
  split; [apply haversineMiles_finite|].
  intros Hnot.
  destruct (haversineMiles_NaN_or_Fin a b) as [E | (d & E & _)]; [exact E|].
  destruct Hnot.
  assert (H : isFinite (Geo.haversineMiles a b) = true) by now rewrite E.
  apply haversineMiles_finite in H. tauto.
Qed.

End DistanceRange.

Lemma haversineMiles_range_and_finiteness_witness :
  Geo.haversineMiles (eng := Reference.ideal) nowhere nearOrigin = NaN.
Proof.
  destruct (haversineMiles_range_and_finiteness
              (eng := Reference.ideal) nowhere nearOrigin) as (_ & _ & H).
  apply H. intros [[H1 _] _]. discriminate H1.
Defined.

(** ** The geocoder: cache, requests and failures *)

Section GeocoderMore.
Variable env : Geo.Platform.

Lemma geocodeZip_same_trim (zip zip' : string) (w : Geo.World) :
  trim zip = trim zip' ->
  Geo.geocodeZip env zip w = Geo.geocodeZip env zip' w.
Proof. unfold Geo.geocodeZip. now intros ->. Qed.

(** X2. White space around the ZIP is irrelevant: the call on [zip] and
    the call on its trimmed form give the same result and the same
    world. *)
Theorem geocodeZip_ignores_padding (zip : string) (w : Geo.World) :
  Geo.geocodeZip env (trim zip) w = Geo.geocodeZip env zip w.
Proof. apply geocodeZip_same_trim, trim_idempotent. Qed.

(** X3. A call sends at most one request, to the lookup URL of the trimmed
    ZIP, appended to the log; it never changes whether the storage is
    full, and it leaves every storage entry other than the one of this ZIP
    as it was. *)
Theorem geocodeZip_one_request_own_key (zip : string) (w : Geo.World) :
  let w' := snd (Geo.geocodeZip env zip w) in
  (Geo.requests w' = Geo.requests w
   \/ Geo.requests w' = Geo.requests w ++ [lookupUrl env zip])
  /\ Geo.storageFull w' = Geo.storageFull w
  /\ (forall k, k <> cacheKey zip ->
                Geo.localStorage w' !! k = Geo.localStorage w !! k).
Proof.
  cbv zeta.
  destruct (geocodeZip_cases env zip w)
    as [[E _] | [(E & _) | [(cached & v & E & _) |
         (_ & _ & [(r & _ & E) | (c & _ & _ & E)])]]];
    rewrite E; simpl; auto.
  destruct (Geo.setItem env _ _ _) as [w'|] eqn:Hset; simpl; auto.
  apply setItem_frame in Hset as (_ & Hf & Hr & Hl). simpl in *.
  rewrite Hf, Hr, Hl. repeat split; auto.
  intros k Hk. now rewrite lookup_insert_ne.
Qed.


(** X5. Whether the storage is full changes neither the result of a call
    nor the requests it sends: a failed cache write is swallowed. *)
Theorem geocodeZip_full_storage_same_result (zip : string) (w : Geo.World)
        (b : bool) :
  fst (Geo.geocodeZip env zip (withStorageFull b w))
  = fst (Geo.geocodeZip env zip w)
  /\ Geo.requests (snd (Geo.geocodeZip env zip (withStorageFull b w)))
     = Geo.requests (snd (Geo.geocodeZip env zip w)).
Proof.
  unfold Geo.geocodeZip. destruct (negb (nonEmpty (trim zip))); [auto|].
  change (Geo.getItem env (withStorageFull b w)) with (Geo.getItem env w).
  destruct (Geo.getItem env w _) as [cached|]; [|auto].
  destruct (Geo.cacheHit env _); [auto|].
  destruct (Geo.fetch env _) as [[ok js]|]; [|auto].
  destruct (negb _); [auto|]. simpl.
  destruct js as [[[|d ds]|]|]; auto.
  destruct (_ || _); [auto|]. split; [reflexivity|].
  unfold Geo.setItem. simpl.
  destruct (Geo.hasWindow env), (Geo.storageThrows env), b,
    (Geo.storageFull w); reflexivity.
Qed.

(** X6. The cache round trip. In a browser with room in its storage,
    when a call resolves to coordinates after a request, and
    [JSON.parse] reads back what [JSON.stringify] wrote for them, every
    later call for the same trimmed ZIP resolves to the same coordinates
    and leaves the world, its request log included, as it is. *)
Theorem geocodeZip_second_lookup_from_cache (zip zip' : string)
        (w w' : Geo.World) (v : value) :
  Geo.hasWindow env = true ->
  Geo.storageFull w = false ->
  Geo.geocodeZip env zip w = (Geo.Resolved v, w') ->
  Geo.requests w' <> Geo.requests w ->
  v <> VNull ->
  Geo.JSON_stringify env v <> "" ->
  Geo.JSON_parse env (Geo.JSON_stringify env v) = Some v ->
  trim zip' = trim zip ->
  Geo.geocodeZip env zip' w' = (Geo.Resolved v, w').
Proof.
  intros Hwin Hroom Hcall Hreq Hv Hne Hparse Hzip.
  destruct (geocodeZip_cases env zip w)
    as [[E _] | [(E & _) | [(cached & v0 & E & _) |
         (Hz & (cached & Hg & _) & [(r & Hr & E) | (c & _ & _ & E)])]]];
    rewrite E in Hcall; try discriminate Hcall.
  - injection Hcall as <- <-. now destruct Hreq.
  - injection Hcall as <- <-. now destruct Hreq.
  - destruct Hr as [-> | ->]; [|discriminate Hcall].
    injection Hcall as <- _. now destruct Hv.
  - assert (Hthrows : Geo.storageThrows env = false).
    { unfold Geo.getItem in Hg. rewrite Hwin in Hg.
      now destruct (Geo.storageThrows env). }
    injection Hcall as <- <-.
    unfold Geo.setItem. rewrite Hwin, Hthrows. simpl. rewrite Hroom. simpl.
    apply (geocodeZip_parsed_entry env zip' _
             (Geo.JSON_stringify env (Geo.latLngValue c)));
      [congruence | | exact Hne | exact Hparse].
    unfold Geo.getItem. rewrite Hwin, Hthrows. simpl.
    unfold cacheKey. rewrite Hzip. now rewrite lookup_insert_eq.
Qed.

End GeocoderMore.


Lemma geocodeZip_second_lookup_from_cache_witness :
  exists w',
    Geo.geocodeZip onePlace "10001" freshWorld
    = (Geo.Resolved (Geo.latLngValue nearOrigin), w')
    /\ Geo.geocodeZip onePlace " 10001 " w'
       = (Geo.Resolved (Geo.latLngValue nearOrigin), w').
Proof.
  eexists. split; [reflexivity|].
  apply (geocodeZip_second_lookup_from_cache onePlace "10001" " 10001 "
           freshWorld).
  - reflexivity.
  - reflexivity.
  - reflexivity.
  - discriminate.
  - discriminate.
  - discriminate.
  - reflexivity.
  - reflexivity.
Defined.

(** ** The feed: filters *)

Section FeedFilters.
Context {eng : Engine}.
Variables (zone : Zone) (now : Z).

Lemma filter_filter {A : Type} (f g : A -> bool) (l : list A) :
  List.filter g (List.filter f l) = List.filter (fun x => f x && g x) l.
Proof.
  induction l as [|x l IH]; simpl; [reflexivity|].
  destruct (f x); simpl; [|exact IH]. destruct (g x); now rewrite IH.
Qed.

Lemma filter_true {A : Type} (f : A -> bool) (l : list A) :
  (forall x, f x = true) -> List.filter f l = l.
Proof.
  intros H. induction l as [|x l IH]; simpl; [reflexivity|].
  now rewrite H, IH.
Qed.

Lemma optional_filter {A : Type} (c : bool) (f : A -> bool) (l : list A) :
  (if c then List.filter f l else l) = List.filter (fun x => negb c || f x) l.
Proof.
  destruct c; simpl; [reflexivity|]. symmetry. now apply filter_true.
Qed.

(** The four stages are one filter. *)
Lemma filtered_one_filter (st : Controls) (l : list Entry) :
  filtered zone now st l
  = List.filter (fun x => isActive zone now (job x) && keepsZip st x
                          && keepsText st x && keepsRadius st x) l.
Proof.
  assert (E : forall l0 : list Entry,
             (if enableRadius st
              then match origin st with
                   | Some _ => List.filter (radiusPass st) l0
                   | None => []
                   end
              else l0)
             = List.filter (keepsRadius st) l0).
  { intros l0. unfold keepsRadius.
    destruct (enableRadius st); simpl; [|symmetry; now apply filter_true].
    destruct (origin st); simpl; [reflexivity|].
    induction l0; simpl; auto. }
  unfold filtered. simpl normalize. cbv zeta. rewrite E.
  rewrite (optional_filter (nonEmpty (trim (zipFilter st)))).
  rewrite (optional_filter (nonEmpty (toLowerCase (trim (searchText st))))).
  rewrite !filter_filter. apply filter_ext. intros x.
  unfold keepsZip, keepsText. now rewrite !andb_assoc.
Qed.

Lemma filtered_In_iff (st : Controls) (l : list Entry) (x : Entry) :
  In x (filtered zone now st l) <->
  In x l /\ isActive zone now (job x) = true /\ keepsZip st x = true
  /\ keepsText st x = true /\ keepsRadius st x = true.
Proof.
  rewrite filtered_one_filter, filter_In, !andb_true_iff. tauto.
Qed.

Lemma feed_In_iff (st : Controls) (jobs : list JobFeedItem) (x : Entry) :
  In x (feed zone now st jobs) <->
  In x (computed jobs (origin st)) /\ isActive zone now (job x) = true
  /\ keepsZip st x = true /\ keepsText st x = true
  /\ keepsRadius st x = true.
Proof. unfold feed. now rewrite visibleJobs_In, filtered_In_iff. Qed.

Lemma List_filter_sublist {A : Type} (f : A -> bool) (l : list A) :
  sublist (List.filter f l) l.
Proof.
  induction l as [|x l IH]; simpl; [constructor|].
  destruct (f x); now constructor.
Qed.

Lemma computed_jobs (jobs : list JobFeedItem) (o : option Geo.LatLng) :
  map job (computed jobs o) = jobs.
Proof.
  unfold computed. rewrite map_map. simpl. apply map_id.
Qed.

(** X7. The filters only remove entries and keep the order of the loaded
    list: what remains before the sort is a sub-list of the entries
    computed from the jobs, so the feed is a rearrangement of a sub-list,
    never longer than the job list, and each of its entries is one of the
    computed entries of a loaded job. *)
Theorem feed_is_rearranged_sublist (st : Controls) (jobs : list JobFeedItem) :
  sublist (filtered zone now st (computed jobs (origin st)))
          (computed jobs (origin st))
  /\ Permutation (feed zone now st jobs)
                 (filtered zone now st (computed jobs (origin st)))
  /\ (length (feed zone now st jobs) <= length jobs)%nat
  /\ (forall x, In x (feed zone now st jobs) ->
                In x (computed jobs (origin st)) /\ In (job x) jobs).
Proof.
  assert (Hsub : sublist (filtered zone now st (computed jobs (origin st)))
                         (computed jobs (origin st))).
  { rewrite filtered_one_filter. apply List_filter_sublist. }
  assert (Hperm : Permutation (feed zone now st jobs)
                    (filtered zone now st (computed jobs (origin st)))).
  { apply array_sort_Permutation. }
  split; [exact Hsub|]. split; [exact Hperm|]. split.
  - rewrite (Permutation_length Hperm).
    apply sublist_length in Hsub.
    unfold computed in Hsub at 2. rewrite length_map in Hsub. exact Hsub.
  - intros x Hx. apply feed_In_iff in Hx as (Hx & _).
    split; [exact Hx|].
    rewrite <- (computed_jobs jobs (origin st)). now apply in_map.
Qed.

End FeedFilters.

Section FeedControls.
Context {eng : Engine}.
Variables (zone : Zone) (now : Z).

Lemma feed_ext (st st' : Controls) (jobs : list JobFeedItem) :
  origin st' = origin st -> sort st' = sort st ->
  (forall x, keepsZip st' x = keepsZip st x) ->
  (forall x, keepsText st' x = keepsText st x) ->
  (forall x, keepsRadius st' x = keepsRadius st x) ->
  feed zone now st' jobs = feed zone now st jobs.
Proof.
  intros Ho Hs Hz Ht Hr. unfold feed, visibleJobs.
  rewrite !filtered_one_filter, Ho, Hs. f_equal.
  apply filter_ext. intros x. now rewrite Hz, Ht, Hr.
Qed.

(** X8. The ZIP filter works on trimmed text: white space around the
    filter value changes nothing, a value of white space only filters
    nothing, and with any other value every entry shown has a string [zip]
    whose trimmed form is exactly the trimmed value. *)
Theorem zip_filter_trimmed_exact (st : Controls) (jobs : list JobFeedItem) :
  feed zone now (withZipFilter (trim (zipFilter st)) st) jobs
  = feed zone now st jobs
  /\ (trim (zipFilter st) = "" ->
      feed zone now st jobs = feed zone now (withZipFilter "" st) jobs)
  /\ (trim (zipFilter st) <> "" ->
      forall x, In x (feed zone now st jobs) ->
                exists z, zip (job x) = VString z
                          /\ trim z = trim (zipFilter st)).
Proof.
  split; [|split].
  - apply feed_ext; try reflexivity. intros x.
    unfold keepsZip. simpl. now rewrite trim_idempotent.
  - intros Hz. apply feed_ext; try reflexivity. intros x.
    unfold keepsZip. simpl. now rewrite Hz.
  - intros Hz x Hx. apply feed_In_iff in Hx as (_ & _ & Hk & _).
    unfold keepsZip in Hk. apply nonEmpty_true in Hz as Hne.
    rewrite Hne in Hk. simpl in Hk.
    unfold zipPass in Hk. apply bool_decide_eq_true in Hk.
    destruct (zip (job x)) as [| | | |z| | |]; simpl in Hk;
      try (now destruct Hz).
    eauto.
Qed.

(** X9. The search works on trimmed, lower-cased text: white space around
    the search text changes nothing, a text that is blank, or empty once
    lower-cased, filters nothing, and with any other text the entries
    shown are exactly those the other filters keep whose trimmed,
    lower-cased title or description contains the trimmed, lower-cased
    search text. *)
Theorem search_trimmed_lowercased (st : Controls) (jobs : list JobFeedItem) :
  feed zone now (withSearchText (trim (searchText st)) st) jobs
  = feed zone now st jobs
  /\ (trim (searchText st) = "" ->
      feed zone now st jobs = feed zone now (withSearchText "" st) jobs)
  /\ (toLowerCase (trim (searchText st)) = "" ->
      feed zone now st jobs = feed zone now (withSearchText "" st) jobs)
  /\ (toLowerCase (trim (searchText st)) <> "" ->
      forall x,
        In x (feed zone now st jobs) <->
        In x (feed zone now (withSearchText "" st) jobs)
        /\ (includes (toLowerCase (normalize (title (job x))))
                     (toLowerCase (trim (searchText st))) = true
            \/ includes (toLowerCase (normalize (description (job x))))
                        (toLowerCase (trim (searchText st))) = true)).
Proof.
  assert (Hblank : toLowerCase (trim (searchText st)) = "" ->
                   feed zone now st jobs
                   = feed zone now (withSearchText "" st) jobs).
  { intros Hs. apply feed_ext; try reflexivity. intros x.
    unfold keepsText. simpl. change (trim "") with "".
    now rewrite Hs, toLowerCase_empty. }
  split; [|split; [|split]].
  - apply feed_ext; try reflexivity. intros x.
    unfold keepsText. simpl. now rewrite trim_idempotent.
  - intros Hs. apply Hblank. rewrite Hs. apply toLowerCase_empty.
  - exact Hblank.
  - intros Hs x. rewrite !feed_In_iff.
    assert (Hnone : keepsText (withSearchText "" st) x = true).
    { unfold keepsText. simpl. change (trim "") with "".
      now rewrite toLowerCase_empty. }
    assert (Htext : keepsText st x = true <->
                    includes (toLowerCase (normalize (title (job x))))
                             (toLowerCase (trim (searchText st))) = true
                    \/ includes (toLowerCase (normalize (description (job x))))
                                (toLowerCase (trim (searchText st))) = true).
    { unfold keepsText, textPass. apply nonEmpty_true in Hs. rewrite Hs.
      simpl. apply orb_true_iff. }
    rewrite Hnone, Htext. simpl. tauto.
Qed.

(** X10. A larger radius shows at least the same entries: every entry of
    the feed under radius [r1] is in the feed under any radius [r2] with
    [r1 <= r2]. *)
Theorem larger_radius_keeps_entries (st : Controls) (r1 r2 : number)
        (jobs : list JobFeedItem) (x : Entry) :
  leb r1 r2 = true ->
  In x (feed zone now (withRadiusMiles r1 st) jobs) ->
  In x (feed zone now (withRadiusMiles r2 st) jobs).
Proof.
  intros Hle Hx. apply feed_In_iff. apply feed_In_iff in Hx.
  destruct Hx as (Hin & Hact & Hz & Ht & Hr).
  repeat split; try assumption.
  unfold keepsRadius, radiusPass in *. simpl in *.
  destruct (enableRadius st); simpl in *; [|reflexivity].
  destruct (origin st); simpl in *; [|discriminate Hr].
  destruct (miles x) as [m|]; [|discriminate Hr].
  now apply (leb_trans m r1 r2).
Qed.

End FeedControls.

Lemma zip_filter_trimmed_exact_witness :
  exists z, zip (job (mkEntry (zipJob "10001 ") None false)) = VString z
            /\ trim z = trim " 10001 ".
Proof.
  destruct (zip_filter_trimmed_exact
              (eng := Reference.ideal) (fixedZone 0) 1700000000000
              (withZipFilter " 10001 " (plainControls None newest))
              [zipJob "10001 "; zipJob "10002"]) as (_ & _ & H).
  apply H; [discriminate|].
  apply feed_In_iff. split; [left; reflexivity|].
  repeat split; reflexivity.
Defined.

Lemma search_trimmed_lowercased_witness :
  In (mkEntry (titledJob "Mow the LAWN") None false)
     (feed (eng := Reference.ideal) (fixedZone 0) 1700000000000
           (withSearchText " LAWN " (plainControls None newest))
           [titledJob "Mow the LAWN"; titledJob "Paint a fence"]).
Proof.
  destruct (search_trimmed_lowercased
              (eng := Reference.ideal) (fixedZone 0) 1700000000000
              (withSearchText " LAWN " (plainControls None newest))
              [titledJob "Mow the LAWN"; titledJob "Paint a fence"])
    as (_ & _ & _ & H).
  apply H.
  - discriminate.
  - split.
    + apply feed_In_iff. split; [left; reflexivity|].
      repeat split; reflexivity.
    + left. reflexivity.
Defined.

Lemma larger_radius_keeps_entries_witness :
  In (mkEntry nearJob
              (Some (Geo.haversineMiles (eng := Reference.ideal)
                       nearOrigin nearOrigin)) true)
     (feed (eng := Reference.ideal) (fixedZone 0) 1700000000000
           (withRadiusMiles (Fin 25)
              (withRadius true (plainControls (Some nearOrigin) newest)))
           [nearJob]).
Proof.
  apply (larger_radius_keeps_entries
           (eng := Reference.ideal) (fixedZone 0) 1700000000000
           (withRadius true (plainControls (Some nearOrigin) newest))
           (Fin 0) (Fin 25)).
  - apply decide_R_true. lra.
  - apply feed_In_iff. simpl. split; [left; reflexivity|].
    repeat split; try reflexivity.
    unfold keepsRadius, radiusPass. simpl.
    replace (Geo.haversineMiles (eng := Reference.ideal) nearOrigin nearOrigin)
      with (Fin 0).
    + apply decide_R_true. lra.
    + symmetry. rewrite haversineMiles_same.
      cbn [Geo.lat Geo.lng nearOrigin]. now rewrite toRad_Fin.
Defined.

Section Expiry.
Context {eng : Engine}.
Variable zone : Zone.

(** In a zone whose local day never goes back and whose later days start
    later, a later instant starts its day no earlier. *)
Lemma startOfDay_mono (a b : Z) :
  midnightsAscend zone -> daysAscend zone ->
  (a <= b)%Z -> (startOfDay zone a <= startOfDay zone b)%Z.
Proof.
  intros Hmid Hdays Hle. apply startOfDay_le; [exact Hmid|].
  now apply Hdays.
Qed.

Lemma isActive_same_day (now later : Z) (job : JobFeedItem) :
  calendarDay zone now = calendarDay zone later ->
  isActive zone now job = isActive zone later job.
Proof.
  intros Hday. unfold isActive, setHoursZero, startOfDay.
  now rewrite Hday.
Qed.

(** X11. Expiry is permanent and depends on the local calendar day only.
    Two instants of the same local day agree on every job. In a zone
    whose local day never goes back and whose later days start later,
    with today's local midnight a valid time value, a job active at some
    instant is active at every earlier instant, and the feed at a later
    instant holds no entry that the feed at an earlier instant lacks. *)
Theorem isActive_only_expires (now later : Z) :
  midnightsAscend zone -> daysAscend zone -> validDay zone now ->
  (now <= later)%Z ->
  (forall job, isActive zone later job = true -> isActive zone now job = true)
  /\ (calendarDay zone now = calendarDay zone later ->
      forall job, isActive zone now job = isActive zone later job)
  /\ (forall st jobs x,
        In x (feed zone later st jobs) -> In x (feed zone now st jobs)).
Proof.
  intros Hmid Hdays Hvalid Hle.
  assert (Hmono : forall job, isActive zone later job = true ->
                              isActive zone now job = true).
  { intros job H. apply isActive_true. apply isActive_true in H.
    destruct H as [H | [H | (t & Ht & Vt & _ & Hday)]]; auto.
    right; right. exists t. repeat split; try assumption.
    pose proof (startOfDay_mono now later Hmid Hdays Hle). lia. }
  split; [exact Hmono|]. split.
  - intros Hday job. now apply isActive_same_day.
  - intros st jobs x Hx. apply feed_In_iff. apply feed_In_iff in Hx.
    destruct Hx as (Hin & Hact & Hrest). split; [exact Hin|].
    split; [now apply Hmono|exact Hrest].
Qed.

End Expiry.

Lemma isActive_only_expires_witness :
  isActive eastern2023 1699150000000
           (jobWithEnd (VBool false) (VTimestamp (Some (DateAt 1699245000000))))
  = true.
Proof.
  destruct eastern2023_regular as (Hmid & Hdays & _).
  destruct (isActive_only_expires
              (eng := Reference.ideal) eastern2023
              1699150000000 1699245000000 Hmid Hdays eq_refl
              ltac:(lia)) as (H & _).
  apply H. reflexivity.
Defined.

(** ** The derived views: [computed] and [stats] *)

Section DerivedViews.
Context {eng : Engine}.

Lemma haveCoords_count (jobs : list JobFeedItem) (o : option Geo.LatLng) :
  length (List.filter (fun x => hasCoords x) (computed jobs o))
  = length (List.filter resolves jobs).
Proof.
  unfold computed, resolves.
  induction jobs as [|j jobs IH]; simpl; [reflexivity|].
  destruct (jobCoords j); simpl; now rewrite IH.
Qed.

Lemma filter_length_le {A : Type} (f : A -> bool) (l : list A) :
  (length (List.filter f l) <= length l)%nat.
Proof.
  induction l as [|x l IH]; simpl; [lia|]. destruct (f x); simpl; lia.
Qed.

Lemma filter_length_all {A : Type} (f : A -> bool) (l : list A) :
  length (List.filter f l) = length l <-> forall x, In x l -> f x = true.
Proof.
  induction l as [|x l IH]; simpl; [split; [intros _ y []|reflexivity]|].
  pose proof (filter_length_le f l) as Hle.
  destruct (f x) eqn:E; simpl.
  - split.
    + intros H y [<- | Hy]; [exact E|]. apply IH; [lia|exact Hy].
    + intros H. f_equal. apply IH. auto.
  - split; [lia|]. intros H. specialize (H x (or_introl eq_refl)). congruence.
Qed.

(** X12. [computed] keeps the loaded jobs, one entry each and in order;
    an entry has a distance exactly when an origin is set and the
    coordinates of its job resolve. [stats] counts the loaded jobs and
    those whose coordinates resolve, whatever the origin; the two counts
    [haveCoords] and [missingCoords] add up to [total], and
    [missingCoords] is zero exactly when every job has coordinates. *)
Theorem computed_and_stats (jobs : list JobFeedItem)
        (o : option Geo.LatLng) :
  map job (computed jobs o) = jobs
  /\ (forall x, In x (computed jobs o) ->
        hasCoords x = resolves (job x)
        /\ (miles x <> None <-> o <> None /\ resolves (job x) = true))
  /\ total (stats (computed jobs o)) = length jobs
  /\ haveCoords (stats (computed jobs o)) = length (List.filter resolves jobs)
  /\ (haveCoords (stats (computed jobs o))
      + missingCoords (stats (computed jobs o))
      = total (stats (computed jobs o)))%nat
  /\ (missingCoords (stats (computed jobs o)) = 0%nat <->
      forall j, In j jobs -> jobCoords j <> None)
  /\ stats (computed jobs o) = stats (computed jobs None).
Proof.
  assert (Hlen : length (computed jobs o) = length jobs)
    by (unfold computed; apply length_map).
  pose proof (haveCoords_count jobs o) as Hhave.
  pose proof (filter_length_le resolves jobs) as Hle.
  split; [apply computed_jobs|]. split.
  { intros x Hx. unfold computed in Hx.
    apply in_map_iff in Hx as (j & <- & _). simpl. unfold resolves.
    split; [reflexivity|].
    destruct o, (jobCoords j); split;
      try (intros [H1 H2]); try intros H; try congruence;
      split; congruence. }
  unfold stats. simpl. rewrite Hlen, Hhave.
  split; [reflexivity|]. split; [reflexivity|]. split; [lia|]. split.
  - split.
    + intros H j Hj.
      assert (Hall : length (List.filter resolves jobs) = length jobs) by lia.
      pose proof (proj1 (filter_length_all resolves jobs) Hall j Hj) as Hr.
      unfold resolves in Hr. destruct (jobCoords j); [discriminate|discriminate Hr].
    + intros H.
      assert (Hall : length (List.filter resolves jobs) = length jobs).
      { apply filter_length_all. intros j Hj. unfold resolves.
        specialize (H j Hj). now destruct (jobCoords j). }
      lia.
  - assert (Hlen' : length (computed jobs None) = length jobs)
      by (unfold computed; apply length_map).
    rewrite Hlen', (haveCoords_count jobs None). reflexivity.
Qed.

End DerivedViews.

(** ** The load-more merge: identities and membership *)

Section MergeMore.

Lemma filter_none {A : Type} (f : A -> bool) (l : list A) :
  (forall x, In x l -> f x = false) -> List.filter f l = [].
Proof.
  induction l as [|x l IH]; simpl; intros H; [reflexivity|].
  rewrite (H x (or_introl eq_refl)). apply IH. auto.
Qed.

Lemma mergePage_In (prev items : list JobFeedItem) (it : JobFeedItem) :
  In it (mergePage prev items) <->
  In it prev \/ (In it items /\ ~ In (id it) (map id prev)).
Proof.
  rewrite mergePage_app, in_app_iff, filter_In, unseen_not_In. reflexivity.
Qed.

Lemma unseen_after_merge (prev items : list JobFeedItem) (it : JobFeedItem) :
  In it items -> unseen (mergePage prev items) it = false.
Proof.
  intros Hit. destruct (unseen (mergePage prev items) it) eqn:E;
    [|reflexivity].
  apply unseen_not_In in E. destruct E.
  destruct (unseen prev it) eqn:E'.
  - apply in_map. apply mergePage_In. right. split; [exact Hit|].
    now apply unseen_not_In.
  - rewrite mergePage_app, map_app, in_app_iff. left.
    destruct (in_dec string_dec (id it) (map id prev)) as [H | H];
      [exact H|].
    apply unseen_not_In in H. congruence.
Qed.

(** X13. Merging an empty page changes nothing, merging into an empty
    list keeps the page as it is, and merging the same page a second time
    changes nothing: a page delivered twice adds no entry the second
    time. The merged list is never longer than both lists together. *)
Theorem mergePage_identities (prev items : list JobFeedItem) :
  mergePage prev [] = prev
  /\ mergePage [] items = items
  /\ mergePage (mergePage prev items) items = mergePage prev items
  /\ mergePage prev prev = prev
  /\ (length prev <= length (mergePage prev items)
      <= length prev + length items)%nat.
Proof.
  split; [reflexivity|]. split.
  { rewrite mergePage_app. simpl. apply filter_true. reflexivity. }
  split.
  { rewrite (mergePage_app (mergePage prev items)).
    rewrite filter_none; [apply app_nil_r|].
    intros it Hit. now apply unseen_after_merge. }
  split.
  { rewrite mergePage_app, filter_none; [apply app_nil_r|].
    intros it Hit. destruct (unseen prev it) eqn:E; [|reflexivity].
    apply unseen_not_In in E. destruct E. now apply in_map. }
  rewrite mergePage_app, length_app.
  pose proof (filter_length_le (unseen prev) items). lia.
Qed.

(** X14. After a merge every id of the page is present, every loaded
    record is still present, and a record of the merged list is a loaded
    record or a page record whose id was not loaded: when the page brings
    another version of a loaded id, the loaded version stays and the
    page's version is dropped. *)
Theorem mergePage_keeps_loaded_version (prev items : list JobFeedItem) :
  (forall it, In it items -> In (id it) (map id (mergePage prev items)))
  /\ (forall j, In j prev -> In j (mergePage prev items))
  /\ (forall it, In it (mergePage prev items) ->
        In it prev \/ (In it items /\ ~ In (id it) (map id prev)))
  /\ (forall it, In it items -> In (id it) (map id prev) -> ~ In it prev ->
        ~ In it (mergePage prev items)).
Proof.
  split; [|split; [|split]].
  - intros it Hit.
    destruct (in_dec string_dec (id it) (map id (mergePage prev items)))
      as [H | H]; [exact H|].
    apply unseen_not_In in H. now rewrite unseen_after_merge in H.
  - intros j Hj. apply mergePage_In. now left.
  - intros it. apply mergePage_In.
  - intros it _ Hid Hnot Hin. apply mergePage_In in Hin as [H | [_ H]]; auto.
Qed.

Lemma mergePage_keeps_loaded_version_witness :
  ~ In (jobWithId "b" 3)
       (mergePage [jobWithId "a" 1; jobWithId "b" 2]
                  [jobWithId "b" 3; jobWithId "c" 4]).
Proof.
  destruct (mergePage_keeps_loaded_version
              [jobWithId "a" 1; jobWithId "b" 2]
              [jobWithId "b" 3; jobWithId "c" 4]) as (_ & _ & _ & H).
  apply H.
  - left. reflexivity.
  - right. left. reflexivity.
  - intros [E | [E | []]]; injection E as E; lra.
Defined.

Lemma mergePage_NoDup (prev items : list JobFeedItem) :
  NoDup (map id prev) -> NoDup (map id items) ->
  NoDup (map id (mergePage prev items)).
Proof.
  intros Hprev Hitems. rewrite mergePage_app, map_app.
  apply NoDup_app. split; [exact Hprev|]. split.
  - intros i Hi Hin. apply list_elem_of_In in Hi, Hin.
    apply in_map_iff in Hin as (it & <- & Hit).
    apply filter_In in Hit as [_ Hu].
    now apply unseen_not_In in Hu.
  - now apply NoDup_ids_filter.
Qed.

End MergeMore.

(** ** Page loads: what the busy flags and the cursor guarantee *)

Section PageInvariants.
Import Page.

Lemma step_Settle (tid : nat) (r : Settled) (s s' : State) :
  step (Settle tid r) s = Some s' ->
  exists t, pending s !! tid = Some t
            /\ s' = setPending (delete tid (pending s)) (nextTask s)
                      (afterFetch (caller t) (fetchResume (mode t) r s)).
Proof.
  unfold step. destruct (pending s !! tid) as [t|]; [|discriminate].
  intros H. injection H as <-. eauto.
Qed.

Lemma flagsTrackLoads_initial : flagsTrackLoads initial.
Proof.
  unfold flagsTrackLoads, inFlight, atMostOne, initial. simpl.
  repeat split; try discriminate;
    try (intros (tid & t & H & _); now rewrite lookup_empty in H);
    intros; now rewrite lookup_empty in *.
Qed.

Lemma launch_fields (m : Mode) (c : Caller) (s : State) :
  pending (launch m c s)
  = <[nextTask s := mkTask m (if isReset m then None else lastDocRef s) c]>
      (pending s)
  /\ nextTask (launch m c s) = S (nextTask s)
  /\ refreshing (launch m c s) = refreshing s
  /\ loadingMore (launch m c s) = loadingMore s
  /\ jobs (launch m c s) = jobs s.
Proof. unfold launch, fetchStart. simpl. destruct m; auto. Qed.

Lemma flagsTrackLoads_step (e : Event) (s s' : State) :
  flagsTrackLoads s -> step e s = Some s' -> flagsTrackLoads s'.
Proof.
  intros (Hfresh & Hr & Hr1 & Hm & Hm1) Hstep.
  unfold flagsTrackLoads, inFlight, atMostOne in *.
  destruct e as [|tid| | |tid r].
  - (* Mount *)
    injection Hstep as <-.
    destruct (launch_fields reset (FromEffect false) (setLoading true s))
      as (Hp & Hn & Hrf & Hlm & _).
    rewrite Hp, Hn, Hrf, Hlm. simpl.
    assert (Hnew : pending s !! nextTask s = None).
    { destruct (pending s !! nextTask s) eqn:E; [|reflexivity].
      apply Hfresh in E. lia. }
    repeat split.
    + intros tid t H. destruct (decide (nextTask s = tid)) as [<-|Hne];
        [lia|]. rewrite lookup_insert_ne in H by exact Hne.
      apply Hfresh in H. lia.
    + intros H. apply Hr in H as (tid & t & H & Hc). exists tid, t.
      split; [|exact Hc]. rewrite lookup_insert_ne; [exact H|].
      intros <-. congruence.
    + intros (tid & t & H & Hc). apply Hr.
      destruct (decide (nextTask s = tid)) as [<-|Hne].
      * rewrite lookup_insert_eq in H. injection H as <-. discriminate Hc.
      * rewrite lookup_insert_ne in H by exact Hne. eauto.
    + intros tid1 tid2 t1 t2 H1 C1 H2 C2.
      destruct (decide (nextTask s = tid1)) as [<-|N1].
      { rewrite lookup_insert_eq in H1. injection H1 as <-. discriminate C1. }
      destruct (decide (nextTask s = tid2)) as [<-|N2].
      { rewrite lookup_insert_eq in H2. injection H2 as <-. discriminate C2. }
      rewrite lookup_insert_ne in H1, H2 by assumption. eauto.
    + intros H. apply Hm in H as (tid & t & H & Hc). exists tid, t.
      split; [|exact Hc]. rewrite lookup_insert_ne; [exact H|].
      intros <-. congruence.
    + intros (tid & t & H & Hc). apply Hm.
      destruct (decide (nextTask s = tid)) as [<-|Hne].
      * rewrite lookup_insert_eq in H. injection H as <-. discriminate Hc.
      * rewrite lookup_insert_ne in H by exact Hne. eauto.
    + intros tid1 tid2 t1 t2 H1 C1 H2 C2.
      destruct (decide (nextTask s = tid1)) as [<-|N1].
      { rewrite lookup_insert_eq in H1. injection H1 as <-. discriminate C1. }
      destruct (decide (nextTask s = tid2)) as [<-|N2].
      { rewrite lookup_insert_eq in H2. injection H2 as <-. discriminate C2. }
      rewrite lookup_insert_ne in H1, H2 by assumption. eauto.
  - (* Cleanup *)
    unfold step in Hstep.
    destruct (pending s !! tid) as [[m cur [c| |]]|] eqn:Et;
      try discriminate Hstep.
    injection Hstep as <-. simpl.
    assert (Hold : forall k t c0,
              (c0 = FromRefresh \/ c0 = FromLoadMore) ->
              (<[tid := mkTask m cur (FromEffect true)]> (pending s) !! k
               = Some t /\ caller t = c0)
              <-> (pending s !! k = Some t /\ caller t = c0)).
    { intros k t c0 Hc0. destruct (decide (tid = k)) as [<-|Hne].
      - rewrite lookup_insert_eq. split; intros [H C].
        + injection H as <-. simpl in C. destruct Hc0; congruence.
        + rewrite Et in H. injection H as <-. simpl in C.
          destruct Hc0; congruence.
      - now rewrite lookup_insert_ne. }
    repeat split.
    + intros k t H. destruct (decide (tid = k)) as [<-|Hne].
      * eapply Hfresh; eauto.
      * rewrite lookup_insert_ne in H by exact Hne. eauto.
    + intros H. apply Hr in H as (k & t & H). exists k, t.
      now apply Hold; auto.
    + intros (k & t & H). apply Hr. exists k, t. now apply Hold in H; auto.
    + intros k1 k2 t1 t2 H1 C1 H2 C2.
      pose proof (proj1 (Hold k1 t1 FromRefresh (or_introl eq_refl))
                        (conj H1 C1)) as [? ?].
      pose proof (proj1 (Hold k2 t2 FromRefresh (or_introl eq_refl))
                        (conj H2 C2)) as [? ?].
      eauto.
    + intros H. apply Hm in H as (k & t & H). exists k, t.
      now apply Hold; auto.
    + intros (k & t & H). apply Hm. exists k, t. now apply Hold in H; auto.
    + intros k1 k2 t1 t2 H1 C1 H2 C2.
      pose proof (proj1 (Hold k1 t1 FromLoadMore (or_intror eq_refl))
                        (conj H1 C1)) as [? ?].
      pose proof (proj1 (Hold k2 t2 FromLoadMore (or_intror eq_refl))
                        (conj H2 C2)) as [? ?].
      eauto.
  - (* ClickRefresh *)
    unfold step in Hstep. destruct (refreshing s) eqn:Eref;
      [discriminate|]. injection Hstep as <-.
    destruct (launch_fields reset FromRefresh (setRefreshing true s))
      as (Hp & Hn & Hrf & Hlm & _).
    rewrite Hp, Hn, Hrf, Hlm. simpl.
    assert (Hnone : forall k t, pending s !! k = Some t ->
                                caller t <> FromRefresh).
    { intros k t H C.
      assert (false = true); [|discriminate]. apply Hr. eauto. }
    repeat split.
    + intros tid t H. destruct (decide (nextTask s = tid)) as [<-|Hne];
        [lia|]. rewrite lookup_insert_ne in H by exact Hne.
      apply Hfresh in H. lia.
    + intros _. exists (nextTask s). eexists. rewrite lookup_insert_eq.
      split; reflexivity.
    + intros tid1 tid2 t1 t2 H1 C1 H2 C2.
      destruct (decide (nextTask s = tid1)) as [<-|N1];
        destruct (decide (nextTask s = tid2)) as [<-|N2]; try reflexivity.
      * rewrite lookup_insert_ne in H2 by assumption.
        now destruct (Hnone _ _ H2).
      * rewrite lookup_insert_ne in H1 by assumption.
        now destruct (Hnone _ _ H1).
      * rewrite lookup_insert_ne in H1, H2 by assumption.
        now destruct (Hnone _ _ H1).
    + intros H. apply Hm in H as (tid & t & H & Hc). exists tid, t.
      split; [|exact Hc]. rewrite lookup_insert_ne; [exact H|].
      intros <-. apply Hfresh in H. lia.
    + intros (tid & t & H & Hc). apply Hm.
      destruct (decide (nextTask s = tid)) as [<-|Hne].
      * rewrite lookup_insert_eq in H. injection H as <-. discriminate Hc.
      * rewrite lookup_insert_ne in H by exact Hne. eauto.
    + intros tid1 tid2 t1 t2 H1 C1 H2 C2.
      destruct (decide (nextTask s = tid1)) as [<-|N1].
      { rewrite lookup_insert_eq in H1. injection H1 as <-. discriminate C1. }
      destruct (decide (nextTask s = tid2)) as [<-|N2].
      { rewrite lookup_insert_eq in H2. injection H2 as <-. discriminate C2. }
      rewrite lookup_insert_ne in H1, H2 by assumption. eauto.
  - (* ClickLoadMore *)
    unfold step in Hstep.
    destruct (negb (loading s) && hasMore s && negb (loadingMore s)) eqn:G;
      [|discriminate]. injection Hstep as <-.
    apply andb_true_iff in G as [_ G]. apply negb_true_iff in G.
    destruct (launch_fields more FromLoadMore (setLoadingMore true s))
      as (Hp & Hn & Hrf & Hlm & _).
    rewrite Hp, Hn, Hrf, Hlm. simpl.
    assert (Hnone : forall k t, pending s !! k = Some t ->
                                caller t <> FromLoadMore).
    { intros k t H C.
      assert (loadingMore s = true); [|congruence]. apply Hm. eauto. }
    repeat split.
    + intros tid t H. destruct (decide (nextTask s = tid)) as [<-|Hne];
        [lia|]. rewrite lookup_insert_ne in H by exact Hne.
      apply Hfresh in H. lia.
    + intros H. apply Hr in H as (tid & t & H & Hc). exists tid, t.
      split; [|exact Hc]. rewrite lookup_insert_ne; [exact H|].
      intros <-. apply Hfresh in H. lia.
    + intros (tid & t & H & Hc). apply Hr.
      destruct (decide (nextTask s = tid)) as [<-|Hne].
      * rewrite lookup_insert_eq in H. injection H as <-. discriminate Hc.
      * rewrite lookup_insert_ne in H by exact Hne. eauto.
    + intros tid1 tid2 t1 t2 H1 C1 H2 C2.
      destruct (decide (nextTask s = tid1)) as [<-|N1].
      { rewrite lookup_insert_eq in H1. injection H1 as <-. discriminate C1. }
      destruct (decide (nextTask s = tid2)) as [<-|N2].
      { rewrite lookup_insert_eq in H2. injection H2 as <-. discriminate C2. }
      rewrite lookup_insert_ne in H1, H2 by assumption. eauto.
    + intros _. exists (nextTask s). eexists. rewrite lookup_insert_eq.
      split; reflexivity.
    + intros tid1 tid2 t1 t2 H1 C1 H2 C2.
      destruct (decide (nextTask s = tid1)) as [<-|N1];
        destruct (decide (nextTask s = tid2)) as [<-|N2]; try reflexivity.
      * rewrite lookup_insert_ne in H2 by assumption.
        now destruct (Hnone _ _ H2).
      * rewrite lookup_insert_ne in H1 by assumption.
        now destruct (Hnone _ _ H1).
      * rewrite lookup_insert_ne in H1, H2 by assumption.
        now destruct (Hnone _ _ H1).
  - (* Settle *)
    apply step_Settle in Hstep as (t & Et & ->).
    assert (Hdel : forall k t0, delete tid (pending s) !! k = Some t0 ->
                                k <> tid /\ pending s !! k = Some t0).
    { intros k t0 H. destruct (decide (tid = k)) as [<-|Hne].
      - now rewrite lookup_delete_eq in H.
      - rewrite lookup_delete_ne in H by exact Hne. auto. }
    assert (Hkeep : forall k t0, k <> tid -> pending s !! k = Some t0 ->
                                 delete tid (pending s) !! k = Some t0).
    { intros k t0 Hne H. rewrite lookup_delete_ne; auto. }
    assert (Href : refreshing (afterFetch (caller t) (fetchResume (mode t) r s))
                   = match caller t with
                     | FromRefresh => false
                     | _ => refreshing s
                     end).
    { destruct (caller t), r; reflexivity. }
    assert (Hlm : loadingMore (afterFetch (caller t) (fetchResume (mode t) r s))
                  = match caller t with
                    | FromLoadMore => false
                    | _ => loadingMore s
                    end).
    { destruct (caller t), r; reflexivity. }
    unfold setPending. simpl. rewrite Href, Hlm.
    repeat split.
    + intros k t0 H. apply Hdel in H as [_ H]. eauto.
    + intros H. destruct (caller t) eqn:Ec; try discriminate H;
        apply Hr in H as (k & t0 & H & C); exists k, t0;
        (split; [|exact C]); apply Hkeep; [|exact H| |exact H];
        intros ->; congruence.
    + intros (k & t0 & H & C). apply Hdel in H as [Hne H].
      destruct (caller t) eqn:Ec; try (apply Hr; eauto).
      destruct Hne. eapply Hr1; eauto.
    + intros k1 k2 t1 t2 H1 C1 H2 C2.
      apply Hdel in H1 as [_ H1], H2 as [_ H2]. eauto.
    + intros H. destruct (caller t) eqn:Ec; try discriminate H;
        apply Hm in H as (k & t0 & H & C); exists k, t0;
        (split; [|exact C]); apply Hkeep; [|exact H| |exact H];
        intros ->; congruence.
    + intros (k & t0 & H & C). apply Hdel in H as [Hne H].
      destruct (caller t) eqn:Ec; try (apply Hm; eauto).
      destruct Hne. eapply Hm1; eauto.
    + intros k1 k2 t1 t2 H1 C1 H2 C2.
      apply Hdel in H1 as [_ H1], H2 as [_ H2]. eauto.
Qed.

Lemma flagsTrackLoads_run (es : list Event) (s s' : State) :
  flagsTrackLoads s -> run es s = Some s' -> flagsTrackLoads s'.
Proof.
  revert s. induction es as [|e es IH]; simpl; intros s Hs Hrun.
  - injection Hrun as <-. exact Hs.
  - destruct (step e s) as [s1|] eqn:E; [|discriminate].
    eapply IH; [|exact Hrun]. eapply flagsTrackLoads_step; eauto.
Qed.

(** X15. In every state the page reaches from its first render, the
    refresh button is busy exactly while a load started by it is in
    flight, the load-more button likewise, and never are two loads of the
    same button in flight together. *)
Theorem busy_flags_track_loads_in_flight (es : list Event) (s : State) :
  run es initial = Some s ->
  (refreshing s = true <-> inFlight FromRefresh s)
  /\ atMostOne FromRefresh s
  /\ (loadingMore s = true <-> inFlight FromLoadMore s)
  /\ atMostOne FromLoadMore s.
Proof.
  intros Hrun.
  destruct (flagsTrackLoads_run es initial s flagsTrackLoads_initial Hrun)
    as (_ & H). exact H.
Qed.

End PageInvariants.

Lemma busy_flags_track_loads_in_flight_witness :
  exists s,
    Page.run [Page.Mount; Page.ClickRefresh] Page.initial = Some s
    /\ Page.refreshing s = true
    /\ inFlight Page.FromRefresh s
    /\ Page.step Page.ClickRefresh s = None.
Proof.
  eexists. split; [reflexivity|].
  match goal with
  | |- Page.refreshing ?s = _ /\ _ =>
      destruct (busy_flags_track_loads_in_flight
                  [Page.Mount; Page.ClickRefresh] s eq_refl) as (H & _)
  end.
  split; [reflexivity|]. split; [|reflexivity].
  apply H. reflexivity.
Defined.

Section PageLists.
Import Page.

Lemma step_jobs_NoDup (e : Event) (s s' : State) :
  distinctPages [e] -> step e s = Some s' ->
  NoDup (map id (jobs s)) -> NoDup (map id (jobs s')).
Proof.
  intros He Hstep Hs. apply Forall_cons in He as [He _].
  destruct e as [|tid| | |tid r].
  - injection Hstep as <-. exact Hs.
  - unfold step in Hstep.
    destruct (pending s !! tid) as [[m cur [c| |]]|];
      try discriminate Hstep.
    injection Hstep as <-. exact Hs.
  - unfold step in Hstep. destruct (refreshing s); [discriminate|].
    injection Hstep as <-. exact Hs.
  - unfold step in Hstep. destruct (_ && _); [|discriminate].
    injection Hstep as <-. exact Hs.
  - apply step_Settle in Hstep as (t & _ & ->).
    unfold setPending. cbn [jobs].
    destruct (afterFetch_feed (caller t) (fetchResume (mode t) r s))
      as (-> & _).
    destruct r as [docs|m]; [|exact Hs].
    rewrite fetchResume_jobs. destruct (isReset (mode t)); [exact He|].
    now apply mergePage_NoDup.
Qed.

(** X16. When every page the server delivers holds items of pairwise
    distinct ids, the job list of the page never holds an id twice,
    whatever loads, refreshes and answers interleave. *)
Theorem jobs_never_repeat_an_id (es : list Event) (s : State) :
  distinctPages es -> run es initial = Some s -> NoDup (map id (jobs s)).
Proof.
  intros Hes Hrun.
  assert (Hgen : forall es s0 s1,
             distinctPages es -> run es s0 = Some s1 ->
             NoDup (map id (jobs s0)) -> NoDup (map id (jobs s1))).
  { clear. induction es as [|e es IH]; simpl; intros s0 s1 Hes Hrun Hs0.
    - injection Hrun as <-. exact Hs0.
    - destruct (step e s0) as [s'|] eqn:E; [|discriminate].
      apply Forall_cons in Hes as [He Hes].
      apply (IH s' s1 Hes Hrun).
      apply (step_jobs_NoDup e s0 s'); auto.
      constructor; [exact He|constructor]. }
  apply (Hgen es initial s Hes Hrun). constructor.
Qed.

(** X17. After a page has settled, [hasMore] is true exactly when the
    page held 25 documents; after any other page the load-more button
    offers nothing. When it is offered, the next load-more asks for the
    documents after the last document of the latest non-empty page, and
    starts without touching the job list. *)
Theorem page_size_and_cursor (s s1 : State) (tid : nat)
        (docs : list Doc) :
  step (Settle tid (Docs docs)) s = Some s1 ->
  (hasMore s1 = true <-> length docs = PAGE_SIZE)
  /\ (length docs <> PAGE_SIZE -> step ClickLoadMore s1 = None)
  /\ lastDocRef s1 = match last docs with
                     | Some d => Some d
                     | None => lastDocRef s
                     end
  /\ (forall s2, step ClickLoadMore s1 = Some s2 ->
        pending s2 !! nextTask s1
        = Some (mkTask more (lastDocRef s1) FromLoadMore)
        /\ jobs s2 = jobs s1 /\ loadingMore s2 = true).
Proof.
  intros Hstep. apply step_Settle in Hstep as (t & _ & ->).
  assert (Hh : hasMore (setPending (delete tid (pending s)) (nextTask s)
                          (afterFetch (caller t)
                             (fetchResume (mode t) (Docs docs) s)))
               = Nat.eqb (length docs) PAGE_SIZE).
  { destruct (caller t) as [[|]| |]; reflexivity. }
  split; [|split; [|split]].
  - rewrite Hh. apply Nat.eqb_eq.
  - intros Hne. unfold step. rewrite Hh.
    apply Nat.eqb_neq in Hne. rewrite Hne.
    now rewrite andb_false_r.
  - destruct (caller t) as [[|]| |]; reflexivity.
  - intros s2 H2. unfold step in H2.
    destruct (_ && _ && _); [|discriminate]. injection H2 as <-.
    match goal with
    | |- context [launch more FromLoadMore ?s0] =>
        destruct (launch_fields more FromLoadMore s0)
          as (Hp & _ & _ & Hlm & Hj)
    end.
    rewrite Hp, Hj, Hlm. simpl isReset. cbv iota.
    split; [|split; reflexivity].
    apply lookup_insert_eq.
Qed.

End PageLists.

Lemma jobs_never_repeat_an_id_witness :
  Page.run loadThenRefresh Page.initial = Some afterLoadThenRefresh
  /\ NoDup (map id (Page.jobs afterLoadThenRefresh)).
Proof.
  split; [reflexivity|].
  apply (jobs_never_repeat_an_id loadThenRefresh).
  - repeat constructor; rewrite ?list_elem_of_In; simpl;
      intuition discriminate.
  - reflexivity.
Defined.

Lemma page_size_and_cursor_witness :
  exists s s1,
    Page.run [Page.Mount] Page.initial = Some s
    /\ Page.step (Page.Settle 0 (Page.Docs [docWithId "a" 1])) s = Some s1
    /\ Page.step Page.ClickLoadMore s1 = None
    /\ Page.lastDocRef s1 = Some (docWithId "a" 1).
Proof.
  do 2 eexists. split; [reflexivity|]. split; [reflexivity|].
  match goal with
  | |- Page.step _ ?s1 = None /\ _ =>
      destruct (page_size_and_cursor
                  (Page.launch Page.reset (Page.FromEffect false)
                     (Page.setLoading true Page.initial))
                  s1 0%nat [docWithId "a" 1] eq_refl)
        as (_ & Hshort & Hcur & _)
  end.
  split; [apply Hshort; discriminate|exact Hcur].
Defined.

(** ** The distance panel: where the origin comes from *)

Section OriginFacts.
Import OriginPanel.
Variable env : Geo.Platform.

Ltac settle_lookup :=
  repeat split; try discriminate; try reflexivity; intros;
  repeat match goal with
         | H : _ \/ _ |- _ => destruct H
         | H : ex _ |- _ => destruct H
         | H : _ /\ _ |- _ => destruct H
         | H : Geo.Resolved _ = Geo.Resolved _ |- _ =>
             injection H as H; subst
         | H : ?x <> ?x |- _ => now destruct H
         end;
  try discriminate; try congruence; auto.

Lemma useZipLocation_world (rejection : option string) (s : State)
      (w : Geo.World) :
  snd (useZipLocation env rejection s w)
  = snd (Geo.geocodeZip env (originZip s) w).
Proof.
  unfold useZipLocation, normalize.
  destruct (nonEmpty (trim (originZip s))) eqn:E; simpl negb; cbv iota.
  - rewrite (geocodeZip_same_trim env (trim (originZip s)) (originZip s))
      by apply trim_idempotent.
    destruct (Geo.geocodeZip env (originZip s) w) as [[coords|] w'];
      [destruct (truthy coords)|]; reflexivity.
  - unfold Geo.geocodeZip. now rewrite E.
Qed.

(** X18. [useZipLocation] acts on the world as one [geocodeZip] call on
    the typed text does. It always leaves a message and never touches the
    typed text. It replaces the origin exactly when the lookup resolves
    to a truthy value, by that value and with the source [zip]; after a
    rejection or a [null] the origin and its source are as before. When
    the lookup sent a request, a replaced origin is a pair of finite
    numbers. *)
Theorem useZipLocation_follows_lookup (rejection : option string)
        (s : State) (w : Geo.World) :
  let r := Geo.geocodeZip env (originZip s) w in
  let s' := fst (useZipLocation env rejection s w) in
  snd (useZipLocation env rejection s w) = snd r
  /\ originZip s' = originZip s
  /\ snack s' <> None
  /\ (forall coords, fst r = Geo.Resolved coords -> truthy coords = true ->
        origin s' = coords /\ originSource s' = Some zip
        /\ originBusy s' = false)
  /\ (fst r = Geo.Rejected
      \/ (exists coords, fst r = Geo.Resolved coords
                         /\ truthy coords = false) ->
      origin s' = origin s /\ originSource s' = originSource s)
  /\ (Geo.requests (snd r) <> Geo.requests w ->
      (origin s' = origin s /\ originSource s' = originSource s)
      \/ exists c, finiteLatLng c /\ origin s' = Geo.latLngValue c
                   /\ originSource s' = Some zip).
Proof.
  cbv zeta. split; [apply useZipLocation_world|].
  assert (Hblank : nonEmpty (trim (originZip s)) = false ->
                   Geo.geocodeZip env (originZip s) w
                   = (Geo.Resolved VNull, w)).
  { intros E. unfold Geo.geocodeZip. now rewrite E. }
  unfold useZipLocation, normalize.
  destruct (nonEmpty (trim (originZip s))) eqn:E; simpl negb; cbv iota.
  2:{ rewrite (Hblank eq_refl). simpl. settle_lookup. }
  clear Hblank.
  rewrite (geocodeZip_same_trim env (trim (originZip s)) (originZip s))
    by apply trim_idempotent.
  destruct (geocodeZip_cases env (originZip s) w)
    as [[E0 _] | [(E0 & _) | [(cached & v & E0 & _)
                 | (_ & _ & [(r & Hr & E0) | (c & Hc & _ & E0)])]]];
    rewrite E0; simpl.
  - settle_lookup.
  - settle_lookup.
  - destruct (truthy v) eqn:Hv; simpl; settle_lookup.
  - destruct Hr as [-> | ->]; simpl; settle_lookup.
  - split; [reflexivity|]. split; [discriminate|].
    split; [settle_lookup|]. split; [settle_lookup|].
    intros _. right. exists c. auto.
Qed.

Lemma useBrowserLocation_state (g : option Located) (s : State) :
  let s' := useBrowserLocation g s in
  originBusy s' = false
  /\ originZip s' = originZip s
  /\ ((origin s' = origin s /\ originSource s' = originSource s)
      \/ (truthy (origin s') = true /\ originSource s' = Some geo)).
Proof.
  unfold useBrowserLocation. destruct g as [[la lo|m]|]; simpl; auto.
Qed.

Lemma useZipLocation_state (rejection : option string) (s : State)
      (w : Geo.World) :
  let s' := fst (useZipLocation env rejection s w) in
  (originBusy s' = originBusy s \/ originBusy s' = false)
  /\ ((origin s' = origin s /\ originSource s' = originSource s)
      \/ (truthy (origin s') = true /\ originSource s' = Some zip)).
Proof.
  unfold useZipLocation. destruct (negb _); simpl; [auto|].
  destruct (Geo.geocodeZip env _ w) as [[coords|] w']; simpl; auto.
  destruct (truthy coords) eqn:E; simpl; auto.
Qed.

Lemma step_sourceKnown (e : Event) (s : State) (w : Geo.World) :
  sourceKnown s -> originBusy s = false ->
  let s' := fst (step env e (s, w)) in
  sourceKnown s' /\ originBusy s' = false /\ (originSet s -> originSet s').
Proof.
  intros Hk Hb. unfold step. destruct e as [text|g|rejection]; simpl.
  - auto.
  - rewrite Hb.
    destruct (useBrowserLocation_state g s) as (Hb' & _ & [[Ho Hs] | [Ho Hs]]);
      cbv zeta in *; simpl.
    + unfold sourceKnown, originSet in *. rewrite Ho, Hs.
      repeat split; auto; apply Hk.
    + unfold sourceKnown, originSet. rewrite Ho, Hs.
      repeat split; auto; discriminate.
  - rewrite Hb.
    destruct (useZipLocation_state rejection s w)
      as (Hb' & [[Ho Hs] | [Ho Hs]]); cbv zeta in *.
    + unfold sourceKnown, originSet in *. rewrite Ho, Hs.
      repeat split; auto; try apply Hk. destruct Hb'; congruence.
    + unfold sourceKnown, originSet. rewrite Ho, Hs.
      repeat split; auto; try discriminate. destruct Hb'; congruence.
Qed.

Lemma nothing_sent (w : Geo.World) (n : nat) :
  exists sent, Geo.requests w = Geo.requests w ++ sent
               /\ (length sent <= n)%nat.
Proof. exists []. rewrite app_nil_r. split; [reflexivity|simpl; lia]. Qed.

Lemma step_world (e : Event) (s : State) (w : Geo.World) :
  let w' := snd (step env e (s, w)) in
  Geo.storageFull w' = Geo.storageFull w
  /\ exists sent,
       Geo.requests w' = Geo.requests w ++ sent
       /\ (length sent <= zipClicks [e])%nat.
Proof.
  unfold step. destruct e as [text|g|rejection]; simpl.
  - split; [reflexivity|apply nothing_sent].
  - destruct (originBusy s); (split; [reflexivity|apply nothing_sent]).
  - destruct (originBusy s); simpl.
    { split; [reflexivity|apply nothing_sent]. }
    rewrite useZipLocation_world.
    destruct (geocodeZip_cases env (originZip s) w)
      as [[E0 _] | [(E0 & _) | [(cached & v & E0 & _)
                   | (_ & _ & [(r & Hr & E0) | (c & Hc & _ & E0)])]]];
      rewrite E0; simpl.
    + split; [reflexivity|apply nothing_sent].
    + split; [reflexivity|apply nothing_sent].
    + split; [reflexivity|apply nothing_sent].
    + split; [reflexivity|]. eexists. split; [reflexivity|]. unfold zipClicks. simpl. lia.
    + destruct (Geo.setItem env _ _ _) as [w'|] eqn:Hset; simpl.
      * apply setItem_frame in Hset as (_ & Hf & Hr & _). simpl in *.
        rewrite Hf, Hr. split; [reflexivity|].
        eexists. split; [reflexivity|]. unfold zipClicks. simpl. lia.
      * split; [reflexivity|]. eexists. split; [reflexivity|]. unfold zipClicks. simpl. lia.
Qed.

Lemma run_invariant (es : list Event) (s : State) (w : Geo.World) :
  sourceKnown s -> originBusy s = false ->
  let s' := fst (run env es (s, w)) in
  let w' := snd (run env es (s, w)) in
  sourceKnown s' /\ originBusy s' = false /\ (originSet s -> originSet s')
  /\ Geo.storageFull w' = Geo.storageFull w
  /\ exists sent,
       Geo.requests w' = Geo.requests w ++ sent
       /\ (length sent <= zipClicks es)%nat.
Proof.
  revert s w. induction es as [|e es IH]; intros s w Hk Hb; cbv zeta.
  - simpl. repeat split; auto; try apply Hk. apply nothing_sent.
  - change (run env (e :: es) (s, w)) with (run env es (step env e (s, w))).
    destruct (step_sourceKnown e s w Hk Hb) as (Hk1 & Hb1 & Hset1).
    destruct (step_world e s w) as (Hf1 & sent1 & Hr1 & Hl1).
    cbv zeta in *.
    destruct (step env e (s, w)) as [s1 w1]. simpl in *.
    destruct (IH s1 w1 Hk1 Hb1) as (Hk2 & Hb2 & Hset2 & Hf2 & sent2 & Hr2 & Hl2).
    cbv zeta in *.
    repeat split; auto; try apply Hk2; [congruence|].
    exists (sent1 ++ sent2). rewrite Hr2, Hr1, <- app_assoc.
    split; [reflexivity|]. rewrite length_app.
    assert (Hz : zipClicks (e :: es) = (zipClicks [e] + zipClicks es)%nat).
    { unfold zipClicks. simpl. destruct e; reflexivity. }
    lia.
Qed.

(** X19. Whatever is typed and clicked in the distance panel of a fresh
    page: the page has an origin exactly when it knows its source, no
    handler is left busy, an origin once set stays set, the storage is
    never made full, and the requests sent are appended to the log, at
    most one for each click on the ZIP button. *)
Theorem origin_panel_invariant (es more : list Event) (w : Geo.World) :
  let s' := fst (run env es (initial, w)) in
  let w' := snd (run env es (initial, w)) in
  sourceKnown s'
  /\ originBusy s' = false
  /\ (originSet s' -> originSet (fst (run env (es ++ more) (initial, w))))
  /\ Geo.storageFull w' = Geo.storageFull w
  /\ exists sent,
       Geo.requests w' = Geo.requests w ++ sent
       /\ (length sent <= zipClicks es)%nat.
Proof.
  assert (Hk0 : sourceKnown initial).
  { unfold sourceKnown, originSet. simpl. split; [discriminate|congruence]. }
  destruct (run_invariant es initial w Hk0 eq_refl)
    as (Hk & Hb & _ & Hf & Hsent).
  cbv zeta in *. repeat split; auto; try apply Hk.
  unfold run. rewrite fold_left_app. fold (run env es (initial, w)).
  destruct (run env es (initial, w)) as [s1 w1]. simpl in *.
  apply (run_invariant more s1 w1 Hk Hb).
Qed.

End OriginFacts.

(** ** Posting a job and reading it back in the feed *)

Section PostingFacts.
Variable env : Geo.Platform.
Variable parseDate : string -> Date.
Variable zone : Zone.
Variable now : Z.
Variable addDoc : list (string * value) -> option string.


(** The fields the feed reads, in the document [onSubmit] writes. *)
Lemma jobDocument_fields (uid : string) (coords : value) (created : Date)
      (f : NewJob.Form) :
  let d := NewJob.jobDocument env parseDate uid coords created f in
  lookupProp "id" d = VUndefined
  /\ lookupProp "title" d = VString (trim (NewJob.title f))
  /\ lookupProp "zip" d = VString (trim (NewJob.zip f))
  /\ lookupProp "tip" d = VNumber (NewJob.tipValue env f)
  /\ lookupProp "standingOffer" d = VBool (NewJob.standingOffer f)
  /\ lookupProp "endDate" d
     = (if NewJob.standingOffer f then VNull
        else NewJob.fromDate (NewJob.chosen parseDate f))
  /\ lookupProp "location" d
     = (if truthy coords
        then VObject [("lat", getProp coords "lat");
                      ("lng", getProp coords "lng")]
        else VUndefined)
  /\ lookupProp "latitude" d = VUndefined
  /\ lookupProp "longitude" d = VUndefined
  /\ lookupProp "lat" d = VUndefined
  /\ lookupProp "lng" d = VUndefined.
Proof.
  unfold NewJob.jobDocument.
  destruct (nonEmpty (trim (NewJob.contactEmail f))),
           (nonEmpty (trim (NewJob.contactPhone f))),
           (truthy coords); repeat split; reflexivity.
Qed.

(** What [onSubmit] did when it wrote a document. *)
Lemma onSubmit_Posted (uid : string) (created : Date) (f : NewJob.Form)
      (w w' : Geo.World) (docId : string) (fields : list (string * value)) :
  NewJob.onSubmit env parseDate zone now addDoc uid created f w
  = (NewJob.Posted docId fields, w') ->
  NewJob.validate env parseDate zone now f = None
  /\ exists coords,
       Geo.geocodeZip env (NewJob.zip f) w = (Geo.Resolved coords, w')
       /\ fields = NewJob.jobDocument env parseDate uid coords created f.
Proof.
  unfold NewJob.onSubmit.
  destruct (NewJob.validate env parseDate zone now f); [discriminate|].
  rewrite (geocodeZip_same_trim env (trim (NewJob.zip f)) (NewJob.zip f))
    by apply trim_idempotent.
  destruct (Geo.geocodeZip env (NewJob.zip f) w) as [[coords|] w1];
    [|discriminate].
  destruct (addDoc _); [|discriminate].
  intros H. injection H as <- <- <-. eauto.
Qed.

Ltac settle_posted Hpair :=
  repeat split; try discriminate; try reflexivity; intros;
  repeat match goal with
         | H : Geo.Resolved _ = Geo.Resolved _ |- _ =>
             injection H as H; subst
         | H : ?x <> ?x |- _ => now destruct H
         | H : truthy ?v = false |- _ => rewrite H
         end;
  try discriminate; try reflexivity; try apply Hpair; auto.

(** The item the feed builds from a document without stored [id]. *)
Lemma readItem_no_id (docId : string) (fields : list (string * value)) :
  lookupProp "id" fields = VUndefined ->
  exists job,
    NewJob.readItem docId fields = Some job
    /\ id job = docId
    /\ title job = lookupProp "title" fields
    /\ zip job = lookupProp "zip" fields
    /\ tip job = lookupProp "tip" fields
    /\ standingOffer job = lookupProp "standingOffer" fields
    /\ endDate job = lookupProp "endDate" fields
    /\ location job = lookupProp "location" fields
    /\ latitude job = lookupProp "latitude" fields
    /\ longitude job = lookupProp "longitude" fields
    /\ lat job = lookupProp "lat" fields
    /\ lng job = lookupProp "lng" fields.
Proof.
  intros Hid. unfold NewJob.readItem. rewrite Hid.
  eexists. split; [reflexivity|]. repeat split.
Qed.



(** X21. The coordinates of a job that [onSubmit] wrote. The lookup on
    the typed ZIP did not reject, and the world is what it left. The
    feed finds no coordinates on the job when the lookup resolved to a
    falsy value, and the pair [c] when it resolved to the pair [c]; when
    the lookup sent a request, the job has no coordinates or a pair of
    finite numbers. *)
Theorem posted_job_coordinates (uid : string) (created : Date)
        (f : NewJob.Form) (w w' : Geo.World) (docId : string)
        (fields : list (string * value)) :
  NewJob.onSubmit env parseDate zone now addDoc uid created f w
  = (NewJob.Posted docId fields, w') ->
  exists job,
    NewJob.readItem docId fields = Some job
    /\ let r := fst (Geo.geocodeZip env (NewJob.zip f) w) in
       w' = snd (Geo.geocodeZip env (NewJob.zip f) w)
       /\ r <> Geo.Rejected
       /\ (forall coords, r = Geo.Resolved coords -> truthy coords = false ->
             jobCoords job = None)
       /\ (forall c, r = Geo.Resolved (Geo.latLngValue c) ->
             jobCoords job = Some c)
       /\ (Geo.requests w' <> Geo.requests w ->
           jobCoords job = None
           \/ exists c, finiteLatLng c /\ jobCoords job = Some c).
Proof.
  intros Hsub.
  apply onSubmit_Posted in Hsub as (_ & coords & Hg & Hf).
  pose proof (jobDocument_fields uid coords created f) as F.
  cbv zeta in F. rewrite <- Hf in F. clear Hf.
  destruct F as (Fid & _ & _ & _ & _ & _ & Floc & Fla & Flo & Fa & Fn).
  destruct (readItem_no_id docId fields Fid)
    as (job & Hread & _ & _ & _ & _ & _ & _ & Jloc & Jla & Jlo & Ja & Jn).
  exists job. split; [exact Hread|]. cbv zeta.
  assert (Hcoords :
            jobCoords job
            = if truthy coords
              then bothNumbers (getProp coords "lat") (getProp coords "lng")
              else None).
  { unfold jobCoords. rewrite Jloc, Jla, Jlo, Ja, Jn, Floc, Fla, Flo, Fa, Fn.
    destruct (truthy coords); unfold nestedNumbers; simpl; [|reflexivity].
    destruct (bothNumbers _ _); reflexivity. }
  rewrite Hcoords.
  assert (Hpair : forall c,
             (if truthy (Geo.latLngValue c)
              then bothNumbers (getProp (Geo.latLngValue c) "lat")
                               (getProp (Geo.latLngValue c) "lng")
              else None) = Some c).
  { intros [la lo]. reflexivity. }
  pose proof Hg as Hg'.
  destruct (geocodeZip_cases env (NewJob.zip f) w)
    as [[E0 _] | [(E0 & _) | [(cached & v & E0 & _)
                 | (_ & _ & [(r & Hr & E0) | (c & Hc & _ & E0)])]]];
    rewrite E0 in Hg |- *; simpl.
  - injection Hg as <- <-. simpl. settle_posted Hpair.
  - discriminate Hg.
  - injection Hg as <- <-. settle_posted Hpair.
  - destruct Hr as [-> | ->]; [|discriminate Hg].
    injection Hg as <- <-. simpl. settle_posted Hpair.
  - injection Hg as <- Hw. rewrite Hpair.
    split; [now rewrite Hw|]. split; [discriminate|].
    split; [intros coords H; injection H as <-; discriminate|].
    split; [intros c0 H; injection H as H1 H2; destruct c, c0; simpl in *;
            congruence|].
    intros _. right. eauto.
Qed.

End PostingFacts.

Lemma mowing_posted :
  exists fields w',
    submitMowing = (NewJob.Posted "job1" fields, w')
    /\ Geo.requests w' <> Geo.requests freshWorld.
Proof.
  assert (Hv : NewJob.validate onePlace (fun _ => DateAt 1700110800000)
                               eastern2023 1700000000000 mowing = None).
  { unfold NewJob.validate. simpl.
    rewrite decide_R_false by lra. reflexivity. }
  unfold submitMowing, NewJob.onSubmit. rewrite Hv.
  do 2 eexists. split; [reflexivity|]. discriminate.
Qed.


Lemma posted_job_coordinates_witness :
  exists fields w' job,
    submitMowing = (NewJob.Posted "job1" fields, w')
    /\ NewJob.readItem "job1" fields = Some job
    /\ jobCoords job = Some nearOrigin.
Proof.
  destruct mowing_posted as (fields & w' & Hs & _).
  destruct (posted_job_coordinates onePlace (fun _ => DateAt 1700110800000)
              eastern2023 1700000000000 (fun _ => Some "job1") "u1"
              (DateAt 1700000000000) mowing freshWorld w' "job1" fields Hs)
    as (job & Hread & _ & _ & _ & H & _).
  exists fields, w', job. split; [exact Hs|]. split; [exact Hread|].
  apply H. reflexivity.
Defined.
